(** * find-object: the detection pipeline and its vocabulary

    A shallow embedding of [src/Vocabulary.cpp] and [src/FindObject.cpp]
    and the properties of the specification that concern them.

    Conventions of the embedding.
    - C++ [int] values (object ids, word ids, nearest-neighbour indices,
      counters) are [Z].  Row and word numbers are bounded by the sizes of
      the matrices and their additions are written without wrap-around;
      the one addition whose operand a client chooses, [obj->id()+1] in
      [addObject], is written with the wrap-around of the 32-bit [int]
      ([int32]).  Sizes and OpenCV type codes, which are never negative,
      are [nat].
    - [float] and [double] values (keypoint responses, descriptor
      distances, ratios, the entries of a homography) are rationals [Q]:
      every finite float is a rational and the comparisons of the code are
      exact on them.  The arithmetic the code performs on them rounds, and
      is a parameter of the model: the single-precision product of the
      NNDR test ([fmul]) and the double-precision distance of the
      multi-detection test, with its conversion to [int]
      ([translationDistance]).
    - A [cv::Mat] is its list of rows with its declared width and element
      type; the rows are only ever read by OpenCV and FLANN, whose answers
      are parameters of the model.
    - [QMap] and [QMultiMap] are key-ordered association lists, because the
      code depends on their iteration order and on the order of equal keys.
    - [Q_ASSERT] is compiled out (two of the assertions of the sources name
      identifiers that do not exist, so that the files only build with
      assertions disabled); the model therefore does not stop at a failed
      assertion, it goes on as the release build does. *)

From Stdlib Require Import Strings.Ascii Strings.String.
From Stdlib Require Import List ZArith QArith Qabs Qround Lia Bool Arith.
From Stdlib Require Import Permutation Sorting.Sorted.
Import ListNotations.

Set Implicit Arguments.
Close Scope Q_scope.

(* ===================================================================== *)
(** * Part I: the program *)
(* ===================================================================== *)

(** ** Comparisons on floats *)

Definition Qltb (x y : Q) : bool := negb (Qle_bool y x).
Definition Qm1 : Q := ((-1) # 1)%Q.

(** ** C++ [int]

    The value of an [int] expression whose mathematical value is [z]: [z]
    itself inside the 32-bit range, and its two's complement
    representative outside of it. *)
Definition int32 (z : Z) : Z := ((z + 2147483648) mod 4294967296 - 2147483648)%Z.

Arguments int32 : simpl never.

(** ** Ordered multimaps *)

Module MultiMap.
Section Ordered.
Variables K V : Type.
Variable ltb : K -> K -> bool.

Definition t := list (K * V).

(** Equivalence of keys, as the containers see it: neither is less. *)
Definition eqk (a b : K) : bool := negb (ltb a b) && negb (ltb b a).

(** [std::multimap::insert]: the new element goes to the upper bound of the
    range of equivalent keys (after the elements inserted before it). *)
Fixpoint std_insert (k : K) (v : V) (m : t) : t :=
  match m with
  | [] => [(k, v)]
  | (k', v') :: m' =>
      if ltb k k' then (k, v) :: m else (k', v') :: std_insert k v m'
  end.

(** [QMultiMap::insert]: the new element goes in front of the elements of
    the same key (values are listed from the most recently inserted). *)
Fixpoint q_insert (k : K) (v : V) (m : t) : t :=
  match m with
  | [] => [(k, v)]
  | (k', v') :: m' =>
      if ltb k' k then (k', v') :: q_insert k v m' else (k, v) :: m
  end.

Definition values (k : K) (m : t) : list V :=
  map snd (filter (fun p => eqk k (fst p)) m).

Definition count (k : K) (m : t) : nat := length (values k m).

(** [QMultiMap::value(k)]: the most recent value of [k], or a
    default-constructed value. *)
Definition value (d : V) (k : K) (m : t) : V := hd d (values k m).

(** [QMultiMap::count(k, v)] *)
Definition count_pair (veq : V -> V -> bool) (k : K) (v : V) (m : t) : nat :=
  length (filter (veq v) (values k m)).

(** [QMultiMap::uniqueKeys()] *)
Fixpoint uniqueKeys (m : t) : list K :=
  match m with
  | [] => []
  | (k, _) :: m' =>
      match m' with
      | (k', _) :: _ => if eqk k k' then uniqueKeys m' else k :: uniqueKeys m'
      | [] => [k]
      end
  end.

End Ordered.
End MultiMap.

(** ** Key-ordered maps with one value per key: [QMap<int, T>] *)

Module QMap.
Section Values.
Variable V : Type.

Definition t := list (Z * V).

(** [QMap::insert]: replaces the value of a key that is present. *)
Fixpoint insert (k : Z) (v : V) (m : t) : t :=
  match m with
  | [] => [(k, v)]
  | (k', v') :: m' =>
      if (k' <? k)%Z then (k', v') :: insert k v m'
      else if (k' =? k)%Z then (k, v) :: m'
      else (k, v) :: m
  end.

Fixpoint remove (k : Z) (m : t) : t :=
  match m with
  | [] => []
  | (k', v') :: m' => if (k' =? k)%Z then remove k m' else (k', v') :: remove k m'
  end.

Fixpoint find (k : Z) (m : t) : option V :=
  match m with
  | [] => None
  | (k', v') :: m' => if (k' =? k)%Z then Some v' else find k m'
  end.

Definition contains (k : Z) (m : t) : bool :=
  match find k m with Some _ => true | None => false end.

Definition keys (m : t) : list Z := map fst m.
Definition values (m : t) : list V := map snd m.

(** [QMap::lowerBound(k)]: the suffix that starts at the first key [>= k]. *)
Fixpoint lowerBound (k : Z) (m : t) : t :=
  match m with
  | [] => []
  | (k', v') :: m' => if (k' <? k)%Z then lowerBound k m' else m
  end.

(** The elements in front of [lowerBound k m]. *)
Fixpoint below (k : Z) (m : t) : t :=
  match m with
  | [] => []
  | (k', v') :: m' => if (k' <? k)%Z then (k', v') :: below k m' else []
  end.

End Values.
End QMap.

(** ** Keypoints and [limitKeypoints] *)

Record KeyPoint := mkKeyPoint { pt : Q * Q; response : Q }.

Definition KeyPoint0 : KeyPoint := mkKeyPoint (0, 0)%Q 0.

(** The multimap [<fabs(response), index>] of [limitKeypoints], filled in
    index order. *)
Definition responseMap (keypoints : list KeyPoint) : MultiMap.t Q nat :=
  fold_left
    (fun m i => MultiMap.std_insert Qltb (Qabs (response (nth i keypoints KeyPoint0))) i m)
    (seq 0 (length keypoints)) [].

(** FindObject.cpp, [limitKeypoints].  The output vector is resized to
    [maxKeypoints] default keypoints and then filled from the reverse
    iteration of the multimap. *)
Definition limitKeypoints (keypoints : list KeyPoint) (maxKeypoints : Z) : list KeyPoint :=
  if ((0 <? maxKeypoints) && (maxKeypoints <? Z.of_nat (length keypoints)))%Z then
    let n := Z.to_nat maxKeypoints in
    let filled :=
      map (fun p => nth (snd p) keypoints KeyPoint0)
          (firstn n (rev (responseMap keypoints))) in
    filled ++ repeat KeyPoint0 (n - length filled)
  else keypoints.

(** ** A small error monad: [None] is an OpenCV exception. *)

Definition bind {A B : Type} (o : option A) (f : A -> option B) : option B :=
  match o with Some a => f a | None => None end.

Notation "x <- a ;; b" := (bind a (fun x => b))
  (at level 61, a at next level, right associativity).

(** A [for] loop over [l] whose body may raise. *)
Fixpoint for_each {A S : Type} (body : S -> A -> option S) (l : list A) (s : S) : option S :=
  match l with
  | [] => Some s
  | a :: l' => s' <- body s a ;; for_each body l' s'
  end.

(** ** Matrices *)

(** A [cv::Mat] (a matrix of descriptors, or an image): its rows, each a
    vector of numbers, its declared number of columns and its element type
    code. *)
Record Mat := mkMat { data : list (list Q); cols : nat; type : nat }.

Definition rows (m : Mat) : nat := length (data m).

(** [cv::Mat()] *)
Definition Mat0 : Mat := mkMat [] 0 0.

(** [cv::Mat::empty()]: no element. *)
Definition empty (m : Mat) : bool := (rows m =? 0)%nat || (cols m =? 0)%nat.

(** [m.row(i)] *)
Definition row_of (m : Mat) (i : nat) : Mat := mkMat [nth i (data m) []] (cols m) (type m).

(** [cv::Mat::push_back(const Mat&)].  Nothing happens when there is no row
    to add; a matrix without data becomes a copy of the argument; otherwise
    width and type must agree, or OpenCV raises an error ([None]). *)
Definition push_back (m e : Mat) : option Mat :=
  if (rows e =? 0)%nat then Some m
  else if empty m then Some e
  else if negb (cols m =? cols e)%nat then None
  else if negb (type m =? type e)%nat then None
  else Some (mkMat (data m ++ data e) (cols m) (type m)).

(** ** Settings *)

(** The parameters the two files read through [Settings::get...].
    [General_nextObjID], which [addObject] also writes, is kept in the state
    of [FindObject] below. *)
Record Settings := mkSettings {
  General_threads : Z;
  General_invertedSearch : bool;
  General_vocabularyIncremental : bool;
  General_vocabularyUpdateMinWords : Z;
  General_multiDetection : bool;
  General_multiDetectionRadius : Z;
  Feature2D_3MaxFeatures : Z;
  NearestNeighbor_3nndrRatioUsed : bool;
  NearestNeighbor_4nndrRatio : Q;
  NearestNeighbor_5minDistanceUsed : bool;
  NearestNeighbor_6minDistance : Q;
  Homography_minimumInliers : Z;
  Homography_minAngle : Z;
  Homography_allCornersVisible : bool
}.

(** ** Vocabulary *)

(** A row of nearest-neighbour output: for each of the [k] neighbours, the
    index found ([results.at<int>(i,j)]) and its distance
    ([dists.at<float>(i,j)], after the conversion of integer distances). *)
Definition KnnRow := list (Z * Q).

Definition index_at (r : KnnRow) (j : nat) : Z := fst (nth j r (0%Z, 0%Q)).
Definition dist_at (r : KnnRow) (j : nat) : Q := snd (nth j r (0%Z, 0%Q)).

Definition Words := MultiMap.t Z Z.
Definition winsert : Z -> Z -> Words -> Words := MultiMap.q_insert Z.ltb.

Record Vocabulary := mkVocabulary {
  indexedDescriptors_ : Mat;
  notIndexedDescriptors_ : Mat;
  wordToObjects_ : Words;          (* <word id, object id> *)
  notIndexedWordIds_ : list Z;
  flannIndex_ : Mat                (* the matrix the index was last built over *)
}.

(** The state a constructed [Vocabulary] starts in. *)
Definition Vocabulary0 : Vocabulary := mkVocabulary Mat0 Mat0 [] [] Mat0.

(** Modelled from the spec: [Vocabulary::size()], declared in Vocabulary.h,
    is the number of words: the rows of the index plus the rows of the
    staging block (word ids are dense in [[0, M + M')]). *)
Definition size (v : Vocabulary) : nat :=
  rows (indexedDescriptors_ v) + rows (notIndexedDescriptors_ v).

(** [Vocabulary::clear]; the FLANN index object is left as it is. *)
Definition clear (v : Vocabulary) : Vocabulary :=
  mkVocabulary Mat0 Mat0 [] [] (flannIndex_ v).

(** [Vocabulary::update] *)
Definition update (v : Vocabulary) : option Vocabulary :=
  v1 <- (if negb (empty (notIndexedDescriptors_ v)) then
           m <- push_back (indexedDescriptors_ v) (notIndexedDescriptors_ v) ;;
           Some (mkVocabulary m Mat0 (wordToObjects_ v) [] (flannIndex_ v))
         else Some v) ;;
  Some (if negb (empty (indexedDescriptors_ v1)) then
          mkVocabulary (indexedDescriptors_ v1) (notIndexedDescriptors_ v1)
            (wordToObjects_ v1) (notIndexedWordIds_ v1) (indexedDescriptors_ v1)
        else v1).

(** ** The external collaborators

    OpenCV and FLANN are outside the two files.  Their answers enter the
    model as functions of the matrices they are given. *)
Record External := mkExternal {
  (** single-precision product *)
  fmul : Q -> Q -> Q;
  (** [flannIndex_.knnSearch(queries, results, dists, k, ...)] on an index
      built over the first argument: one row of [k] neighbours per query *)
  flann_knnSearch : Mat -> Mat -> nat -> list KnnRow;
  (** the linear search of one descriptor in the staging block
      ([cv::batchDistance] or a linear FLANN index): [knn] neighbours *)
  linear_knnSearch : Mat -> Mat -> nat -> KnnRow;
  (** the content of a freshly allocated rows x k result and distance
      matrix that nothing has written yet *)
  uninitialised : nat -> nat -> list KnnRow;
  (** [KeypointDetector::detect] *)
  detect_keypoints : Mat -> list KeyPoint;
  (** [DescriptorExtractor::compute], which may drop keypoints *)
  compute_descriptors : Mat -> list KeyPoint -> list KeyPoint * Mat
}.

(** ** [Vocabulary::addWords] *)

Section AddWords.
Variable E : External.

(** [fullResults]: the candidates of the staging block first, through
    [notIndexedWordIds_], then those of the index; negative indices mean
    no neighbour. *)
Definition addCandidate (wordOf : Z -> Z) (m : MultiMap.t Q Z) (r : Z * Q) : MultiMap.t Q Z :=
  if (0 <=? fst r)%Z then MultiMap.q_insert Qltb (snd r) (wordOf (fst r)) m else m.

Definition fullResults (ids : list Z) (tmp glob : KnnRow) : MultiMap.t Q Z :=
  fold_left (addCandidate (fun j => j)) glob
    (fold_left (addCandidate (fun j => nth (Z.to_nat j) ids 0%Z)) tmp []).

(** The NNDR test on the two nearest candidates. *)
Definition nndr (ratio : Q) (full : MultiMap.t Q Z) : option Z :=
  match full with
  | (d1, w) :: (d2, _) :: _ => if Qle_bool d1 (fmul E ratio d2) then Some w else None
  | _ => None
  end.

(** One iteration of the incremental loop, for row [i] of [descriptors];
    [results] is the output of the global search when there was one. *)
Definition addWord (s : Settings) (descriptors : Mat) (objectId : Z)
    (results : option (list KnnRow)) (st : Vocabulary * Words) (i : nat)
    : option (Vocabulary * Words) :=
  let (v, words) := st in
  let staging := notIndexedDescriptors_ v in
  let tmp :=
    if (rows staging =? 0)%nat then []
    else linear_knnSearch E staging (row_of descriptors i)
           (if (2 <=? rows staging)%nat then 2 else 1) in
  let glob := match results with Some r => firstn 2 (nth i r []) | None => [] end in
  match nndr (NearestNeighbor_4nndrRatio s) (fullResults (notIndexedWordIds_ v) tmp glob) with
  | Some w =>
      Some (mkVocabulary (indexedDescriptors_ v) staging
              (winsert w objectId (wordToObjects_ v)) (notIndexedWordIds_ v) (flannIndex_ v),
            winsert w (Z.of_nat i) words)
  | None =>
      let w := Z.of_nat (rows (indexedDescriptors_ v) + rows staging) in
      staging' <- push_back staging (row_of descriptors i) ;;
      Some (mkVocabulary (indexedDescriptors_ v) staging'
              (winsert w objectId (wordToObjects_ v)) (notIndexedWordIds_ v ++ [w]) (flannIndex_ v),
            winsert w (Z.of_nat i) words)
  end.

(** One iteration of the non-incremental loop. *)
Definition addWord_fresh (objectId : Z) (st : Vocabulary * Words) (i : nat) : Vocabulary * Words :=
  let (v, words) := st in
  let w := Z.of_nat (rows (indexedDescriptors_ v) + rows (notIndexedDescriptors_ v) + i) in
  (mkVocabulary (indexedDescriptors_ v) (notIndexedDescriptors_ v)
     (winsert w objectId (wordToObjects_ v)) (notIndexedWordIds_ v ++ [w]) (flannIndex_ v),
   winsert w (Z.of_nat i) words).

Definition addWords (s : Settings) (v : Vocabulary) (descriptors : Mat) (objectId : Z)
    (incremental : bool) : option (Vocabulary * Words) :=
  if empty descriptors then Some (v, [])
  else if incremental then
    let results :=
      if negb (empty (indexedDescriptors_ v)) && (2 <=? rows (indexedDescriptors_ v))%nat
      then Some (flann_knnSearch E (flannIndex_ v) descriptors 2) else None in
    for_each (addWord s descriptors objectId results) (seq 0 (rows descriptors)) (v, [])
  else
    let (v1, words) := fold_left (addWord_fresh objectId) (seq 0 (rows descriptors)) (v, []) in
    staging' <- push_back (notIndexedDescriptors_ v1) descriptors ;;
    Some (mkVocabulary (indexedDescriptors_ v1) staging'
            (wordToObjects_ v1) (notIndexedWordIds_ v1) (flannIndex_ v1), words).

(** [Vocabulary::search]: the result matrices keep what they held when the
    index is empty. *)
Definition search (v : Vocabulary) (descriptors : Mat) (k : nat) : list KnnRow :=
  if negb (empty (indexedDescriptors_ v))
  then flann_knnSearch E (flannIndex_ v) descriptors k
  else uninitialised E (rows descriptors) k.

End AddWords.

(** ** The object library *)

(** Modelled from the spec: [ObjSignature] (ObjSignature.h is not among the
    sources): id, image, keypoints, descriptors, word assignments and file
    name; [setData] stores keypoints and descriptors, [setWords] the words. *)
Record ObjSignature := mkObjSignature {
  id : Z;
  image : Mat;
  keypoints : list KeyPoint;
  descriptors : Mat;
  words : Words;
  filename : string
}.

Definition setId (o : ObjSignature) (i : Z) : ObjSignature :=
  mkObjSignature i (image o) (keypoints o) (descriptors o) (words o) (filename o).

Definition setData (o : ObjSignature) (k : list KeyPoint) (d : Mat) : ObjSignature :=
  mkObjSignature (id o) (image o) k d (words o) (filename o).

Definition setWords (o : ObjSignature) (w : Words) : ObjSignature :=
  mkObjSignature (id o) (image o) (keypoints o) (descriptors o) w (filename o).

(** The state of a [FindObject], with the [General_nextObjID] setting. *)
Record FindObject := mkFindObject {
  objects_ : QMap.t ObjSignature;
  vocabulary_ : Vocabulary;
  objectsDescriptors_ : QMap.t Mat;
  dataRange_ : QMap.t Z;           (* <last row of the object, object id> *)
  General_nextObjID : Z
}.

Definition clearVocabulary (fo : FindObject) : FindObject :=
  mkFindObject (objects_ fo) (clear (vocabulary_ fo)) [] [] (General_nextObjID fo).

(** [FindObject::addObject], on an object signature.  The counter of ids
    is set to [obj->id()+1], an [int] sum. *)
Definition addObject (fo : FindObject) (obj : ObjSignature) : FindObject * bool :=
  if negb (id obj =? 0)%Z && QMap.contains (id obj) (objects_ fo) then (fo, false)
  else
    let obj := if (id obj =? 0)%Z then setId obj (General_nextObjID fo) else obj in
    (clearVocabulary
       (mkFindObject (QMap.insert (id obj) obj (objects_ fo)) (vocabulary_ fo)
          (objectsDescriptors_ fo) (dataRange_ fo) (int32 (id obj + 1))),
     true).

(** [FindObject::addObject], on an image, an id and a file name *)
Definition addObject_image (fo : FindObject) (img : Mat) (i : Z) (name : string)
    : FindObject * option ObjSignature :=
  let s := mkObjSignature i img [] Mat0 [] name in
  let (fo', ok) := addObject fo s in
  if ok then (fo', QMap.find (if (i =? 0)%Z then General_nextObjID fo else i) (objects_ fo'))
  else (fo', None).

Definition removeObject (fo : FindObject) (i : Z) : FindObject :=
  if QMap.contains i (objects_ fo) then
    clearVocabulary
      (mkFindObject (QMap.remove i (objects_ fo)) (vocabulary_ fo)
         (objectsDescriptors_ fo) (dataRange_ fo) (General_nextObjID fo))
  else fo.

Definition removeAllObjects (fo : FindObject) : FindObject :=
  clearVocabulary
    (mkFindObject [] (vocabulary_ fo) (objectsDescriptors_ fo) (dataRange_ fo)
       (General_nextObjID fo)).

Section Library.
Variable E : External.

(** [ExtractFeaturesThread::run] *)
Definition extractFeatures (s : Settings) (img : Mat) : list KeyPoint * Mat :=
  let kpts := detect_keypoints E img in
  match kpts with
  | [] => ([], Mat0)
  | _ =>
      let maxFeatures := Feature2D_3MaxFeatures s in
      let kpts :=
        if ((0 <? maxFeatures) && (maxFeatures <? Z.of_nat (length kpts)))%Z
        then limitKeypoints kpts maxFeatures else kpts in
      compute_descriptors E img kpts
  end.

(** The join of one worker of [updateObjects]: the features of the image
    of [o] are stored in the object the library holds under the id of [o]
    (there is one: an object is stored under its id). *)
Definition storeFeatures (s : Settings) (objs : QMap.t ObjSignature) (o : ObjSignature)
    : QMap.t ObjSignature :=
  let (k, d) := extractFeatures s (image o) in
  match QMap.find (id o) objs with
  | Some o' => QMap.insert (id o) (setData o' k d) objs
  | None => objs
  end.

(** [FindObject::updateObjects]: the workers are independent and are
    joined in the order of the object ids, so that the loop over the
    batches of [General_threads] workers (0 stands for one batch) is the
    loop over the objects.  This is the function for a thread count that
    is not negative: with a negative count and an object in the library,
    the loop starts no worker and its index runs down without end; the
    properties of [updateObjects] are stated for counts that are not
    negative. *)
Definition updateObjects (s : Settings) (fo : FindObject) : FindObject :=
  mkFindObject
    (fold_left (storeFeatures s) (QMap.values (objects_ fo)) (objects_ fo))
    (vocabulary_ fo) (objectsDescriptors_ fo) (dataRange_ fo) (General_nextObjID fo).

(** *** [FindObject::updateVocabulary] *)

(** The verification loop over [count], [dim] and [type]; [None] when the
    function returns at a mismatch. *)
Definition verifyDescriptors (acc : Z * Z * Z) (o : ObjSignature) : option (Z * Z * Z) :=
  let '(count, dim, ty) := acc in
  let d := descriptors o in
  if negb (empty d) then
    if (0 <=? dim)%Z && negb (Z.of_nat (cols d) =? dim)%Z then None
    else if (0 <=? ty)%Z && negb (Z.of_nat (type d) =? ty)%Z then None
    else Some ((count + Z.of_nat (rows d))%Z, Z.of_nat (cols d), Z.of_nat (type d))
  else Some acc.

(** The copy of one object's descriptors into rows [row .. row + n) of the
    global matrix [g] of [count] rows.  A range outside the matrix raises;
    [copyTo] writes in place only when width and type agree. *)
Definition copyDescriptors (count dim ty : nat)
    (st : list (list Q) * nat * QMap.t Z) (o : ObjSignature)
    : option (list (list Q) * nat * QMap.t Z) :=
  let '(g, row, range) := st in
  let d := descriptors o in
  if negb (rows d =? 0)%nat then
    if (row + rows d <=? count)%nat then
      let g' :=
        if (cols d =? dim)%nat && (type d =? ty)%nat
        then firstn row g ++ data d ++ skipn (row + rows d) g else g in
      Some (g', row + rows d, QMap.insert (Z.of_nat (row + rows d) - 1)%Z (id o) range)
    else None
  else Some st.

(** One object of the vocabulary loop: its words are added and stored in
    the object, and the vocabulary is rebuilt when enough words came in. *)
Definition addObjectWords (s : Settings)
    (st : Vocabulary * Z * QMap.t ObjSignature) (e : Z * ObjSignature)
    : option (Vocabulary * Z * QMap.t ObjSignature) :=
  let '(v, addedWords, objs) := st in
  let incremental := General_vocabularyIncremental s in
  r <- addWords E s v (descriptors (snd e)) (id (snd e)) incremental ;;
  let objs := objs ++ [(fst e, setWords (snd e) (snd r))] in
  let addedWords := (addedWords + Z.of_nat (length (MultiMap.uniqueKeys Z.ltb (snd r))))%Z in
  if incremental && negb (addedWords =? 0)%Z
     && (General_vocabularyUpdateMinWords s <=? addedWords)%Z
  then v' <- update (fst r) ;; Some (v', 0%Z, objs)
  else Some (fst r, addedWords, objs).

Definition updateVocabulary (s : Settings) (fo : FindObject) : option FindObject :=
  let fo := clearVocabulary fo in
  let objectsList := QMap.values (objects_ fo) in
  match for_each verifyDescriptors objectsList (0%Z, (-1)%Z, (-1)%Z) with
  | None => Some fo
  | Some (count, dim, ty) =>
      if (count =? 0)%Z then Some fo
      else if General_invertedSearch s || (General_threads s =? 1)%Z then
        let n := Z.to_nat count in
        r <- for_each (copyDescriptors n (Z.to_nat dim) (Z.to_nat ty)) objectsList
               (repeat [] n, 0%nat, []) ;;
        let '(g, _, range) := r in
        let store := QMap.insert 0%Z (mkMat g (Z.to_nat dim) (Z.to_nat ty)) [] in
        if General_invertedSearch s then
          r <- for_each (addObjectWords s) (objects_ fo) (vocabulary_ fo, 0%Z, []) ;;
          let '(v, addedWords, objs) := r in
          v <- (if negb (addedWords =? 0)%Z then update v else Some v) ;;
          Some (mkFindObject objs v store range (General_nextObjID fo))
        else Some (mkFindObject (objects_ fo) (vocabulary_ fo) store range (General_nextObjID fo))
      else
        Some (mkFindObject (objects_ fo) (vocabulary_ fo)
                (fold_left (fun m o => QMap.insert (id o) (descriptors o) m) objectsList [])
                [] (General_nextObjID fo))
  end.

End Library.

(** ** Detection: the matching stage *)

(** The part of [DetectionInfo] the matching stage fills.  Modelled from
    the spec: the constructor (DetectionInfo.h is not among the sources)
    starts both distances at the sentinel -1. *)
Record DetectionInfo := mkDetectionInfo {
  sceneKeypoints_ : list KeyPoint;
  sceneDescriptors_ : Mat;
  matches_ : QMap.t Words;   (* object id -> <object descriptor, scene descriptor> *)
  minMatchedDistance_ : Q;
  maxMatchedDistance_ : Q
}.

Definition DetectionInfo0 : DetectionInfo := mkDetectionInfo [] Mat0 [] Qm1 Qm1.

(** What a call of [detect] leaves: the returned flag, the info, the state
    and, as a ghost trace, the vocabulary as each invocation of
    [Vocabulary::search] found it. *)
Record Detection := mkDetection {
  success : bool;
  info : DetectionInfo;
  after : FindObject;
  searched : list Vocabulary
}.

(** [info.matches_.find(objectId).value().insert(k, v)]; the object is a
    key of the map in every state the code builds (dereferencing [end()]
    has no defined behaviour, the model leaves the map as it is;
    [matchingDefined] below names the states in which it does not
    happen). *)
Definition insertMatch (objectId k v : Z) (m : QMap.t Words) : QMap.t Words :=
  match QMap.find objectId m with
  | Some w => QMap.insert objectId (winsert k v w) m
  | None => m
  end.

Definition updateMin (cur d0 : Q) : Q := if Qeq_bool cur Qm1 || Qltb d0 cur then d0 else cur.
Definition updateMax (cur d0 : Q) : Q := if Qeq_bool cur Qm1 || Qltb cur d0 then d0 else cur.

Section Matching.
Variable E : External.
Variable s : Settings.

(** The three tests of a query row: NNDR, minimum distance, no criterion. *)
Definition matched (r : KnnRow) : bool :=
  let nndrUsed := NearestNeighbor_3nndrRatioUsed s in
  let minUsed := NearestNeighbor_5minDistanceUsed s in
  let m1 := nndrUsed && Qle_bool (dist_at r 0) (fmul E (NearestNeighbor_4nndrRatio s) (dist_at r 1)) in
  let m2 :=
    if (m1 || negb nndrUsed) && minUsed
    then Qle_bool (dist_at r 0) (NearestNeighbor_6minDistance s) else m1 in
  if negb m2 && negb nndrUsed && negb minUsed then true else m2.

(** Inverted search: the objects of the word, for which it is unique. *)
Definition insertInverted (fo : FindObject) (i : nat) (wordId : Z) (m : QMap.t Words) : QMap.t Words :=
  let w2o := wordToObjects_ (vocabulary_ fo) in
  fold_left
    (fun m objId =>
       if (MultiMap.count_pair Z.ltb Z.eqb wordId objId w2o =? 1)%nat then
         match QMap.find objId (objects_ fo) with
         | Some o => insertMatch objId (MultiMap.value Z.ltb 0%Z wordId (words o)) (Z.of_nat i) m
         | None => m
         end
       else m)
    (MultiMap.values Z.ltb wordId w2o) m.

(** Object-to-scene search on the single matrix: the owner of row [i] is
    found in [dataRange_].  The code dereferences
    [dataRange_.lowerBound(i)] unchecked; where there is no entry at or
    after [i] (which has no defined behaviour) the model reads the id 0.
    [matchingDefined] below names the states in which there is one. *)
Definition insertDirect (fo : FindObject) (sceneWords : Words) (i : nat) (wordId : Z)
    (m : QMap.t Words) : QMap.t Words :=
  let objectId :=
    match QMap.lowerBound (Z.of_nat i) (dataRange_ fo) with (_, o) :: _ => o | [] => 0%Z end in
  let fisrtObjectDescriptorIndex :=
    match rev (QMap.below (Z.of_nat i) (dataRange_ fo)) with
    | [] => 0%Z
    | (k, _) :: _ => (k + 1)%Z
    end in
  let objectDescriptorIndex := (Z.of_nat i - fisrtObjectDescriptorIndex)%Z in
  if (MultiMap.count Z.ltb wordId sceneWords =? 1)%nat
  then insertMatch objectId objectDescriptorIndex (MultiMap.value Z.ltb 0%Z wordId sceneWords) m
  else m.

(** One iteration of the loop over the rows of [dists] in [detect]. *)
Definition processRow (fo : FindObject) (sceneWords : Words)
    (st : QMap.t Words * Q * Q) (ir : nat * KnnRow) : QMap.t Words * Q * Q :=
  let '(m, mn, mx) := st in
  let (i, r) := ir in
  let m :=
    if matched r then
      if General_invertedSearch s then insertInverted fo i (index_at r 0) m
      else insertDirect fo sceneWords i (index_at r 0) m
    else m in
  (m, updateMin mn (dist_at r 0), updateMax mx (dist_at r 0)).

(** One iteration of the loop of [SearchThread::run]. *)
Definition threadRow (sceneWords : Words) (st : Words * Q * Q) (ir : nat * KnnRow)
    : Words * Q * Q :=
  let '(m, mn, mx) := st in
  let (i, r) := ir in
  let wordId := index_at r 0 in
  let m :=
    if matched r && (MultiMap.count Z.ltb wordId sceneWords =? 1)%nat then
      winsert (Z.of_nat i) (index_at r 0)
        (winsert (Z.of_nat i) (MultiMap.value Z.ltb 0%Z wordId sceneWords) m)
    else m in
  (m, updateMin mn (dist_at r 0), updateMax mx (dist_at r 0)).

Definition numbered (results : list KnnRow) : list (nat * KnnRow) :=
  combine (seq 0 (length results)) results.

Definition knn : nat := if NearestNeighbor_3nndrRatioUsed s then 2 else 1.

(** [SearchThread::run]: matches, minimum and maximum distance of one
    object's descriptors against the scene vocabulary. *)
Definition SearchThread_run (v : Vocabulary) (descs : Mat) (sceneWords : Words) : Words * Q * Q :=
  fold_left (threadRow sceneWords) (numbered (search E v descs knn)) ([], Qm1, Qm1).

(** The join of one worker in [detect]: its matches become those of its
    object, and its distances are reduced into those of the info by the
    same two tests as in the loops. *)
Definition joinThread (v : Vocabulary) (sceneWords : Words)
    (st : QMap.t Words * Q * Q) (e : Z * Mat) : QMap.t Words * Q * Q :=
  let '(m, mn, mx) := st in
  let '(tm, tmn, tmx) := SearchThread_run v (snd e) sceneWords in
  (QMap.insert (fst e) tm m, updateMin mn tmn, updateMax mx tmx).

End Matching.

(** ** [FindObject::detect]

    The function up to the end of the matching stage, where [success] is
    final: the homography stage that follows reads [info.matches_] and
    writes the detection and rejection records only (its candidate step is
    [verifyCandidate] below).  The workers of the multi-threaded search
    only read the vocabulary and the scene words and are joined in the
    order of the object ids, so that the loop over batches is the loop over
    the objects (a thread count of 0 stands for one batch).  The model
    is that of the function in the settings and states of
    [matchingDefined], defined after it: elsewhere the code dereferences
    an end iterator or, with a negative thread count, does not leave the
    loop over the batches. *)

Section Detect.
Variable E : External.
Variable s : Settings.

(** The nearest-neighbour data is of the kind the search mode expects. *)
Definition consistentNNData (v : Vocabulary) : bool :=
  let firstObject := match wordToObjects_ v with (_, o) :: _ => o | [] => 0%Z end in
  (negb (size v =? 0)%nat && negb (firstObject =? -1)%Z && General_invertedSearch s)
  || (((size v =? 0)%nat || (firstObject =? -1)%Z) && negb (General_invertedSearch s)).

(** The condition of the COMPARE branch. *)
Definition canCompare (fo : FindObject) (i : DetectionInfo) : bool :=
  match objectsDescriptors_ fo with
  | [] => false
  | (_, first) :: _ =>
      negb (length (sceneKeypoints_ i) =? 0)%nat
      && consistentNNData (vocabulary_ fo)
      && (cols first =? cols (sceneDescriptors_ i))%nat
      && (type first =? type (sceneDescriptors_ i))%nat
  end.

Definition setVocabulary (fo : FindObject) (v : Vocabulary) : FindObject :=
  mkFindObject (objects_ fo) v (objectsDescriptors_ fo) (dataRange_ fo) (General_nextObjID fo).

(** CREATE INDEX for the scene (object-to-scene search). *)
Definition indexScene (fo : FindObject) (sceneDescriptors : Mat) : option (FindObject * Words) :=
  r <- addWords E s (clear (vocabulary_ fo)) sceneDescriptors (-1)%Z
         (General_vocabularyIncremental s) ;;
  v <- (if negb (General_vocabularyIncremental s) then update (fst r) else Some (fst r)) ;;
  Some (setVocabulary fo v, snd r).

Definition detect (fo : FindObject) (img : Mat) : option Detection :=
  if empty img then Some (mkDetection false DetectionInfo0 fo [])
  else
    let emptyScene := match detect_keypoints E img with [] => true | _ => false end in
    let (kpts, descs) := extractFeatures E s img in
    let info0 := mkDetectionInfo kpts descs [] Qm1 Qm1 in
    if canCompare fo info0 then
      r <- (if negb (General_invertedSearch s) then indexScene fo descs else Some (fo, [])) ;;
      let (fo, sceneWords) := r in
      let m0 := fold_left (fun m e => QMap.insert (fst e) [] m) (objects_ fo) [] in
      if General_invertedSearch s || (General_threads s =? 1)%Z then
        let query :=
          if negb (General_invertedSearch s)
          then match objectsDescriptors_ fo with (_, d) :: _ => d | [] => Mat0 end
          else descs in
        let results := search E (vocabulary_ fo) query (knn s) in
        let '(m, mn, mx) :=
          fold_left (processRow E s fo sceneWords) (numbered results) (m0, Qm1, Qm1) in
        Some (mkDetection true (mkDetectionInfo kpts descs m mn mx) fo [vocabulary_ fo])
      else
        let '(m, mn, mx) :=
          fold_left (joinThread E s (vocabulary_ fo) sceneWords) (objectsDescriptors_ fo)
            (m0, Qm1, Qm1) in
        Some (mkDetection true (mkDetectionInfo kpts descs m mn mx) fo
                (map (fun _ => vocabulary_ fo) (objectsDescriptors_ fo)))
    else if negb (length (objectsDescriptors_ fo) =? 0)%nat && negb (length kpts =? 0)%nat
    then Some (mkDetection false info0 fo [])
    else if emptyScene then Some (mkDetection true info0 fo [])
    else Some (mkDetection false info0 fo []).

(** The settings and states in which the matching stage has a defined
    behaviour, and which the model of [detect] covers.  In an inverted
    search, every object a word belongs to is an object of the library
    ([info.matches_.find] and [objects_.value] are dereferenced unchecked).
    In an object-to-scene search with one thread, every row of the first
    matrix of the store has an entry at or after it in [dataRange_], of an
    object of the library ([dataRange_.lowerBound(i)] is dereferenced
    unchecked); that is so for the single matrix [updateVocabulary] builds
    for one thread, not for the per-object matrices it builds for
    workers.  With workers, the thread count is not negative (0 stands
    for one worker per matrix; a negative count starts no worker and the
    loop over the batches does not come to an end). *)
Definition matchingDefined (fo : FindObject) : Prop :=
  if General_invertedSearch s then
    forall w o, In (w, o) (wordToObjects_ (vocabulary_ fo)) ->
                QMap.contains o (objects_ fo) = true
  else if (General_threads s =? 1)%Z then
    match objectsDescriptors_ fo with
    | (_, first) :: _ =>
        forall i, i < rows first ->
          exists k o rest,
            QMap.lowerBound (Z.of_nat i) (dataRange_ fo) = (k, o) :: rest
            /\ QMap.contains o (objects_ fo) = true
    | [] => True
    end
  else (0 <= General_threads s)%Z.

End Detect.

(** ** Detection: the homography stage, one candidate

    What [detect] does with a worker of the homography stage once it is
    joined.  The fit itself ([cv::findHomography]) and the geometry of Qt
    (the image of the object rectangle and the angles of its corners) are
    inputs; the records that only repeat sizes, counts and file names are
    left out. *)

Inductive RejectedCode :=
| kRejectedUndef | kRejectedLowMatches | kRejectedLowInliers | kRejectedAllInliers
| kRejectedNotValid | kRejectedByAngle | kRejectedSuperposed | kRejectedCornersOutside.

Definition isUndef (c : RejectedCode) : bool :=
  match c with kRejectedUndef => true | _ => false end.

(** A [QTransform]; [m31] and [m32] are the translation. *)
Record QTransform := mkQTransform {
  m11 : Q; m12 : Q; m13 : Q;
  m21 : Q; m22 : Q; m23 : Q;
  m31 : Q; m32 : Q; m33 : Q
}.

(** A joined [HomographyThread] with the geometry derived from it. *)
Record Candidate := mkCandidate {
  getObjectId : Z;
  homographyEmpty : bool;           (* getHomography().empty() *)
  hTransform : QTransform;          (* the transform read from the homography *)
  rejectedCode : RejectedCode;
  getInliers : Words;
  getOutliers : Words;
  rectH : list (Q * Q);             (* item.mapToScene(item.rect()) *)
  cornerAngles : list Q             (* ab.angle(cb) at each corner *)
}.

(** The candidate list of the stage and the records of [DetectionInfo] it
    fills. *)
Record Homographies := mkHomographies {
  matchesId : list Z;
  matchesList : list Words;
  objDetected_ : MultiMap.t Z QTransform;
  objDetectedInliers_ : MultiMap.t Z Words;
  objDetectedOutliers_ : MultiMap.t Z Words;
  rejectedInliers_ : MultiMap.t Z Words;
  rejectedOutliers_ : MultiMap.t Z Words;
  rejectedCodes_ : MultiMap.t Z RejectedCode
}.

(** A corner outside of twice the surface of the scene. *)
Definition outsideBounds (imgCols imgRows : Z) (p : Q * Q) : bool :=
  Qltb (fst p) (inject_Z (- imgCols)) || Qltb (inject_Z (imgCols * 2)) (fst p)
  || Qltb (snd p) (inject_Z (- imgRows)) || Qltb (inject_Z (imgRows * 2)) (snd p).

(** [QRectF(0, 0, cols, rows).contains(p)] *)
Definition insideScene (imgCols imgRows : Z) (p : Q * Q) : bool :=
  Qle_bool 0 (fst p) && Qle_bool (fst p) (inject_Z imgCols)
  && Qle_bool 0 (snd p) && Qle_bool (snd p) (inject_Z imgRows).

Section Homography.
Variable s : Settings.
Variables imgCols imgRows : Z.
(** [(int)sqrt(dx*dx + dy*dy)], where [dx] and [dy] are the differences of
    the translations [m31] and [m32] of an earlier detection and of the
    candidate: the differences, the squares, their sum and the square root
    are computed and rounded in double precision, and the root is cut to
    an [int].  The result is a parameter of the model, as the other
    arithmetic on floats is. *)
Variable translationDistance : QTransform -> QTransform -> Z.

(** The loop over the detections of the same object added before: the
    smallest distance found, starting from the radius. *)
Definition nearestDetection (radius : Z) (detected : MultiMap.t Z QTransform) (i : Z)
    (h : QTransform) : Z :=
  fold_left (fun distance t => let d := translationDistance t h in
                               if (d <? distance)%Z then d else distance)
    (MultiMap.values Z.ltb i detected) radius.

(** The multi-detection block, entered with [code == kRejectedUndef]: the
    outliers are pushed on the candidate list, then the distances to the
    detections of the same object decide. *)
Definition multiDetection (c : Candidate) (st : Homographies) : Homographies * RejectedCode :=
  let st' :=
    mkHomographies (matchesId st ++ [getObjectId c]) (matchesList st ++ [getOutliers c])
      (objDetected_ st) (objDetectedInliers_ st) (objDetectedOutliers_ st)
      (rejectedInliers_ st) (rejectedOutliers_ st) (rejectedCodes_ st) in
  let distance :=
    nearestDetection (General_multiDetectionRadius s) (objDetected_ st) (getObjectId c)
      (hTransform c) in
  (st', if (distance <? General_multiDetectionRadius s)%Z
        then kRejectedSuperposed else kRejectedUndef).

(** The checks of a candidate up to the multi-detection block: the code of
    the worker, the number of inliers, the bounds and the angles. *)
Definition checkGeometry (c : Candidate) : RejectedCode :=
  let code := if homographyEmpty c then rejectedCode c else kRejectedUndef in
  let code :=
    if isUndef code && (Z.of_nat (length (getInliers c)) <? Homography_minimumInliers s)%Z
    then kRejectedLowInliers else code in
  if isUndef code then
    let code := if existsb (outsideBounds imgCols imgRows) (rectH c)
                then kRejectedNotValid else kRejectedUndef in
    if isUndef code && (0 <? Homography_minAngle s)%Z then
      if existsb (fun angle => Qltb angle (inject_Z (Homography_minAngle s))
                               || Qltb (180 - inject_Z (Homography_minAngle s))%Q angle)
           (cornerAngles c)
      then kRejectedByAngle else kRejectedUndef
    else code
  else code.

(** The rejection code of a joined candidate, with the candidate list as
    the multi-detection block leaves it; the check of the corners comes
    last. *)
Definition classify (c : Candidate) (st : Homographies) : Homographies * RejectedCode :=
  let code := checkGeometry c in
  let (st, code) :=
    if isUndef code && General_multiDetection s
    then multiDetection c st else (st, code) in
  (st,
   if isUndef code && Homography_allCornersVisible s
      && negb (forallb (insideScene imgCols imgRows) (rectH c))
   then kRejectedCornersOutside else code).

(** The body of the join loop for one candidate: it is classified, then
    recorded as a detection or as a rejection. *)
Definition verifyCandidate (c : Candidate) (st : Homographies) : Homographies :=
  let (st, code) := classify c st in
  let i := getObjectId c in
  if isUndef code then
    mkHomographies (matchesId st) (matchesList st)
      (MultiMap.q_insert Z.ltb i (hTransform c) (objDetected_ st))
      (MultiMap.q_insert Z.ltb i (getInliers c) (objDetectedInliers_ st))
      (MultiMap.q_insert Z.ltb i (getOutliers c) (objDetectedOutliers_ st))
      (rejectedInliers_ st) (rejectedOutliers_ st) (rejectedCodes_ st)
  else
    mkHomographies (matchesId st) (matchesList st)
      (objDetected_ st) (objDetectedInliers_ st) (objDetectedOutliers_ st)
      (MultiMap.q_insert Z.ltb i (getInliers c) (rejectedInliers_ st))
      (MultiMap.q_insert Z.ltb i (getOutliers c) (rejectedOutliers_ st))
      (MultiMap.q_insert Z.ltb i code (rejectedCodes_ st)).

End Homography.

(** ** Concrete inputs

    An instance of the external collaborators that can be run, and the
    inputs at which the properties below are evaluated. *)

Module Example.

(** The L1 distance of two descriptor rows. *)
Definition l1 (a b : list Q) : Q :=
  fold_left Qplus (map (fun p => Qabs (fst p - snd p)) (combine a b)) 0%Q.

(** An exact search: the [k] rows of [index] nearest to [q], nearest first. *)
Definition nearest (k : nat) (index : list (list Q)) (q : list Q) : KnnRow :=
  firstn k
    (map (fun p : Q * nat => (Z.of_nat (snd p), fst p))
       (fold_left (fun m jr => MultiMap.std_insert Qltb (l1 q (snd jr)) (fst jr) m)
          (combine (seq 0 (length index)) index) [])).

(** A detector that finds one keypoint per image row (its response is the
    first pixel of the row) and an extractor whose descriptor of a keypoint
    repeats its response over the width of the image, in 32-bit floats
    (type code 5). *)
Definition E : External :=
  mkExternal Qmult
    (fun index queries k => map (nearest k (data index)) (data queries))
    (fun staging query knn => nearest knn (data staging) (nth 0 (data query) []))
    (fun n k => repeat (repeat (0%Z, 0%Q) k) n)
    (fun img => map (fun r => mkKeyPoint (0, 0)%Q (hd 0%Q r)) (data img))
    (fun img kps =>
       (kps, mkMat (map (fun kp => repeat (response kp) (cols img)) kps) (cols img) 5)).

(** Two keypoints of the same response at different places. *)
Definition kpA : KeyPoint := mkKeyPoint (0, 0)%Q 1.
Definition kpB : KeyPoint := mkKeyPoint (1, 1)%Q 1.

(** A [FindObject] as constructed: no object, and the [General_nextObjID]
    setting at its default 1. *)
Definition FindObject0 : FindObject := mkFindObject [] Vocabulary0 [] [] 1.

(** Settings: one thread, object-to-scene search, a vocabulary that is
    not incremental, the NNDR test with ratio 0.8. *)
Definition settings : Settings :=
  mkSettings 1 false false 2000 false 30 0 true (8 # 10) false (16 # 10) 10 0 false.

(** The same with scene-to-object (inverted) search. *)
Definition inverted : Settings :=
  mkSettings 1 true false 2000 false 30 0 true (8 # 10) false (16 # 10) 10 0 false.

(** The same with two worker threads. *)
Definition threaded : Settings :=
  mkSettings 2 false false 2000 false 30 0 true (8 # 10) false (16 # 10) 10 0 false.

(** The same with an incremental vocabulary. *)
Definition incremental : Settings :=
  mkSettings 1 false true 2000 false 30 0 true (8 # 10) false (16 # 10) 10 0 false.

(** The same with multi-detection, radius 30 pixels. *)
Definition multi : Settings :=
  mkSettings 1 false false 2000 true 30 0 true (8 # 10) false (16 # 10) 1 0 false.

(** An image of two rows, and an object as [addObject] builds it from an
    image, an id and a file name. *)
Definition img : Mat := mkMat [[1]; [2]]%Q 1 0.

Definition object (i : Z) (name : string) : ObjSignature :=
  mkObjSignature i img [] Mat0 [] name.

(** Two objects that come with descriptors of one column each (as objects
    loaded with their data do); the image of the second is two pixels
    wide. *)
Definition object1 : ObjSignature :=
  mkObjSignature 1 img [] (mkMat [[1]; [2]]%Q 1 5) [] "1.png".
Definition object2 : ObjSignature :=
  mkObjSignature 2 (mkMat [[3; 4]]%Q 2 0) [] (mkMat [[3]]%Q 1 5) [] "2.png".

Definition library : FindObject :=
  fst (addObject (fst (addObject FindObject0 object1)) object2).

(** The library with its vocabulary data built for one thread: a single
    matrix of three rows and its range map. *)
Definition built : FindObject :=
  match updateVocabulary E settings library with Some fo => fo | None => library end.

(** Then the features are extracted again: the extractor gives the second
    object descriptors of two columns, and the data built before is still
    in place. *)
Definition stale : FindObject := updateObjects E settings built.

(** The library built for two worker threads: one matrix per object. *)
Definition builtThreaded : FindObject :=
  match updateVocabulary E threaded library with Some fo => fo | None => library end.

(** A vocabulary over the two descriptors of a scene, index built. *)
Definition sceneVocabulary : Vocabulary :=
  mkVocabulary (mkMat [[1]; [2]]%Q 1 5) Mat0 [(0, -1); (1, -1)]%Z []
    (mkMat [[1]; [2]]%Q 1 5).

(** A translation by (100, 50), and a candidate of object 1 fitted with
    it: two inliers, one outlier, a unit square moved inside a scene of
    640 x 480. *)
Definition translation (x y : Q) : QTransform := mkQTransform 1 0 0 0 1 0 x y 1.


(** The records of the stage when object 1 was already accepted at the
    same place. *)
Definition detectedBefore : Homographies :=
  mkHomographies [1%Z] [[(0, 0); (1, 1); (2, 5)]%Z]
    [(1%Z, translation 100 50)] [(1%Z, [(0, 0); (1, 1)]%Z)] [(1%Z, [(2, 5)]%Z)]
    [] [] [].

(** A distance for the examples: the integer part of the exact distance
    between the two translations, without any rounding (the examples stay
    away from the places where rounding decides). *)
Definition exactDistance (t h : QTransform) : Z :=
  let dx := (m31 t - m31 h)%Q in
  let dy := (m32 t - m32 h)%Q in
  Z.sqrt (Qfloor (dx * dx + dy * dy)%Q).

End Example.

(** ** Sequences of calls

    The calls a client makes between two builds of the vocabulary; the
    settings, and the detector and extractor with them, may change from one
    call to the next. *)

Inductive Call :=
| CallAddObject (o : ObjSignature)
| CallRemoveObject (i : Z)
| CallRemoveAllObjects
| CallUpdateObjects (E : External) (s : Settings)
| CallDetect (E : External) (s : Settings) (img : Mat).

Definition call (fo : FindObject) (c : Call) : option FindObject :=
  match c with
  | CallAddObject o => Some (fst (addObject fo o))
  | CallRemoveObject i => Some (removeObject fo i)
  | CallRemoveAllObjects => Some (removeAllObjects fo)
  | CallUpdateObjects E s => Some (updateObjects E s fo)
  | CallDetect E s img => d <- detect E s fo img ;; Some (after d)
  end.

(** A call that changes the library, told from the call and the state it
    is made in: [addObject] of an object that has no id yet (id 0) or
    whose id is not taken, [removeObject] of an id that is present,
    [removeAllObjects]. *)
Definition mutation (fo : FindObject) (c : Call) : bool :=
  match c with
  | CallAddObject o => (id o =? 0)%Z || negb (QMap.contains (id o) (objects_ fo))
  | CallRemoveObject i => QMap.contains i (objects_ fo)
  | CallRemoveAllObjects => true
  | _ => false
  end.

(** ** Objects from image files

    [FindObject::addObject] on a file path and [FindObject::loadObjects].
    Reading an image, taking a path apart, parsing a number and listing a
    directory are the work of OpenCV, Qt and [UDirectory]; their answers
    are parameters. *)

Record Files := mkFiles {
  (** [cv::imread(path, cv::IMREAD_GRAYSCALE)]: a matrix without data when
      the file cannot be read *)
  imread : string -> Mat;
  (** [QFileInfo(path).fileName()] *)
  fileName : string -> string;
  (** [QString::toInt(&ok)]: the number, when [ok] *)
  toInt : string -> option Z;
  (** [UDirectory(path, formats)]: when the directory is valid, its file
      names of these formats in natural order *)
  getFileNames : string -> string -> option (list string);
  (** [UDirectory::separator()] *)
  separator : string
}.

(** [name.split('.').front()]: the text in front of the first dot; the
    list [QString::split] returns always has a first element. *)
Fixpoint front (name : string) : string :=
  match name with
  | EmptyString => EmptyString
  | String c rest => if Ascii.eqb c "."%char then EmptyString else String c (front rest)
  end.

(** [QString::remove(c)]: every occurrence of the character is dropped. *)
Fixpoint QString_remove (c : Ascii.ascii) (text : string) : string :=
  match text with
  | EmptyString => EmptyString
  | String c' rest =>
      if Ascii.eqb c' c then QString_remove c rest else String c' (QString_remove c rest)
  end.

Section Loading.
Variable F : Files.

(** The id a file name asks for: the number in front of the first dot
    when it is positive and not taken, otherwise 0 (a new id will be
    generated). *)
Definition requestedId (fo : FindObject) (name : string) : Z :=
  match toInt F (front name) with
  | Some i =>
      if (0 <? i)%Z then (if QMap.contains i (objects_ fo) then 0%Z else i) else 0%Z
  | None => 0%Z
  end.

(** [FindObject::addObject], on a file path; [None] is the null string. *)
Definition addObject_file (fo : FindObject) (filePath : option string)
    : FindObject * option ObjSignature :=
  match filePath with
  | Some path =>
      let img := imread F path in
      if negb (empty img) then
        addObject_image fo img (requestedId fo (fileName F path)) (fileName F path)
      else (fo, None)
  | None => (fo, None)
  end.

(** [FindObject::loadObjects]; [imageFormats] is the setting
    [General_imageFormats]. *)
Definition loadObjects (E : External) (s : Settings) (imageFormats : string)
    (fo : FindObject) (dirPath : string) : option (FindObject * Z) :=
  let formats := QString_remove "."%char (QString_remove "*"%char imageFormats) in
  match getFileNames F dirPath formats with
  | Some names =>
      let fo :=
        fold_left
          (fun fo name => fst (addObject_file fo (Some (dirPath ++ separator F ++ name)%string)))
          names fo in
      fo <- (if negb (length names =? 0)%nat
             then updateVocabulary E s (updateObjects E s fo) else Some fo) ;;
      Some (fo, Z.of_nat (length names))
  | None => Some (fo, 0%Z)
  end.

End Loading.

(** ** The homography worker: [HomographyThread::run] *)

(** Further parameters read through [Settings::get...], by the homography
    workers only. *)
Record HomographySettings := mkHomographySettings {
  Homography_ignoreWhenAllInliers : bool
}.

(** What a worker holds when it is joined. *)
Record HomographyThread := mkHomographyThread {
  indexesA_ : list Z;
  indexesB_ : list Z;
  outlierMask_ : list bool;
  inliers_ : Words;
  outliers_ : Words;
  h_ : Mat;
  code_ : RejectedCode
}.

(** [std::vector::at]: an index outside of the vector raises. *)
Definition vector_at {A : Type} (v : list A) (i : Z) : option A :=
  if (i <? 0)%Z then None else nth_error v (Z.to_nat i).

(** [cv::countNonZero] *)
Definition countNonZero (m : Mat) : nat :=
  length (filter (fun x => negb (Qeq_bool x 0)) (concat (data m))).

Section HomographyWorker.
(** [cv::findHomography] with the method and the reprojection threshold
    of the settings: the homography (a matrix without data when none is
    found) and the mask of the inliers. *)
Variable findHomography : list (Q * Q) -> list (Q * Q) -> Mat * list bool.
Variable s : Settings.
Variable hs : HomographySettings.

(** The first loop, over the matches in the order of the multimap: the
    point of the object keypoint and the point of the scene keypoint. *)
Definition matchedPoints (kptsA kptsB : list KeyPoint)
    (st : list (Q * Q) * list (Q * Q)) (m : Z * Z) : option (list (Q * Q) * list (Q * Q)) :=
  a <- vector_at kptsA (fst m) ;;
  b <- vector_at kptsB (snd m) ;;
  Some (fst st ++ [pt a], snd st ++ [pt b]).

(** The second loop: match [k] goes to the inliers or to the outliers by
    entry [k] of the mask. *)
Definition splitMatch (indexesA indexesB : list Z) (mask : list bool)
    (st : Words * Words) (k : nat) : option (Words * Words) :=
  inlier <- nth_error mask k ;;
  Some (if inlier : bool
        then (winsert (nth k indexesA 0%Z) (nth k indexesB 0%Z) (fst st), snd st)
        else (fst st, winsert (nth k indexesA 0%Z) (nth k indexesB 0%Z) (snd st))).

Definition HomographyThread_run (matches : Words) (kptsA kptsB : list KeyPoint)
    : option HomographyThread :=
  pts <- for_each (matchedPoints kptsA kptsB) matches ([], []) ;;
  let (mpts_1, mpts_2) := pts in
  let indexesA := map fst matches in
  let indexesB := map snd matches in
  if (Homography_minimumInliers s <=? Z.of_nat (length mpts_1))%Z then
    let (h, mask) := findHomography mpts_1 mpts_2 in
    r <- for_each (splitMatch indexesA indexesB mask) (seq 0 (length mpts_1)) ([], []) ;;
    let (inliers, outliers) := r in
    if (length inliers =? length mask)%nat && negb (empty h) then
      if Homography_ignoreWhenAllInliers hs || (countNonZero h <? 1)%nat
      then Some (mkHomographyThread indexesA indexesB mask inliers outliers
                   Mat0 kRejectedAllInliers)
      else Some (mkHomographyThread indexesA indexesB mask inliers outliers h kRejectedUndef)
    else Some (mkHomographyThread indexesA indexesB mask inliers outliers h kRejectedUndef)
  else Some (mkHomographyThread indexesA indexesB [] [] [] Mat0 kRejectedLowMatches).

End HomographyWorker.

(** [H.at<double>(i,j)]; the model reads 0 outside of the matrix, where
    the access has no defined behaviour. *)
Definition at_double (h : Mat) (i j : nat) : Q := nth j (nth i (data h) []) 0%Q.

(** The transform [detect] reads from the homography of a worker. *)
Definition transformOf (h : Mat) : QTransform :=
  mkQTransform (at_double h 0 0) (at_double h 1 0) (at_double h 2 0)
               (at_double h 0 1) (at_double h 1 1) (at_double h 2 1)
               (at_double h 0 2) (at_double h 1 2) (at_double h 2 2).

(** A worker as [detect] sees it once joined, with the image of the object
    rectangle and the angles at its corners that Qt derives from the
    transform. *)
Definition candidateOf (objectId : Z) (t : HomographyThread)
    (rectH : list (Q * Q)) (cornerAngles : list Q) : Candidate :=
  mkCandidate objectId (empty (h_ t)) (transformOf (h_ t)) (code_ t)
    (inliers_ t) (outliers_ t) rectH cornerAngles.

(** ** Detection: the homography stage, the loop over the candidates

    The block of [detect] under [Homography_homographyComputed].  The
    candidates are the entries of [info.matches_]; they are handed to
    workers by batches of [threadCounts], the workers of a batch are
    started on the candidate list as it is, then joined in their order,
    and a joined worker can put its outliers at the end of the list.  The
    geometry of Qt is a parameter: the image of the rectangle of an object
    under a transform, and the angle of two lines.  One pass of the loop
    takes one unit of fuel: [None] is a loop cut for lack of fuel,
    [Some None] an exception raised in a worker. *)

(** A started worker: the id it was given, the object whose keypoints it
    holds (the objects do not change during the stage) and what it
    computed. *)
Definition Worker : Type := Z * ObjSignature * HomographyThread.

Section Stage.
Variable findHomography : list (Q * Q) -> list (Q * Q) -> Mat * list bool.
(** [item.mapToScene(item.rect())], for the rectangle of an object. *)
Variable mapToScene : QTransform -> ObjSignature -> list (Q * Q).
(** [ab.angle(cb)] *)
Variable QLineF_angle : (Q * Q) * (Q * Q) -> (Q * Q) * (Q * Q) -> Q.
(** [(int)sqrt(dx*dx + dy*dy)] in double precision, as for
    [verifyCandidate]. *)
Variable translationDistance : QTransform -> QTransform -> Z.
Variable s : Settings.
Variable hs : HomographySettings.
Variables imgCols imgRows : Z.

(** The angle at each corner [a] of the polygon, between the lines
    [a, (a+1)%4] and [(a+1)%4, (a+2)%4]; a corner that the polygon does not
    have reads as the origin. *)
Definition cornerAnglesOf (rectH : list (Q * Q)) : list Q :=
  map (fun a =>
         let corner := fun i => nth i rectH (0, 0)%Q in
         QLineF_angle (corner a, corner ((a + 1) mod 4))
                      (corner ((a + 1) mod 4), corner ((a + 2) mod 4)))
    (seq 0 (length rectH)).

(** [new HomographyThread(&matchesList[k], objectId,
    &objects_.value(objectId)->keypoints(), &info.sceneKeypoints_)], started:
    an id that is not a key of [objects_] gives a null pointer, a match
    outside of the keypoints raises in the worker. *)
Definition startHomography (fo : FindObject) (info : DetectionInfo) (st : Homographies) (k : nat)
    : option Worker :=
  objectId <- nth_error (matchesId st) k ;;
  matches <- nth_error (matchesList st) k ;;
  o <- QMap.find objectId (objects_ fo) ;;
  t <- HomographyThread_run findHomography s hs matches (keypoints o) (sceneKeypoints_ info) ;;
  Some (objectId, o, t).

(** The body of the join loop for one worker. *)
Definition joinHomography (st : Homographies) (w : Worker) : Homographies :=
  let '(objectId, o, t) := w in
  let rectH := mapToScene (transformOf (h_ t)) o in
  verifyCandidate s imgCols imgRows translationDistance (candidateOf objectId t rectH (cornerAnglesOf rectH)) st.

(** One pass of the loop from candidate [i]: the workers of the
    candidates [i <= k < i + threadCounts], [k < matchesList.size()], are
    started, then joined in their order. *)
Definition batch (fo : FindObject) (info : DetectionInfo) (threadCounts i : Z)
    (st : Homographies) : option Homographies :=
  let n := Z.min threadCounts (Z.of_nat (length (matchesList st)) - i) in
  threads <- for_each (fun threads k => w <- startHomography fo info st k ;; Some (threads ++ [w]))
               (seq (Z.to_nat i) (Z.to_nat n)) [] ;;
  Some (fold_left joinHomography threads st).

(** [for(int i=0; i<matchesList.size(); i+=threadCounts)], from [i]. *)
Fixpoint homographyLoop (fuel : nat) (fo : FindObject) (info : DetectionInfo)
    (threadCounts i : Z) (st : Homographies) : option (option Homographies) :=
  match fuel with
  | O => None
  | S fuel =>
      if (i <? Z.of_nat (length (matchesList st)))%Z then
        match batch fo info threadCounts i st with
        | Some st' => homographyLoop fuel fo info threadCounts (i + threadCounts)%Z st'
        | None => Some None
        end
      else Some (Some st)
  end.

(** The stage: the candidates are the keys and the values of
    [info.matches_], the records start empty. *)
Definition detect_homographies (fuel : nat) (fo : FindObject) (info : DetectionInfo)
    : option (option Homographies) :=
  let threadCounts :=
    if (General_threads s =? 0)%Z then Z.of_nat (length (matches_ info))
    else General_threads s in
  homographyLoop fuel fo info threadCounts 0
    (mkHomographies (QMap.keys (matches_ info)) (QMap.values (matches_ info))
       [] [] [] [] [] []).

End Stage.

(** Inputs for the stage: a fit that always finds the translation by
    (100, 50) and keeps the matches of the first object keypoint, a unit
    square for every object, right angles; a library of one object with
    two keypoints, and a scene of two keypoints with three matches. *)
Module ExampleStage.

Definition findHomography (a b : list (Q * Q)) : Mat * list bool :=
  (mkMat [[1; 0; 100]; [0; 1; 50]; [0; 0; 1]]%Q 3 6, map (fun p => Qeq_bool (fst p) 0) a).

Definition mapToScene (h : QTransform) (o : ObjSignature) : list (Q * Q) :=
  map (fun p => (fst p + m31 h, snd p + m32 h)%Q) [(0, 0); (1, 0); (1, 1); (0, 1)]%Q.

Definition QLineF_angle (ab cb : (Q * Q) * (Q * Q)) : Q := 90.

Definition library : FindObject :=
  mkFindObject
    [(1%Z, mkObjSignature 1 Example.img [Example.kpA; Example.kpB] Mat0 [] "1.png")]
    Vocabulary0 [] [] 2.

Definition scene : DetectionInfo :=
  mkDetectionInfo [Example.kpA; Example.kpB] Mat0 [(1, [(0, 0); (1, 1); (1, 0)])]%Z Qm1 Qm1.

End ExampleStage.

(** A directory for the examples: of its two files, "7.png" can be read
    and "x.png" cannot. *)
Module ExampleFiles.

Definition files : Files :=
  mkFiles
    (fun path => if String.eqb path "dir/7.png" then Example.img else Mat0)
    (fun path => if String.eqb path "dir/7.png" then "7.png"%string else "x.png"%string)
    (fun text => if String.eqb text "7" then Some 7%Z else None)
    (fun dir formats => if String.eqb dir "dir" then Some ["7.png"; "x.png"]%string else None)
    "/".

(** The collaborators of the examples, with an extractor whose descriptor
    of a keypoint is its response, one column wide. *)
Definition external : External :=
  mkExternal (fmul Example.E) (flann_knnSearch Example.E) (linear_knnSearch Example.E)
    (uninitialised Example.E) (detect_keypoints Example.E)
    (fun img kps => (kps, mkMat (map (fun kp => [response kp]) kps) 1 5)).

End ExampleFiles.

(* ===================================================================== *)
(** * Part II: properties *)
(* ===================================================================== *)

Unset Implicit Arguments.

(** Splits the conjunctions of the goal, and nothing else. *)
Ltac conjs := repeat match goal with |- _ /\ _ => split end.

(** ** Comparison of floats *)

Lemma Qltb_lt (x y : Q) : Qltb x y = true <-> (x < y)%Q.
Proof.
  unfold Qltb. rewrite negb_true_iff. split; intro H.
  - apply Qnot_le_lt. intro Hle. apply Qle_bool_iff in Hle. congruence.
  - destruct (Qle_bool y x) eqn:Hb; [ | reflexivity ].
    apply Qle_bool_iff in Hb. exfalso. exact (Qlt_not_le _ _ H Hb).
Qed.

Lemma Qltb_ge (x y : Q) : Qltb x y = false <-> (y <= x)%Q.
Proof.
  unfold Qltb. rewrite negb_false_iff. apply Qle_bool_iff.
Qed.

(** ** Lists *)

Lemma StronglySorted_snoc (A : Type) (R : A -> A -> Prop) (l : list A) (a : A) :
  StronglySorted R l -> Forall (fun x => R x a) l -> StronglySorted R (l ++ [a]).
Proof.
  induction 1 as [ | x l Hl IH Hx ]; intros Ha; simpl.
  - constructor; constructor.
  - inversion Ha; subst. constructor.
    + apply IH; assumption.
    + apply Forall_app. split; [ assumption | constructor; [ assumption | constructor ] ].
Qed.

Lemma StronglySorted_rev (A : Type) (R : A -> A -> Prop) (l : list A) :
  StronglySorted R l -> StronglySorted (fun x y => R y x) (rev l).
Proof.
  induction 1 as [ | x l Hl IH Hx ]; simpl.
  - constructor.
  - apply StronglySorted_snoc; [ exact IH | ].
    apply Forall_rev. exact Hx.
Qed.

Lemma StronglySorted_app_lt (A : Type) (R : A -> A -> Prop) (l1 l2 : list A) :
  StronglySorted R (l1 ++ l2) -> forall a b, In a l1 -> In b l2 -> R a b.
Proof.
  induction l1 as [ | x l1 IH ]; simpl; intros Hs a b Ha Hb.
  - contradiction.
  - inversion Hs as [ | ? ? Hs' Hx ]; subst. destruct Ha as [ <- | Ha ].
    + rewrite Forall_forall in Hx. apply Hx. apply in_or_app. right. exact Hb.
    + apply IH; assumption.
Qed.

Lemma StronglySorted_app_r (A : Type) (R : A -> A -> Prop) (l1 l2 : list A) :
  StronglySorted R (l1 ++ l2) -> StronglySorted R l2.
Proof.
  induction l1 as [ | x l1 IH ]; simpl; intros Hs.
  - exact Hs.
  - inversion Hs; subst. apply IH. assumption.
Qed.

(** ** [limitKeypoints] *)

Module LimitKeypoints.

(** The key of keypoint [i]: the absolute value of its response. *)
Definition key (kps : list KeyPoint) (i : nat) : Q := Qabs (response (nth i kps KeyPoint0)).

(** The order of the response map: by key, and by index among equal keys. *)
Definition lexlt (p q : Q * nat) : Prop :=
  (fst p < fst q)%Q \/ ((fst p == fst q)%Q /\ snd p < snd q).

Lemma std_insert_In (k : Q) (v : nat) (m : MultiMap.t Q nat) (p : Q * nat) :
  In p (MultiMap.std_insert Qltb k v m) <-> p = (k, v) \/ In p m.
Proof.
  induction m as [ | [k' v'] m IH ]; simpl.
  - intuition congruence.
  - destruct (Qltb k k'); simpl; rewrite ?IH; intuition congruence.
Qed.

Lemma std_insert_perm (k : Q) (v : nat) (m : MultiMap.t Q nat) :
  Permutation (MultiMap.std_insert Qltb k v m) ((k, v) :: m).
Proof.
  induction m as [ | [k' v'] m IH ]; simpl.
  - apply Permutation_refl.
  - destruct (Qltb k k').
    + apply Permutation_refl.
    + eapply perm_trans; [ apply perm_skip; exact IH | apply perm_swap ].
Qed.

Lemma std_insert_sorted (k : Q) (i : nat) (m : MultiMap.t Q nat) :
  StronglySorted lexlt m -> (forall p, In p m -> snd p < i) ->
  StronglySorted lexlt (MultiMap.std_insert Qltb k i m).
Proof.
  induction 1 as [ | [k' v'] m Hm IH Hx ]; intros Hi; simpl.
  - constructor; constructor.
  - rewrite Forall_forall in Hx. destruct (Qltb k k') eqn:Hlt.
    + apply Qltb_lt in Hlt. constructor.
      * constructor; [ exact Hm | rewrite Forall_forall; exact Hx ].
      * rewrite Forall_forall. intros p [ <- | Hp ].
        -- left. exact Hlt.
        -- left. simpl. destruct (Hx p Hp) as [ H | [H _] ]; simpl in H.
           ++ eapply Qlt_trans; eassumption.
           ++ rewrite <- H. exact Hlt.
    + apply Qltb_ge in Hlt. constructor.
      * apply IH. intros p Hp. apply Hi. right. exact Hp.
      * rewrite Forall_forall. intros p Hp. apply std_insert_In in Hp.
        destruct Hp as [ -> | Hp ]; [ | apply Hx; exact Hp ].
        destruct (Qle_lt_or_eq _ _ Hlt) as [ H | H ].
        -- left. exact H.
        -- right. split; [ exact H | ]. apply (Hi (k', v')). left. reflexivity.
Qed.

(** The entries of the response map: one per index. *)
Definition entries (kps : list KeyPoint) (a n : nat) : list (Q * nat) :=
  map (fun i => (key kps i, i)) (seq a n).

Lemma responseMap_from (kps : list KeyPoint) (n a : nat) (m : MultiMap.t Q nat) :
  StronglySorted lexlt m -> (forall p, In p m -> snd p < a) ->
  let m' := fold_left
              (fun m i => MultiMap.std_insert Qltb (Qabs (response (nth i kps KeyPoint0))) i m)
              (seq a n) m in
  StronglySorted lexlt m' /\ Permutation m' (entries kps a n ++ m).
Proof.
  revert a m. induction n as [ | n IH ]; intros a m Hs Hlt; simpl.
  - split; [ exact Hs | apply Permutation_refl ].
  - destruct (IH (S a) (MultiMap.std_insert Qltb (key kps a) a m)) as [H1 H2].
    + apply std_insert_sorted; assumption.
    + intros p Hp. apply std_insert_In in Hp. destruct Hp as [ -> | Hp ].
      * simpl. lia.
      * specialize (Hlt p Hp). lia.
    + split; [ exact H1 | ].
      eapply perm_trans; [ exact H2 | ].
      unfold entries. fold (entries kps (S a) n).
      eapply perm_trans; [ apply Permutation_app_head; apply std_insert_perm | ].
      apply Permutation_sym. apply (Permutation_middle (entries kps (S a) n) m (key kps a, a)).
Qed.

Lemma responseMap_sorted (kps : list KeyPoint) : StronglySorted lexlt (responseMap kps).
Proof.
  apply (responseMap_from kps (length kps) 0 []); [ constructor | intros p [] ].
Qed.

Lemma responseMap_perm (kps : list KeyPoint) :
  Permutation (responseMap kps) (entries kps 0 (length kps)).
Proof.
  pose proof (responseMap_from kps (length kps) 0 [] (SSorted_nil _)) as H.
  destruct H as [_ H]; [ intros p [] | ].
  rewrite app_nil_r in H. exact H.
Qed.

Lemma responseMap_In (kps : list KeyPoint) (p : Q * nat) :
  In p (responseMap kps) <-> snd p < length kps /\ fst p = key kps (snd p).
Proof.
  split.
  - intros H. apply (Permutation_in _ (responseMap_perm kps)) in H.
    unfold entries in H. apply in_map_iff in H. destruct H as [i [<- Hi]].
    apply in_seq in Hi. simpl. split; [ lia | reflexivity ].
  - intros [H1 H2]. apply (Permutation_in _ (Permutation_sym (responseMap_perm kps))).
    unfold entries. apply in_map_iff. exists (snd p). split.
    + rewrite <- H2. destruct p; reflexivity.
    + apply in_seq. lia.
Qed.

Lemma responseMap_length (kps : list KeyPoint) : length (responseMap kps) = length kps.
Proof.
  rewrite (Permutation_length (responseMap_perm kps)). unfold entries.
  rewrite length_map. apply length_seq.
Qed.

Lemma responseMap_NoDup (kps : list KeyPoint) : NoDup (map snd (responseMap kps)).
Proof.
  apply (Permutation_NoDup (l := map snd (entries kps 0 (length kps)))).
  - apply Permutation_map. apply Permutation_sym. apply responseMap_perm.
  - unfold entries. rewrite map_map. simpl. rewrite map_id. apply seq_NoDup.
Qed.

(** The indices [limitKeypoints] keeps, in the order of the output. *)
Definition kept (kps : list KeyPoint) (n : nat) : list nat :=
  map snd (firstn n (rev (responseMap kps))).

Lemma limitKeypoints_kept (kps : list KeyPoint) (maxK : Z) :
  (0 < maxK < Z.of_nat (length kps))%Z ->
  limitKeypoints kps maxK = map (fun i => nth i kps KeyPoint0) (kept kps (Z.to_nat maxK)).
Proof.
  intros H. unfold limitKeypoints, kept.
  destruct (Z.ltb_spec 0 maxK); [ | lia ].
  destruct (Z.ltb_spec maxK (Z.of_nat (length kps))); [ | lia ].
  simpl. rewrite length_map, length_firstn, length_rev, responseMap_length.
  replace (Z.to_nat maxK - Nat.min (Z.to_nat maxK) (length kps)) with 0 by lia.
  simpl. rewrite app_nil_r. rewrite map_map. reflexivity.
Qed.

Lemma limitKeypoints_unchanged (kps : list KeyPoint) (maxK : Z) :
  ~ (0 < maxK < Z.of_nat (length kps))%Z -> limitKeypoints kps maxK = kps.
Proof.
  intros H. unfold limitKeypoints.
  destruct (Z.ltb_spec 0 maxK); [ | reflexivity ].
  destruct (Z.ltb_spec maxK (Z.of_nat (length kps))); [ lia | reflexivity ].
Qed.

Lemma kept_length (kps : list KeyPoint) (n : nat) :
  n <= length kps -> length (kept kps n) = n.
Proof.
  intros H. unfold kept.
  rewrite length_map, length_firstn, length_rev, responseMap_length. lia.
Qed.

Lemma kept_NoDup (kps : list KeyPoint) (n : nat) : NoDup (kept kps n).
Proof.
  unfold kept. rewrite <- firstn_map, map_rev.
  apply (NoDup_app_remove_r _ (skipn n (rev (map snd (responseMap kps))))).
  rewrite firstn_skipn. apply NoDup_rev. apply responseMap_NoDup.
Qed.

Lemma kept_In (kps : list KeyPoint) (n i : nat) :
  In i (kept kps n) <->
  In (key kps i, i) (skipn (length (responseMap kps) - n) (responseMap kps)).
Proof.
  unfold kept. rewrite firstn_rev, in_map_iff. split.
  - intros [p [Hp Hin]]. apply in_rev in Hin.
    assert (Hm : In p (responseMap kps)).
    { rewrite <- (firstn_skipn (length (responseMap kps) - n)). apply in_or_app. right. exact Hin. }
    apply responseMap_In in Hm. destruct Hm as [_ Hk]. destruct p as [k j].
    simpl in *. subst. exact Hin.
  - intros Hin. exists (key kps i, i). split; [ reflexivity | ].
    apply in_rev in Hin. exact Hin.
Qed.

(** Kept and dropped indices compare in the order of the response map. *)
Lemma kept_above_dropped (kps : list KeyPoint) (n i j : nat) :
  In i (kept kps n) -> j < length kps -> ~ In j (kept kps n) ->
  lexlt (key kps j, j) (key kps i, i).
Proof.
  intros Hi Hj Hnj. rewrite kept_In in Hi, Hnj.
  set (d := length (responseMap kps) - n) in *.
  assert (Hm : In (key kps j, j) (responseMap kps)) by (apply responseMap_In; simpl; auto).
  rewrite <- (firstn_skipn d) in Hm. apply in_app_or in Hm.
  destruct Hm as [ Hm | Hm ]; [ | contradiction ].
  apply (StronglySorted_app_lt _ lexlt (firstn d (responseMap kps)) (skipn d (responseMap kps)));
    [ rewrite firstn_skipn; apply responseMap_sorted | exact Hm | exact Hi ].
Qed.

(** The output lists the kept keypoints from the largest key down, and
    from the latest index down among equal keys. *)
Lemma kept_order (kps : list KeyPoint) (n : nat) :
  StronglySorted (fun i j => lexlt (key kps j, j) (key kps i, i)) (kept kps n).
Proof.
  assert (H : StronglySorted (fun p q => lexlt q p) (firstn n (rev (responseMap kps)))).
  { rewrite firstn_rev. apply (StronglySorted_rev _ lexlt).
    apply (StronglySorted_app_r _ lexlt
             (firstn (length (responseMap kps) - n) (responseMap kps))).
    rewrite firstn_skipn. apply responseMap_sorted. }
  assert (Hin : forall p, In p (firstn n (rev (responseMap kps))) -> fst p = key kps (snd p)).
  { intros p Hp. rewrite <- (firstn_skipn n (rev (responseMap kps))) in *.
    assert (Hp' : In p (rev (responseMap kps))).
    { rewrite <- (firstn_skipn n). apply in_or_app. left.
      rewrite firstn_skipn in Hp. exact Hp. }
    apply in_rev in Hp'. apply responseMap_In in Hp'. tauto. }
  unfold kept. induction H as [ | p l Hl IH Hp ]; simpl.
  - constructor.
  - constructor.
    + apply IH. intros q Hq. apply Hin. right. exact Hq.
    + rewrite Forall_forall in *. intros j Hj. apply in_map_iff in Hj.
      destruct Hj as [q [<- Hq]]. specialize (Hp q Hq).
      rewrite <- (Hin q (or_intror Hq)), <- (Hin p (or_introl eq_refl)).
      destruct p, q. exact Hp.
Qed.

(** The selection of [limitKeypoints], with the tie rule as a parameter:
    [out] lists keypoints of [kps] at distinct indices; a kept keypoint has
    a response at least as large, in absolute value, as a dropped one; and
    when both are equal, [tie kept_index dropped_index] holds. *)
Definition selects (tie : nat -> nat -> Prop) (kps out : list KeyPoint) : Prop :=
  exists idx : list nat,
    out = map (fun i => nth i kps KeyPoint0) idx /\ NoDup idx /\
    (forall i, In i idx -> i < length kps) /\
    forall i j, In i idx -> j < length kps -> ~ In j idx ->
      (key kps j <= key kps i)%Q /\ ((key kps j == key kps i)%Q -> tie i j).

(** The behaviour of [limitKeypoints] for a tie rule. *)
Definition limits (tie : nat -> nat -> Prop) (kps : list KeyPoint) (maxK : Z) : Prop :=
  ((0 < maxK < Z.of_nat (length kps))%Z ->
     length (limitKeypoints kps maxK) = Z.to_nat maxK /\
     selects tie kps (limitKeypoints kps maxK))
  /\ (~ (0 < maxK < Z.of_nat (length kps))%Z -> limitKeypoints kps maxK = kps).

(** C5, as the code has it: when [0 < maxK < |kps|], [limitKeypoints]
    returns exactly [maxK] keypoints, each with an absolute response at
    least that of every dropped keypoint, and among keypoints of equal
    absolute response the one of the LATER original index is kept;
    otherwise it returns its input unchanged. *)
Theorem limitKeypoints_keeps_largest_later_index (kps : list KeyPoint) (maxK : Z) :
  limits (fun kept_index dropped_index => dropped_index < kept_index) kps maxK.
Proof.
  split; [ | apply limitKeypoints_unchanged ].
  intros H. rewrite (limitKeypoints_kept kps maxK H). split.
  - rewrite length_map. apply kept_length. lia.
  - exists (kept kps (Z.to_nat maxK)). split; [ reflexivity | ].
    split; [ apply kept_NoDup | ]. split.
    + intros i Hi. apply kept_In in Hi.
      assert (Hm : In (key kps i, i) (responseMap kps)).
      { rewrite <- (firstn_skipn (length (responseMap kps) - Z.to_nat maxK)).
        apply in_or_app. right. exact Hi. }
      apply responseMap_In in Hm. tauto.
    + intros i j Hi Hj Hnj.
      destruct (kept_above_dropped kps _ i j Hi Hj Hnj) as [ Hlt | [Heq Hlt] ]; simpl in *.
      * split; [ apply Qlt_le_weak; exact Hlt | ].
        intros Heq. exfalso. exact (Qlt_not_eq _ _ Hlt Heq).
      * split; [ rewrite Heq; apply Qle_refl | intros _; exact Hlt ].
Qed.

(** C5 as the specification words it (among equal responses the EARLIER
    index is kept) fails: of two keypoints of the same response, it is the
    second that [limitKeypoints] keeps. *)
Lemma limitKeypoints_earlier_index_refuted :
  ~ limits (fun kept_index dropped_index => kept_index < dropped_index)
      [Example.kpA; Example.kpB] 1.
Proof.
  intros [H _]. destruct H as [_ [idx [Hout [_ [Hlt Hsel]]]]]; [ simpl; lia | ].
  change (limitKeypoints [Example.kpA; Example.kpB] 1) with [Example.kpB] in Hout.
  destruct idx as [ | i [ | ? ? ] ]; try discriminate Hout.
  assert (Hi : i = 1).
  { specialize (Hlt i (or_introl eq_refl)). simpl in Hlt.
    destruct i as [ | [ | ] ]; [ discriminate Hout | reflexivity | lia ]. }
  subst i. destruct (Hsel 1 0) as [_ Htie].
  - left. reflexivity.
  - simpl. lia.
  - intros [ H | [] ]. discriminate H.
  - specialize (Htie (Qeq_refl _)). lia.
Qed.

Lemma limitKeypoints_keeps_largest_later_index_witness :
  length (limitKeypoints [Example.kpA; Example.kpB] 1) = 1
  /\ selects (fun kept_index dropped_index => dropped_index < kept_index)
       [Example.kpA; Example.kpB] (limitKeypoints [Example.kpA; Example.kpB] 1).
Proof.
  apply (proj1 (limitKeypoints_keeps_largest_later_index [Example.kpA; Example.kpB] 1)).
  simpl. lia.
Defined.

End LimitKeypoints.

(** ** The object library *)

Module Library.

Lemma find_insert (V : Type) (k : Z) (v : V) (m : QMap.t V) :
  QMap.find k (QMap.insert k v m) = Some v.
Proof.
  induction m as [ | [k' v'] m IH ]; simpl.
  - rewrite Z.eqb_refl. reflexivity.
  - destruct (Z.ltb_spec k' k).
    + simpl. destruct (Z.eqb_spec k' k); [ lia | exact IH ].
    + destruct (Z.eqb_spec k' k); simpl; rewrite Z.eqb_refl; reflexivity.
Qed.

(** The id under which [addObject] stores an object. *)
Definition storedId (fo : FindObject) (obj : ObjSignature) : Z :=
  if (id obj =? 0)%Z then General_nextObjID fo else id obj.

(** After an object is added, it is in the library under its id, and the
    counter is that id plus one (as an [int]). *)
Lemma addObject_nextObjID (fo : FindObject) (obj : ObjSignature) :
  snd (addObject fo obj) = true ->
  let fo' := fst (addObject fo obj) in
  QMap.find (storedId fo obj) (objects_ fo') = Some (setId obj (storedId fo obj))
  /\ General_nextObjID fo' = int32 (storedId fo obj + 1).
Proof.
  unfold addObject, storedId.
  destruct (negb (id obj =? 0)%Z && QMap.contains (id obj) (objects_ fo)); simpl.
  - discriminate.
  - intros _. destruct (Z.eqb_spec (id obj) 0); simpl.
    + split; [ apply find_insert | reflexivity ].
    + split; [ | reflexivity ]. rewrite find_insert. destruct obj; reflexivity.
Qed.

(** C6, at the input where the code departs from it: with object 5 in the
    library the counter is 6; adding an object of explicit id 3 succeeds
    and sets the counter back to 4.  Two objects added without an id
    then get the ids 4 and 5, and the second takes the place of the object
    that was stored under 5: four additions, three objects. *)
Theorem addObject_lowers_nextObjID :
  let fo1 := fst (addObject Example.FindObject0 (Example.object 5 "5.png")) in
  let fo2 := fst (addObject fo1 (Example.object 3 "3.png")) in
  let fo3 := fst (addObject fo2 (Example.object 0 "a.png")) in
  let fo4 := fst (addObject fo3 (Example.object 0 "b.png")) in
  General_nextObjID fo1 = 6%Z
  /\ snd (addObject fo1 (Example.object 3 "3.png")) = true
  /\ General_nextObjID fo2 = 4%Z
  /\ snd (addObject fo3 (Example.object 0 "b.png")) = true
  /\ QMap.keys (objects_ fo4) = [3; 4; 5]%Z
  /\ QMap.find 5 (objects_ fo4) = Some (Example.object 5 "b.png").
Proof.
  repeat split; reflexivity.
Qed.

(** The state [clearVocabulary] leaves: no descriptor store, no range
    map, an empty vocabulary. *)
Definition cleared (fo : FindObject) : Prop :=
  objectsDescriptors_ fo = [] /\ dataRange_ fo = []
  /\ indexedDescriptors_ (vocabulary_ fo) = Mat0
  /\ notIndexedDescriptors_ (vocabulary_ fo) = Mat0
  /\ wordToObjects_ (vocabulary_ fo) = []
  /\ notIndexedWordIds_ (vocabulary_ fo) = [].

Lemma clearVocabulary_cleared (fo : FindObject) : cleared (clearVocabulary fo).
Proof. repeat split. Qed.

Lemma mutation_cleared (fo fo1 : FindObject) (c : Call) :
  mutation fo c = true -> call fo c = Some fo1 -> cleared fo1.
Proof.
  destruct c as [ o | i | | E s | E s img ]; simpl; try discriminate.
  - unfold addObject.
    destruct (id o =? 0)%Z, (QMap.contains (id o) (objects_ fo)); simpl;
      try discriminate; intros _ [= <-]; apply clearVocabulary_cleared.
  - unfold removeObject. intros -> [= <-]. apply clearVocabulary_cleared.
  - intros _ [= <-]. apply clearVocabulary_cleared.
Qed.

(** Without a descriptor store, [detect] searches nothing, matches nothing
    and leaves the state as it is; it fails unless the scene has no
    feature at all. *)
Lemma detect_without_store (E : External) (s : Settings) (fo : FindObject) (img : Mat) :
  objectsDescriptors_ fo = [] ->
  exists b i, detect E s fo img = Some (mkDetection b i fo [])
              /\ matches_ i = []
              /\ (detect_keypoints E img <> [] -> b = false).
Proof.
  intros H. unfold detect. destruct (empty img).
  - exists false, DetectionInfo0. repeat split.
  - destruct (extractFeatures E s img) as [kpts descs].
    unfold canCompare. rewrite H. simpl.
    destruct (detect_keypoints E img).
    + eexists; eexists. split; [ reflexivity | ]. split; [ reflexivity | ].
      intros Hne. contradiction.
    + eexists; eexists. split; [ reflexivity | ]. split; [ reflexivity | reflexivity ].
Qed.

Lemma call_cleared (fo fo' : FindObject) (c : Call) :
  cleared fo -> call fo c = Some fo' -> cleared fo'.
Proof.
  intros Hc. destruct c as [ o | i | | E s | E s img ]; simpl.
  - unfold addObject.
    destruct (negb (id o =? 0)%Z && QMap.contains (id o) (objects_ fo)); simpl;
      intros [= <-]; [ exact Hc | apply clearVocabulary_cleared ].
  - unfold removeObject. destruct (QMap.contains i (objects_ fo));
      intros [= <-]; [ apply clearVocabulary_cleared | exact Hc ].
  - intros [= <-]. apply clearVocabulary_cleared.
  - intros [= <-]. exact Hc.
  - destruct (detect_without_store E s fo img (proj1 Hc)) as [b [i [Hd _]]].
    rewrite Hd. simpl. intros [= <-]. exact Hc.
Qed.

Lemma calls_cleared (calls : list Call) (fo fo' : FindObject) :
  cleared fo -> for_each call calls fo = Some fo' -> cleared fo'.
Proof.
  revert fo. induction calls as [ | c calls IH ]; simpl; intros fo Hc.
  - intros [= <-]. exact Hc.
  - destruct (call fo c) as [ fo1 | ] eqn:H1; simpl; [ | discriminate ].
    apply IH. exact (call_cleared fo fo1 c Hc H1).
Qed.

(** C9: a mutation of the library ([addObject] of an object without an
    id or with an id that is not taken, [removeObject] of a present id,
    [removeAllObjects]) clears the vocabulary, the global descriptor store
    and the range map, whatever they held; and after any further calls
    that are not [updateVocabulary], [detect] on a scene with features
    searches nothing, matches nothing and returns false. *)
Theorem mutation_invalidates_detection
    (E : External) (fo fo1 fo2 : FindObject) (c : Call) (calls : list Call)
    (s : Settings) (img : Mat) :
  mutation fo c = true ->
  call fo c = Some fo1 ->
  for_each call calls fo1 = Some fo2 ->
  detect_keypoints E img <> [] ->
  cleared fo1
  /\ exists i, detect E s fo2 img = Some (mkDetection false i fo2 []) /\ matches_ i = [].
Proof.
  intros Hm Hc Hcalls Hscene.
  assert (H1 : cleared fo1) by exact (mutation_cleared fo fo1 c Hm Hc).
  split; [ exact H1 | ].
  assert (H2 : cleared fo2) by exact (calls_cleared calls fo1 fo2 H1 Hcalls).
  destruct (detect_without_store E s fo2 img (proj1 H2)) as [b [i [Hd [Hi Hb]]]].
  exists i. rewrite (Hb Hscene) in Hd. split; assumption.
Qed.

(** On the library of two objects with its store, range map and
    vocabulary data built: a third object is added, and the store built
    before is gone. *)
Lemma mutation_invalidates_detection_witness :
  let fo1 := fst (addObject Example.built (Example.object 0 "a.png")) in
  (objectsDescriptors_ Example.built <> [] /\ dataRange_ Example.built <> [])
  /\ cleared fo1
  /\ exists i,
       detect Example.E Example.settings (updateObjects Example.E Example.settings fo1)
         Example.img
       = Some (mkDetection false i (updateObjects Example.E Example.settings fo1) [])
       /\ matches_ i = [].
Proof.
  split; [ split; discriminate | ].
  apply (mutation_invalidates_detection Example.E Example.built _ _
           (CallAddObject (Example.object 0 "a.png"))
           [CallUpdateObjects Example.E Example.settings;
            CallDetect Example.E Example.settings Example.img]
           Example.settings Example.img).
  - reflexivity.
  - reflexivity.
  - reflexivity.
  - discriminate.
Defined.

End Library.

(** ** The vocabulary and its staging block *)

Module VocabularyInvariant.

(** A matrix that has rows has columns. *)
Definition wf (m : Mat) : Prop := empty m = true -> rows m = 0.

(** Two matrices that both hold descriptors have the same width and type. *)
Definition compatible (a b : Mat) : Prop :=
  empty a = false -> empty b = false -> cols a = cols b /\ type a = type b.

(** The invariant of the vocabulary: the staging word ids are
    [M, M+1, ..., M+M'-1]; the words that have an object are exactly the
    integers of [[0, M+M')]; index and staging block agree in width and
    type; a non-empty index is the one FLANN was built over. *)
Record Inv (v : Vocabulary) : Prop := mkInv {
  inv_ids :
    notIndexedWordIds_ v
    = map Z.of_nat (seq (rows (indexedDescriptors_ v)) (rows (notIndexedDescriptors_ v)));
  inv_dense :
    forall w, In w (map fst (wordToObjects_ v)) <-> (0 <= w < Z.of_nat (size v))%Z;
  inv_indexed : wf (indexedDescriptors_ v);
  inv_staging : wf (notIndexedDescriptors_ v);
  inv_compatible : compatible (indexedDescriptors_ v) (notIndexedDescriptors_ v);
  inv_flann : empty (indexedDescriptors_ v) = false -> flannIndex_ v = indexedDescriptors_ v
}.

(** The staging block is empty. *)
Definition flushed (v : Vocabulary) : Prop :=
  rows (notIndexedDescriptors_ v) = 0 /\ notIndexedWordIds_ v = [].

(** The descriptors given to [addWords] are of the width and type of the
    vocabulary. *)
Definition fits (v : Vocabulary) (d : Mat) : Prop :=
  compatible (indexedDescriptors_ v) d /\ compatible (notIndexedDescriptors_ v) d.

(** What the searches promise: an index they return is a row of the matrix
    searched (or negative, for no neighbour). *)
Definition in_range (E : External) : Prop :=
  (forall index queries k r p,
     In r (flann_knnSearch E index queries k) -> In p r -> (fst p < Z.of_nat (rows index))%Z)
  /\ (forall staging query k p,
        In p (linear_knnSearch E staging query k) -> (fst p < Z.of_nat (rows staging))%Z).

Lemma empty_false (m : Mat) : empty m = false <-> rows m <> 0 /\ cols m <> 0.
Proof.
  unfold empty. rewrite orb_false_iff, !Nat.eqb_neq. tauto.
Qed.

Lemma wf_Mat0 : wf Mat0.
Proof. intros _. reflexivity. Qed.

Lemma wf_nonempty (m : Mat) : empty m = false -> wf m.
Proof. intros H H'. congruence. Qed.

Lemma push_back_nonempty (m e : Mat) :
  wf m -> empty e = false -> compatible m e ->
  exists m', push_back m e = Some m' /\ rows m' = rows m + rows e
             /\ empty m' = false /\ cols m' = cols e /\ type m' = type e.
Proof.
  intros Hwf He Hc. pose proof (proj1 (empty_false e) He) as [Hr Hcol].
  unfold push_back. destruct (Nat.eqb_spec (rows e) 0); [ contradiction | ].
  destruct (empty m) eqn:Hm.
  - exists e. rewrite (Hwf Hm). auto.
  - destruct (Hc Hm He) as [H1 H2]. rewrite H1, H2, !Nat.eqb_refl. simpl.
    eexists. split; [ reflexivity | ]. unfold rows. simpl. rewrite length_app.
    split; [ reflexivity | ]. split; [ | auto ].
    apply empty_false. unfold rows. simpl. rewrite length_app.
    apply empty_false in Hm. unfold rows in *. split; lia.
Qed.

Lemma q_insert_In (K V : Type) (ltb : K -> K -> bool) (k : K) (v : V)
    (m : MultiMap.t K V) (p : K * V) :
  In p (MultiMap.q_insert ltb k v m) <-> p = (k, v) \/ In p m.
Proof.
  induction m as [ | [k' v'] m IH ]; simpl.
  - intuition congruence.
  - destruct (ltb k' k); simpl; rewrite ?IH; intuition congruence.
Qed.

Lemma q_insert_length (K V : Type) (ltb : K -> K -> bool) (k : K) (v : V)
    (m : MultiMap.t K V) :
  length (MultiMap.q_insert ltb k v m) = S (length m).
Proof.
  induction m as [ | [k' v'] m IH ]; simpl.
  - reflexivity.
  - destruct (ltb k' k); simpl; rewrite ?IH; reflexivity.
Qed.

Lemma winsert_keys (k v : Z) (m : Words) (w : Z) :
  In w (map fst (winsert k v m)) <-> w = k \/ In w (map fst m).
Proof.
  unfold winsert. rewrite !in_map_iff. split.
  - intros [p [<- Hp]]. apply q_insert_In in Hp. destruct Hp as [ -> | Hp ].
    + left. reflexivity.
    + right. exists p. auto.
  - intros [ -> | [p [<- Hp]] ].
    + exists (k, v). split; [ reflexivity | ]. apply q_insert_In. left. reflexivity.
    + exists p. split; [ reflexivity | ]. apply q_insert_In. right. exact Hp.
Qed.

Lemma clear_Inv (v : Vocabulary) : Inv (clear v).
Proof.
  constructor; simpl.
  - reflexivity.
  - intros w. unfold size. simpl. split; [ contradiction | lia ].
  - apply wf_Mat0.
  - apply wf_Mat0.
  - intros H. discriminate H.
  - intros H. discriminate H.
Qed.

(** [update] flushes the staging block into the index and keeps the words. *)
Lemma update_Inv (v : Vocabulary) :
  Inv v ->
  exists v', update v = Some v' /\ Inv v' /\ flushed v'
             /\ rows (indexedDescriptors_ v') = size v' /\ size v' = size v
             /\ wordToObjects_ v' = wordToObjects_ v.
Proof.
  intros HI. pose proof HI as [Hids Hdense Hwi Hws Hc Hf]. unfold update.
  destruct (empty (notIndexedDescriptors_ v)) eqn:Hs; simpl.
  - pose proof (Hws Hs) as Hr.
    assert (Hnil : notIndexedWordIds_ v = []) by (rewrite Hids, Hr; reflexivity).
    assert (Hfl : flushed v) by (split; assumption).
    assert (Hsize : rows (indexedDescriptors_ v) = size v) by (unfold size; lia).
    destruct (empty (indexedDescriptors_ v)) eqn:Hi; simpl.
    + exists v. auto 10.
    + eexists. split; [ reflexivity | ].
      split; [ constructor; simpl; auto | unfold flushed, size in *; simpl; auto ].
  - destruct (push_back_nonempty _ _ Hwi Hs Hc) as [m [Hp [Hr [Hm _]]]].
    rewrite Hp. simpl. rewrite Hm. simpl.
    eexists. split; [ reflexivity | ]. unfold flushed, size in *. simpl.
    split; [ constructor; simpl | rewrite Hr; auto with arith ].
    + reflexivity.
    + intros w. rewrite Hdense. unfold size. simpl. rewrite Hr.
      rewrite Nat.add_0_r. reflexivity.
    + apply wf_nonempty. exact Hm.
    + apply wf_Mat0.
    + intros _ H. discriminate H.
    + reflexivity.
Qed.

(** The non-incremental loop: [n] fresh word ids from [size v + a] on. *)
Lemma addWord_fresh_loop (objectId : Z) (n a : nat) (v : Vocabulary) (ws : Words) :
  exists v1 ws1,
    fold_left (addWord_fresh objectId) (seq a n) (v, ws) = (v1, ws1)
    /\ indexedDescriptors_ v1 = indexedDescriptors_ v
    /\ notIndexedDescriptors_ v1 = notIndexedDescriptors_ v
    /\ flannIndex_ v1 = flannIndex_ v
    /\ notIndexedWordIds_ v1
       = notIndexedWordIds_ v ++ map (fun i => Z.of_nat (size v + i)) (seq a n)
    /\ (forall p, In p (wordToObjects_ v1) <->
                  In p (wordToObjects_ v)
                  \/ exists i, a <= i < a + n /\ p = (Z.of_nat (size v + i), objectId))
    /\ (forall p, In p ws1 <->
                  In p ws \/ exists i, a <= i < a + n /\ p = (Z.of_nat (size v + i), Z.of_nat i)).
Proof.
  revert a v ws. induction n as [ | n IH ]; intros a v ws; simpl.
  - exists v, ws. rewrite app_nil_r. repeat split; auto; try tauto.
    + intros [ H | [i [Hi _]] ]; [ exact H | lia ].
    + intros [ H | [i [Hi _]] ]; [ exact H | lia ].
  - destruct (IH (S a)
               (mkVocabulary (indexedDescriptors_ v) (notIndexedDescriptors_ v)
                  (winsert (Z.of_nat (size v + a)) objectId (wordToObjects_ v))
                  (notIndexedWordIds_ v ++ [Z.of_nat (size v + a)]) (flannIndex_ v))
               (winsert (Z.of_nat (size v + a)) (Z.of_nat a) ws))
      as [v1 [ws1 [Hf [H1 [H2 [H3 [H4 [H5 H6]]]]]]]].
    exists v1, ws1. unfold size in *. simpl in *.
    split; [ exact Hf | ]. repeat split; auto.
    + rewrite H4, <- app_assoc. reflexivity.
    + intros Hp. apply H5 in Hp. destruct Hp as [ Hp | [i [Hi ->]] ].
      * apply q_insert_In in Hp. destruct Hp as [ -> | Hp ]; [ | auto ].
        right. exists a. split; [ lia | reflexivity ].
      * right. exists i. split; [ lia | reflexivity ].
    + intros Hp. apply H5. destruct Hp as [ Hp | [i [Hi ->]] ].
      * left. apply q_insert_In. auto.
      * destruct (Nat.eq_dec i a) as [ -> | Hne ].
        -- left. apply q_insert_In. auto.
        -- right. exists i. split; [ lia | reflexivity ].
    + intros Hp. apply H6 in Hp. destruct Hp as [ Hp | [i [Hi ->]] ].
      * apply q_insert_In in Hp. destruct Hp as [ -> | Hp ]; [ | auto ].
        right. exists a. split; [ lia | reflexivity ].
      * right. exists i. split; [ lia | reflexivity ].
    + intros Hp. apply H6. destruct Hp as [ Hp | [i [Hi ->]] ].
      * left. apply q_insert_In. auto.
      * destruct (Nat.eq_dec i a) as [ -> | Hne ].
        -- left. apply q_insert_In. auto.
        -- right. exists i. split; [ lia | reflexivity ].
Qed.

Lemma for_each_cons (A S : Type) (body : S -> A -> option S) (a : A) (l : list A) (s : S) :
  for_each body (a :: l) s = bind (body s a) (fun s' => for_each body l s').
Proof. reflexivity. Qed.

Lemma map_offset (b n a : nat) :
  map (fun i => Z.of_nat (b + i)) (seq a n) = map Z.of_nat (seq (b + a) n).
Proof.
  revert a. induction n as [ | n IH ]; intros a; simpl.
  - reflexivity.
  - rewrite IH. rewrite <- Nat.add_succ_r. reflexivity.
Qed.

Lemma In_firstn (A : Type) (n : nat) (l : list A) (x : A) : In x (firstn n l) -> In x l.
Proof.
  intros H. rewrite <- (firstn_skipn n l). apply in_or_app. left. exact H.
Qed.

(** Non-incremental [addWords]: no search is made; the staging block grows
    by the rows of the descriptors, under fresh word ids in sequence. *)
Lemma addWords_fresh (E : External) (s : Settings) (v : Vocabulary) (d : Mat) (objectId : Z) :
  Inv v -> fits v d -> wf d ->
  exists v' ws,
    addWords E s v d objectId false = Some (v', ws)
    /\ Inv v'
    /\ indexedDescriptors_ v' = indexedDescriptors_ v
    /\ flannIndex_ v' = flannIndex_ v
    /\ rows (notIndexedDescriptors_ v') = rows (notIndexedDescriptors_ v) + rows d
    /\ notIndexedWordIds_ v'
       = notIndexedWordIds_ v ++ map (fun i => Z.of_nat (size v + i)) (seq 0 (rows d))
    /\ (forall p, In p (wordToObjects_ v') <->
                  In p (wordToObjects_ v)
                  \/ exists i, i < rows d /\ p = (Z.of_nat (size v + i), objectId))
    /\ (forall p, In p ws <-> exists i, i < rows d /\ p = (Z.of_nat (size v + i), Z.of_nat i))
    /\ (empty d = true -> v' = v)
    /\ (empty d = false ->
        empty (notIndexedDescriptors_ v') = false
        /\ cols (notIndexedDescriptors_ v') = cols d
        /\ type (notIndexedDescriptors_ v') = type d).
Proof.
  intros HI [Hfi Hfs] Hwf. pose proof HI as [Hids Hdense Hwi Hws Hc Hf].
  unfold addWords. destruct (empty d) eqn:Hd.
  - pose proof (Hwf Hd) as Hr. rewrite Hr. simpl.
    exists v, []. rewrite app_nil_r, Nat.add_0_r. conjs; auto; try discriminate.
    + intros p. split; [ auto | ]. intros [ H | [i [Hi _]] ]; [ exact H | lia ].
    + intros p. split; [ intros [] | ]. intros [i [Hi _]]. lia.
  - destruct (addWord_fresh_loop objectId (rows d) 0 v [])
      as [v1 [ws1 [Hfold [H1 [H2 [H3 [H4 [H5 H6]]]]]]]].
    destruct (fold_left _ _ _) as [v0 ws0] eqn:Hfold0.
    injection Hfold as -> ->. clear Hfold0.
    destruct (push_back_nonempty _ _ Hws Hd Hfs) as [m [Hp [Hr [Hm [Hmc Hmt]]]]].
    rewrite H2, Hp. simpl.
    eexists; eexists. split; [ reflexivity | ]. simpl.
    conjs; auto; try discriminate.
    + constructor; simpl.
      * rewrite H4, Hids, H1, Hr, map_offset, Nat.add_0_r.
        unfold size. rewrite seq_app, map_app. reflexivity.
      * intros w. unfold size in *. simpl. rewrite H1, Hr. split.
        -- intros Hw. apply in_map_iff in Hw. destruct Hw as [p [<- Hp']].
           apply H5 in Hp'. destruct Hp' as [ Hp' | [i [Hi ->]] ].
           ++ assert (Hk : In (fst p) (map fst (wordToObjects_ v)))
                by (apply in_map; exact Hp').
              apply Hdense in Hk. lia.
           ++ simpl. lia.
        -- intros Hw.
           destruct (Z_lt_dec w
                       (Z.of_nat (rows (indexedDescriptors_ v)
                                  + rows (notIndexedDescriptors_ v)))) as [ Hlt | Hge ].
           ++ assert (Hk : In w (map fst (wordToObjects_ v))) by (apply Hdense; lia).
              apply in_map_iff in Hk. destruct Hk as [p [<- Hp']].
              apply in_map. apply H5. left. exact Hp'.
           ++ apply in_map_iff. exists (w, objectId). split; [ reflexivity | ].
              apply H5. right.
              exists (Z.to_nat w - (rows (indexedDescriptors_ v)
                                    + rows (notIndexedDescriptors_ v))).
              split; [ lia | ]. f_equal. lia.
      * rewrite H1. exact Hwi.
      * apply wf_nonempty. exact Hm.
      * rewrite H1. intros Hi _. rewrite Hmc, Hmt. apply Hfi; assumption.
      * rewrite H1, H3. exact Hf.
    + intros p. rewrite H5. split; intros [ Hp' | [i [Hi ->]] ]; auto;
        right; exists i; (split; [ lia | reflexivity ]).
    + intros p. rewrite H6. split.
      * intros [ [] | [i [Hi ->]] ]. exists i. split; [ lia | reflexivity ].
      * intros [i [Hi ->]]. right. exists i. split; [ lia | reflexivity ].
Qed.

(** Where the candidates of an incremental step come from. *)
Lemma addCandidate_In (f : Z -> Z) (l : KnnRow) (m : MultiMap.t Q Z) (p : Q * Z) :
  In p (fold_left (addCandidate f) l m) ->
  In p m \/ exists r, In r l /\ (0 <= fst r)%Z /\ snd p = f (fst r).
Proof.
  revert m. induction l as [ | r l IH ]; simpl; intros m Hp.
  - left. exact Hp.
  - apply IH in Hp. destruct Hp as [ Hp | [r' [H1 H2]] ].
    + unfold addCandidate in Hp. destruct (Z.leb_spec 0 (fst r)).
      * apply q_insert_In in Hp. destruct Hp as [ -> | Hp ]; [ | left; exact Hp ].
        right. exists r. simpl. auto.
      * left. exact Hp.
    + right. exists r'. tauto.
Qed.

Lemma fullResults_In (ids : list Z) (tmp glob : KnnRow) (p : Q * Z) :
  In p (fullResults ids tmp glob) ->
  (exists r, In r tmp /\ (0 <= fst r)%Z /\ snd p = nth (Z.to_nat (fst r)) ids 0%Z)
  \/ (exists r, In r glob /\ (0 <= fst r)%Z /\ snd p = fst r).
Proof.
  unfold fullResults. intros Hp. apply addCandidate_In in Hp.
  destruct Hp as [ Hp | Hp ]; [ | right; exact Hp ].
  apply addCandidate_In in Hp. destruct Hp as [ [] | Hp ]. left. exact Hp.
Qed.

Lemma nndr_In (E : External) (ratio : Q) (full : MultiMap.t Q Z) (w : Z) :
  nndr E ratio full = Some w -> exists d, In (d, w) full.
Proof.
  unfold nndr. destruct full as [ | [d1 w1] [ | [d2 w2] full ] ]; try discriminate.
  destruct (Qle_bool d1 (fmul E ratio d2)); [ | discriminate ].
  intros [= <-]. exists d1. left. reflexivity.
Qed.

Lemma nth_ids (M M' : nat) (j : Z) :
  (0 <= j < Z.of_nat M')%Z ->
  nth (Z.to_nat j) (map Z.of_nat (seq M M')) 0%Z = (Z.of_nat M + j)%Z.
Proof.
  intros H. change 0%Z with (Z.of_nat 0). rewrite map_nth, seq_nth; lia.
Qed.

(** The output of the search of the index that [addWords] hands to its
    loop: none, or the answer of FLANN on the index of a vocabulary whose
    index is not empty. *)
Definition searched_index (E : External) (v : Vocabulary) (results : option (list KnnRow)) : Prop :=
  results = None
  \/ (empty (indexedDescriptors_ v) = false
      /\ exists q k, results = Some (flann_knnSearch E (flannIndex_ v) q k)).

(** The words are words of the vocabulary. *)
Definition known (v : Vocabulary) (ws : Words) : Prop :=
  forall p, In p ws -> (0 <= fst p < Z.of_nat (size v))%Z.

Lemma matched_word_known (E : External) (s : Settings) (d : Mat) (v : Vocabulary)
    (results : option (list KnnRow)) (tmp : KnnRow) (i : nat) (w : Z) :
  in_range E -> Inv v -> searched_index E v results ->
  (forall p, In p tmp -> (fst p < Z.of_nat (rows (notIndexedDescriptors_ v)))%Z) ->
  nndr E (NearestNeighbor_4nndrRatio s)
    (fullResults (notIndexedWordIds_ v) tmp
       match results with Some r => firstn 2 (nth i r []) | None => [] end) = Some w ->
  (0 <= w < Z.of_nat (size v))%Z.
Proof.
  intros [Hflann _] HI Hres Htmp Hn. apply nndr_In in Hn. destruct Hn as [d1 Hin].
  apply fullResults_In in Hin. unfold size.
  destruct Hin as [ [r [Hr [H0 Hw]]] | [r [Hr [H0 Hw]]] ];
    change (snd (d1, w)) with w in Hw; subst w.
  - specialize (Htmp r Hr). rewrite (inv_ids v HI), nth_ids; lia.
  - destruct Hres as [ -> | [Hne [q [k ->]]] ]; [ contradiction | ].
    apply In_firstn in Hr.
    assert (Hrow : In (nth i (flann_knnSearch E (flannIndex_ v) q k) [])
                     (flann_knnSearch E (flannIndex_ v) q k)).
    { destruct (nth_in_or_default i (flann_knnSearch E (flannIndex_ v) q k) [])
        as [ H | H ]; [ exact H | rewrite H in Hr; contradiction ]. }
    specialize (Hflann _ _ _ _ _ Hrow Hr).
    rewrite (inv_flann v HI Hne) in Hflann. lia.
Qed.

Lemma known_insert (v v' : Vocabulary) (ws : Words) (w i : Z) :
  known v ws -> size v <= size v' -> (0 <= w < Z.of_nat (size v'))%Z ->
  known v' (winsert w i ws).
Proof.
  intros Hk Hle Hw p Hp. apply q_insert_In in Hp. destruct Hp as [ -> | Hp ].
  - exact Hw.
  - specialize (Hk p Hp). lia.
Qed.

(** One step of the incremental loop keeps the invariant: the descriptor
    either joins a word of the vocabulary or becomes the next word. *)
Lemma addWord_step (E : External) (s : Settings) (d : Mat) (objectId : Z)
    (results : option (list KnnRow)) (v : Vocabulary) (ws : Words) (i : nat) :
  in_range E -> Inv v -> fits v d -> empty d = false ->
  searched_index E v results -> known v ws ->
  exists v' ws',
    addWord E s d objectId results (v, ws) i = Some (v', ws')
    /\ Inv v' /\ fits v' d /\ known v' ws'
    /\ indexedDescriptors_ v' = indexedDescriptors_ v
    /\ flannIndex_ v' = flannIndex_ v
    /\ rows (notIndexedDescriptors_ v) <= rows (notIndexedDescriptors_ v')
    /\ (results = None -> rows (notIndexedDescriptors_ v) = 0 ->
        rows (notIndexedDescriptors_ v') = 1).
Proof.
  intros HE HI [Hfi Hfs] Hd Hres Hk. pose proof HI as [Hids Hdense Hwi Hws Hc Hf].
  unfold addWord. cbv zeta.
  set (tmp := if (rows (notIndexedDescriptors_ v) =? 0)%nat then [] else _).
  assert (Htmp : forall p, In p tmp -> (fst p < Z.of_nat (rows (notIndexedDescriptors_ v)))%Z).
  { unfold tmp. destruct (rows (notIndexedDescriptors_ v) =? 0)%nat; [ intros p [] | ].
    intros p Hp. exact (proj2 HE _ _ _ _ Hp). }
  destruct (nndr E _ _) as [ w | ] eqn:Hn.
  - pose proof (matched_word_known E s d v results tmp i w HE HI Hres Htmp Hn) as Hw.
    eexists; eexists. split; [ reflexivity | ]. simpl. conjs; auto.
    + constructor; simpl; auto.
      intros w'. unfold size in *. simpl. rewrite winsert_keys, Hdense. unfold size. lia.
    + split; assumption.
    + apply (known_insert v); auto.
    + intros Hnone H0. exfalso. subst results. unfold tmp in Hn. rewrite H0 in Hn.
      simpl in Hn. discriminate Hn.
  - assert (Hrow : empty (row_of d i) = false).
    { apply empty_false. apply empty_false in Hd. unfold rows. simpl. split; [ lia | tauto ]. }
    assert (Hcr : compatible (notIndexedDescriptors_ v) (row_of d i)).
    { intros H1 _. simpl. apply Hfs; assumption. }
    destruct (push_back_nonempty _ _ Hws Hrow Hcr) as [m [Hp [Hr [Hm [Hmc Hmt]]]]].
    rewrite Hp. simpl. change (rows (row_of d i)) with 1 in Hr.
    eexists; eexists. split; [ reflexivity | ]. simpl. conjs; auto; try lia.
    + constructor; simpl; auto.
      * rewrite Hids, Hr, seq_app, map_app. reflexivity.
      * intros w'. unfold size in *. simpl. rewrite winsert_keys, Hdense, Hr.
        unfold size. lia.
      * apply wf_nonempty. exact Hm.
      * intros H1 _. rewrite Hmc, Hmt. simpl. apply Hfi; assumption.
    + split; simpl; [ exact Hfi | ]. intros _ _. rewrite Hmc, Hmt. auto.
    + apply (known_insert v); auto; unfold size; simpl; lia.
Qed.

Lemma addWord_loop (E : External) (s : Settings) (d : Mat) (objectId : Z)
    (results : option (list KnnRow)) (l : list nat) (v : Vocabulary) (ws : Words) :
  in_range E -> Inv v -> fits v d -> empty d = false ->
  searched_index E v results -> known v ws ->
  exists v' ws',
    for_each (addWord E s d objectId results) l (v, ws) = Some (v', ws')
    /\ Inv v' /\ known v' ws'
    /\ indexedDescriptors_ v' = indexedDescriptors_ v
    /\ flannIndex_ v' = flannIndex_ v
    /\ rows (notIndexedDescriptors_ v) <= rows (notIndexedDescriptors_ v')
    /\ (results = None -> l <> [] -> 1 <= rows (notIndexedDescriptors_ v')).
Proof.
  intros HE. revert v ws. induction l as [ | i l IH ]; intros v ws HI Hfit Hd Hres Hk.
  - exists v, ws. conjs; auto. intros _ H. contradiction.
  - rewrite for_each_cons.
    destruct (addWord_step E s d objectId results v ws i HE HI Hfit Hd Hres Hk)
      as [v1 [ws1 [Hstep [HI1 [Hfit1 [Hk1 [H1 [H2 [H3 H4]]]]]]]]].
    rewrite Hstep. simpl.
    assert (Hres1 : searched_index E v1 results).
    { unfold searched_index. rewrite H1, H2. exact Hres. }
    destruct (IH v1 ws1 HI1 Hfit1 Hd Hres1 Hk1)
      as [v2 [ws2 [Hloop [HI2 [Hk2 [H5 [H6 [H7 H8]]]]]]]].
    exists v2, ws2. conjs; auto; try congruence; try lia.
    intros Hnone _.
    destruct (Nat.eq_dec (rows (notIndexedDescriptors_ v)) 0) as [ H0 | H0 ]; [ | lia ].
    specialize (H4 Hnone H0). lia.
Qed.

(** [addWords], in either mode, keeps the invariant and returns words of
    the vocabulary. *)
Lemma addWords_Inv (E : External) (s : Settings) (v : Vocabulary) (d : Mat)
    (objectId : Z) (incremental : bool) :
  in_range E -> Inv v -> fits v d ->
  exists v' ws,
    addWords E s v d objectId incremental = Some (v', ws)
    /\ Inv v' /\ known v' ws /\ size v <= size v'.
Proof.
  intros HE HI Hfit. destruct (empty d) eqn:Hd.
  - exists v, []. unfold addWords. rewrite Hd. conjs; auto. intros p [].
  - destruct incremental.
    + unfold addWords. rewrite Hd.
      set (results := if negb (empty (indexedDescriptors_ v)) && _ then _ else None).
      assert (Hres : searched_index E v results).
      { unfold results, searched_index.
        destruct (empty (indexedDescriptors_ v)) eqn:Hi; [ left; reflexivity | ].
        destruct (2 <=? rows (indexedDescriptors_ v))%nat; [ | left; reflexivity ].
        right. split; [ reflexivity | ]. exists d, 2. reflexivity. }
      destruct (addWord_loop E s d objectId results (seq 0 (rows d)) v [] HE HI Hfit Hd Hres)
        as [v' [ws' [Hloop [HI' [Hk' [H1 [H2 [H3 _]]]]]]]]; [ intros p [] | ].
      exists v', ws'. conjs; auto. unfold size. rewrite H1. lia.
    + destruct (addWords_fresh E s v d objectId HI Hfit (wf_nonempty d Hd))
        as [v' [ws [Ha [HI' [H1 [H2 [H3 [H4 [H5 [H6 _]]]]]]]]]].
      exists v', ws. conjs; auto.
      * intros p Hp. apply H6 in Hp. destruct Hp as [i [Hi ->]].
        unfold size in *. simpl. rewrite H1, H3. lia.
      * unfold size. rewrite H1, H3. lia.
Qed.

(** C8: every operation of the vocabulary keeps the staging invariant (the
    staging word ids are [M + k] for the staging rows [k], the words are
    the integers of [[0, M + M')]), provided the descriptors added are of
    the width and type of the vocabulary and the searches answer with rows
    of the matrices searched; and after [update] the staging block is
    empty and the index has as many rows as the vocabulary has words. *)
Theorem vocabulary_operations_keep_invariant (E : External) (s : Settings) (v : Vocabulary) :
  in_range E -> Inv v ->
  Inv (clear v)
  /\ (forall d objectId incremental, fits v d ->
        exists v' ws,
          addWords E s v d objectId incremental = Some (v', ws) /\ Inv v' /\ known v' ws)
  /\ (exists v',
        update v = Some v' /\ Inv v' /\ flushed v'
        /\ rows (indexedDescriptors_ v') = size v').
Proof.
  intros HE HI. split; [ apply clear_Inv | ]. split.
  - intros d objectId incremental Hfit.
    destruct (addWords_Inv E s v d objectId incremental HE HI Hfit)
      as [v' [ws [H1 [H2 [H3 _]]]]].
    exists v', ws. auto.
  - destruct (update_Inv v HI) as [v' [H1 [H2 [H3 [H4 _]]]]].
    exists v'. auto.
Qed.

(** The exact search of the examples answers with rows of the matrix. *)
Lemma nearest_in_range (k : nat) (index : list (list Q)) (q : list Q) (p : Z * Q) :
  In p (Example.nearest k index q) -> (fst p < Z.of_nat (length index))%Z.
Proof.
  unfold Example.nearest. intros H. apply In_firstn in H. apply in_map_iff in H.
  destruct H as [[dist j] [<- Hj]]. simpl.
  assert (Hgen : forall l m,
            In (dist, j)
              (fold_left (fun m jr => MultiMap.std_insert Qltb (Example.l1 q (snd jr)) (fst jr) m)
                 l m) ->
            In (dist, j) m \/ In j (map fst l)).
  { induction l as [ | jr l IH ]; simpl; intros m Hin.
    - left. exact Hin.
    - apply IH in Hin. destruct Hin as [ Hin | Hin ]; [ | auto ].
      apply LimitKeypoints.std_insert_In in Hin. destruct Hin as [ Heq | Hin ]; [ | auto ].
      right. left. congruence. }
  apply Hgen in Hj. destruct Hj as [ [] | Hj ].
  apply in_map_iff in Hj. destruct Hj as [[j' r] [<- Hjr]]. simpl.
  apply in_combine_l in Hjr. apply in_seq in Hjr. lia.
Qed.

Lemma example_in_range : in_range Example.E.
Proof.
  split; simpl.
  - intros index queries k r p Hr Hp. apply in_map_iff in Hr. destruct Hr as [q [<- _]].
    exact (nearest_in_range _ _ _ _ Hp).
  - intros staging query k p Hp. exact (nearest_in_range _ _ _ _ Hp).
Qed.

(** Any descriptors fit a vocabulary that was just cleared. *)
Lemma fits_clear (v : Vocabulary) (d : Mat) : fits (clear v) d.
Proof.
  split; intros H; discriminate H.
Qed.

Lemma vocabulary_operations_keep_invariant_witness :
  Inv (clear Vocabulary0)
  /\ (exists v' ws,
        addWords Example.E Example.settings Vocabulary0 (mkMat [[1]; [2]]%Q 1 5) 7%Z true
        = Some (v', ws) /\ Inv v' /\ known v' ws)
  /\ (exists v',
        update Vocabulary0 = Some v' /\ Inv v' /\ flushed v'
        /\ rows (indexedDescriptors_ v') = size v').
Proof.
  destruct (vocabulary_operations_keep_invariant Example.E Example.settings Vocabulary0
              example_in_range (clear_Inv Vocabulary0)) as [H1 [H2 H3]].
  split; [ exact H1 | ]. split; [ | exact H3 ].
  exact (H2 (mkMat [[1]; [2]]%Q 1 5) 7%Z true (fits_clear Vocabulary0 _)).
Defined.

End VocabularyInvariant.

(** ** [updateVocabulary] *)

Module UpdateVocabulary.
Import VocabularyInvariant.

(** The non-empty descriptor matrices of the objects agree in width and
    type. *)
Definition consistent (l : list ObjSignature) : Prop :=
  forall a b, In a l -> In b l ->
    empty (descriptors a) = false -> empty (descriptors b) = false ->
    cols (descriptors a) = cols (descriptors b) /\ type (descriptors a) = type (descriptors b).

(** Two non-empty descriptor matrices differ in width or in type. *)
Definition inconsistent (l : list ObjSignature) : Prop :=
  exists a b, In a l /\ In b l
    /\ empty (descriptors a) = false /\ empty (descriptors b) = false
    /\ (cols (descriptors a) <> cols (descriptors b)
        \/ type (descriptors a) <> type (descriptors b)).

(** The sum of the descriptor row counts of the objects. *)
Definition totalRows (l : list ObjSignature) : nat :=
  list_sum (map (fun o => rows (descriptors o)) l).

(** The same sum over the matrices that are not empty. *)
Definition usedRows (l : list ObjSignature) : nat :=
  list_sum (map (fun o => if empty (descriptors o) then 0 else rows (descriptors o)) l).

Lemma usedRows_totalRows (l : list ObjSignature) :
  (forall o, In o l -> wf (descriptors o)) -> usedRows l = totalRows l.
Proof.
  unfold usedRows, totalRows. induction l as [ | o l IH ]; simpl; intros H.
  - reflexivity.
  - rewrite IH by (intros o' Ho'; apply H; right; exact Ho').
    destruct (empty (descriptors o)) eqn:He; [ | reflexivity ].
    rewrite (H o (or_introl eq_refl) He). reflexivity.
Qed.

(** What the verification loop returns when it reaches its end. *)
Lemma verify_Some (l : list ObjSignature) :
  forall count dim ty count' dim' ty',
    for_each verifyDescriptors l (count, dim, ty) = Some (count', dim', ty') ->
    count' = (count + Z.of_nat (usedRows l))%Z
    /\ ((0 <= dim)%Z -> dim' = dim) /\ ((0 <= ty)%Z -> ty' = ty)
    /\ (forall o, In o l -> empty (descriptors o) = false ->
          Z.of_nat (cols (descriptors o)) = dim' /\ Z.of_nat (type (descriptors o)) = ty').
Proof.
  unfold usedRows. induction l as [ | o l IH ]; intros count dim ty count' dim' ty' H.
  - simpl in H. injection H as <- <- <-. simpl. conjs; auto; try lia.
  - rewrite for_each_cons in H. unfold verifyDescriptors at 1 in H.
    destruct (empty (descriptors o)) eqn:He; simpl in H.
    + apply IH in H. simpl. rewrite He. destruct H as [H1 [H2 [H3 H4]]].
      conjs; auto. intros o' [ <- | Ho' ] Hne; [ congruence | auto ].
    + destruct ((0 <=? dim)%Z && negb (Z.of_nat (cols (descriptors o)) =? dim)%Z) eqn:Hd;
        [ discriminate H | ].
      destruct ((0 <=? ty)%Z && negb (Z.of_nat (type (descriptors o)) =? ty)%Z) eqn:Ht;
        [ discriminate H | ].
      simpl in H. apply IH in H. destruct H as [H1 [H2 [H3 H4]]].
      simpl. rewrite He. conjs.
      * lia.
      * intros H0. rewrite H2 by lia.
        destruct (Z.leb_spec 0 dim); [ | lia ]. simpl in Hd.
        apply negb_false_iff, Z.eqb_eq in Hd. exact Hd.
      * intros H0. rewrite H3 by lia.
        destruct (Z.leb_spec 0 ty); [ | lia ]. simpl in Ht.
        apply negb_false_iff, Z.eqb_eq in Ht. exact Ht.
      * intros o' [ <- | Ho' ] Hne; [ | auto ].
        split; [ rewrite H2 | rewrite H3 ]; lia.
Qed.

(** The verification loop reaches its end on consistent matrices. *)
Lemma verify_consistent (l : list ObjSignature) :
  forall count dim ty,
    consistent l ->
    (forall o, In o l -> empty (descriptors o) = false ->
       ((0 <= dim)%Z -> Z.of_nat (cols (descriptors o)) = dim)
       /\ ((0 <= ty)%Z -> Z.of_nat (type (descriptors o)) = ty)) ->
    exists r, for_each verifyDescriptors l (count, dim, ty) = Some r.
Proof.
  induction l as [ | o l IH ]; intros count dim ty Hc Hacc.
  - eexists. reflexivity.
  - rewrite for_each_cons. unfold verifyDescriptors at 1.
    assert (Hc' : consistent l).
    { intros a b Ha Hb. apply Hc; right; assumption. }
    destruct (empty (descriptors o)) eqn:He; simpl.
    + apply IH; [ exact Hc' | ]. intros o' Ho'. apply Hacc. right. exact Ho'.
    + destruct (Hacc o (or_introl eq_refl) He) as [Hd Ht].
      replace ((0 <=? dim)%Z && negb (Z.of_nat (cols (descriptors o)) =? dim)%Z) with false.
      2:{ destruct (Z.leb_spec 0 dim); [ | reflexivity ].
          rewrite (Hd H), Z.eqb_refl. reflexivity. }
      replace ((0 <=? ty)%Z && negb (Z.of_nat (type (descriptors o)) =? ty)%Z) with false.
      2:{ destruct (Z.leb_spec 0 ty); [ | reflexivity ].
          rewrite (Ht H), Z.eqb_refl. reflexivity. }
      simpl. apply IH; [ exact Hc' | ]. intros o' Ho' Hne.
      destruct (Hc o' o (or_intror Ho') (or_introl eq_refl) Hne He) as [H1 H2].
      rewrite H1, H2. auto.
Qed.

(** The verification loop returns early on inconsistent matrices. *)
Lemma verify_inconsistent (l : list ObjSignature) :
  inconsistent l -> for_each verifyDescriptors l (0%Z, (-1)%Z, (-1)%Z) = None.
Proof.
  intros [a [b [Ha [Hb [Hea [Heb Hne]]]]]].
  destruct (for_each verifyDescriptors l (0%Z, (-1)%Z, (-1)%Z)) as [ [[count dim] ty] | ] eqn:H;
    [ | reflexivity ].
  apply verify_Some in H. destruct H as [_ [_ [_ H]]].
  destruct (H a Ha Hea) as [H1 H2]. destruct (H b Hb Heb) as [H3 H4]. lia.
Qed.

(** When two non-empty descriptor matrices differ in width or type,
    [updateVocabulary] returns without building and leaves the vocabulary,
    the descriptor store and the range map empty, as [clearVocabulary]
    left them when the call began.  The objects are untouched. *)
Lemma updateVocabulary_refuses_inconsistent (E : External) (s : Settings) (fo : FindObject) :
  inconsistent (QMap.values (objects_ fo)) ->
  updateVocabulary E s fo = Some (clearVocabulary fo)
  /\ Library.cleared (clearVocabulary fo)
  /\ objects_ (clearVocabulary fo) = objects_ fo.
Proof.
  intros H. unfold updateVocabulary.
  change (objects_ (clearVocabulary fo)) with (objects_ fo).
  rewrite (verify_inconsistent _ H).
  split; [ reflexivity | ]. split; [ apply Library.clearVocabulary_cleared | reflexivity ].
Qed.

(** The copy loop stays inside the global matrix when it has room for
    all the rows. *)
Lemma copy_in_range (count dim ty : nat) (l : list ObjSignature) :
  forall g row range,
    row + totalRows l <= count ->
    exists g' range',
      for_each (copyDescriptors count dim ty) l (g, row, range)
      = Some (g', row + totalRows l, range').
Proof.
  unfold totalRows. induction l as [ | o l IH ]; intros g row range H.
  - exists g, range. simpl. rewrite Nat.add_0_r. reflexivity.
  - rewrite for_each_cons. unfold copyDescriptors at 1. simpl in H |- *.
    destruct (Nat.eqb_spec (rows (descriptors o)) 0) as [ H0 | H0 ]; simpl.
    + rewrite H0. apply IH. lia.
    + destruct (Nat.leb_spec (row + rows (descriptors o)) count); [ | lia ]. simpl.
      rewrite Nat.add_assoc. apply IH. lia.
Qed.

Lemma uniqueKeys_nonempty (m : Words) : m <> [] -> MultiMap.uniqueKeys Z.ltb m <> [].
Proof.
  induction m as [ | [k v] m IH ]; [ congruence | ].
  intros _. simpl. destruct m as [ | [k' v'] m ]; [ discriminate | ].
  destruct (MultiMap.eqk Z.ltb k k'); [ apply IH; discriminate | discriminate ].
Qed.

(** The vocabulary loop without the incremental mode: every object's rows
    go to the staging block, and none is flushed before the end. *)
Lemma fresh_vocabulary_loop (E : External) (s : Settings) (c t : nat)
    (l : list (Z * ObjSignature)) :
  General_vocabularyIncremental s = false ->
  (forall e, In e l -> wf (descriptors (snd e))) ->
  (forall e, In e l -> empty (descriptors (snd e)) = false ->
     cols (descriptors (snd e)) = c /\ type (descriptors (snd e)) = t) ->
  forall v added objs,
    Inv v -> empty (indexedDescriptors_ v) = true ->
    (empty (notIndexedDescriptors_ v) = false ->
     cols (notIndexedDescriptors_ v) = c /\ type (notIndexedDescriptors_ v) = t) ->
    (0 <= added)%Z -> (0 < rows (notIndexedDescriptors_ v) -> (0 < added)%Z) ->
    exists v' added' objs',
      for_each (addObjectWords E s) l (v, added, objs) = Some (v', added', objs')
      /\ Inv v' /\ empty (indexedDescriptors_ v') = true
      /\ rows (notIndexedDescriptors_ v')
         = rows (notIndexedDescriptors_ v) + totalRows (map snd l)
      /\ (0 < rows (notIndexedDescriptors_ v') -> (0 < added')%Z).
Proof.
  intros Hinc. unfold totalRows.
  induction l as [ | [k o] l IH ]; intros Hwf Hct v added objs HI Hi Hs Ha Hpos.
  - exists v, added, objs. simpl. rewrite Nat.add_0_r. auto.
  - rewrite for_each_cons. unfold addObjectWords at 1. rewrite Hinc.
    change (snd (k, o)) with o. change (fst (k, o)) with k.
    assert (Hfit : fits v (descriptors o)).
    { split; intros H1 H2; [ congruence | ].
      destruct (Hs H1) as [Hc1 Ht1].
      destruct (Hct (k, o) (or_introl eq_refl) H2) as [Hc2 Ht2].
      simpl in Hc2, Ht2. split; congruence. }
    destruct (addWords_fresh E s v (descriptors o) (id o) HI Hfit
                (Hwf (k, o) (or_introl eq_refl)))
      as [v1 [ws [Hadd [HI1 [H1 [_ [H3 [_ [_ [H6 [H7 H8]]]]]]]]]]].
    rewrite Hadd. simpl.
    destruct (IH (fun e He => Hwf e (or_intror He)) (fun e He => Hct e (or_intror He))
                v1 (added + Z.of_nat (length (MultiMap.uniqueKeys Z.ltb ws)))%Z
                (objs ++ [(k, setWords o ws)]) HI1)
      as [v2 [added2 [objs2 [Hloop [HI2 [Hi2 [Hr2 Hpos2]]]]]]].
    + rewrite H1. exact Hi.
    + destruct (empty (descriptors o)) eqn:He.
      * rewrite (H7 eq_refl). exact Hs.
      * intros _. destruct (H8 eq_refl) as [_ [Hc1 Ht1]].
        destruct (Hct (k, o) (or_introl eq_refl) He) as [Hc2 Ht2].
        simpl in Hc2, Ht2. split; congruence.
    + lia.
    + rewrite H3. intros Hrows.
      destruct (Nat.eq_dec (rows (descriptors o)) 0) as [ H0 | H0 ].
      * assert (0 < added)%Z by (apply Hpos; lia). lia.
      * assert (Hne : ws <> []).
        { intros ->. apply (proj2 (H6 (Z.of_nat (size v + 0), Z.of_nat 0))).
          exists 0. split; [ lia | reflexivity ]. }
        apply uniqueKeys_nonempty in Hne.
        destruct (MultiMap.uniqueKeys Z.ltb ws); [ congruence | simpl; lia ].
    + exists v2, added2, objs2. split; [ exact Hloop | ]. conjs; auto.
      rewrite Hr2, H3. simpl. lia.
Qed.

Lemma updateVocabulary_inverted (E : External) (s : Settings) (fo : FindObject) :
  General_invertedSearch s = true ->
  General_vocabularyIncremental s = false ->
  consistent (QMap.values (objects_ fo)) ->
  (forall o, In o (QMap.values (objects_ fo)) -> wf (descriptors o)) ->
  exists fo',
    updateVocabulary E s fo = Some fo'
    /\ Inv (vocabulary_ fo') /\ flushed (vocabulary_ fo')
    /\ size (vocabulary_ fo') = totalRows (QMap.values (objects_ fo)).
Proof.
  intros Hinv Hinc Hcons Hwf. unfold updateVocabulary.
  change (objects_ (clearVocabulary fo)) with (objects_ fo).
  change (vocabulary_ (clearVocabulary fo)) with (clear (vocabulary_ fo)).
  destruct (verify_consistent (QMap.values (objects_ fo)) 0%Z (-1)%Z (-1)%Z Hcons)
    as [[[count dim] ty] Hv]; [ intros o _ _; split; lia | ].
  rewrite Hv. destruct (verify_Some _ _ _ _ _ _ _ Hv) as [Hcount [_ [_ Hagree]]].
  rewrite (usedRows_totalRows _ Hwf) in Hcount. simpl in Hcount.
  assert (Hclear : flushed (clear (vocabulary_ fo))) by (split; reflexivity).
  destruct (Z.eqb_spec count 0) as [ H0 | H0 ].
  - exists (clearVocabulary fo). split; [ reflexivity | ].
    split; [ apply clear_Inv | ]. split; [ exact Hclear | ].
    change (size (vocabulary_ (clearVocabulary fo))) with 0. lia.
  - rewrite Hinv. cbn [orb].
    destruct (copy_in_range (Z.to_nat count) (Z.to_nat dim) (Z.to_nat ty)
                (QMap.values (objects_ fo)) (repeat [] (Z.to_nat count)) 0 [])
      as [g [range Hcopy]]; [ lia | ].
    destruct (for_each (copyDescriptors _ _ _) _ _) as [ [[g0 row0] range0] | ];
      [ clear Hcopy | discriminate Hcopy ].
    cbn [bind].
    destruct (fresh_vocabulary_loop E s (Z.to_nat dim) (Z.to_nat ty) (objects_ fo) Hinc)
      with (v := clear (vocabulary_ fo)) (added := 0%Z) (objs := @nil (Z * ObjSignature))
      as [v' [added' [objs' [Hloop [HI [Hi [Hr Hpos]]]]]]].
    + intros e He. apply Hwf. apply in_map. exact He.
    + intros e He Hne. destruct (Hagree (snd e) (in_map snd _ _ He) Hne) as [H1 H2].
      split; lia.
    + apply clear_Inv.
    + reflexivity.
    + intros H. discriminate H.
    + lia.
    + unfold rows. simpl. lia.
    + destruct (for_each (addObjectWords E s) _ _) as [ [[v0 added0] objs0] | ];
        [ | discriminate Hloop ].
      injection Hloop as -> -> ->.
      cbn [bind]. simpl in Hr.
      assert (Hsize : size v' = totalRows (QMap.values (objects_ fo))).
      { unfold size. rewrite (inv_indexed v' HI Hi). exact Hr. }
      destruct (Z.eqb_spec added' 0) as [ Ha | Ha ]; simpl.
      * eexists. split; [ reflexivity | ]. simpl. split; [ exact HI | ].
        split; [ | exact Hsize ].
        assert (H0' : rows (notIndexedDescriptors_ v') = 0).
        { destruct (rows (notIndexedDescriptors_ v')); [ reflexivity | ].
          assert (0 < added')%Z by (apply Hpos; lia). lia. }
        split; [ exact H0' | ]. rewrite (inv_ids v' HI), H0'. reflexivity.
      * destruct (update_Inv v' HI) as [v2 [Hu [HI2 [Hfl [_ [Hs2 _]]]]]].
        rewrite Hu. simpl. eexists. split; [ reflexivity | ]. simpl.
        split; [ exact HI2 | ]. split; [ exact Hfl | ]. rewrite Hs2. exact Hsize.
Qed.

(** C7: with inverted search and a vocabulary that is not incremental,
    on a library whose non-empty descriptor matrices agree in width and
    type (a matrix that has rows has columns), [updateVocabulary] leaves a
    vocabulary whose size is the sum of the descriptor row counts of the
    objects; and a non-incremental [addWords] consults no search (its
    result is the same whatever the searches answer), gives the rows the
    word ids that follow in sequence and grows the staging block by exactly
    the rows of the descriptors. *)
Theorem updateVocabulary_inverted_size (E : External) (s : Settings) (fo : FindObject) :
  General_invertedSearch s = true ->
  General_vocabularyIncremental s = false ->
  consistent (QMap.values (objects_ fo)) ->
  (forall o, In o (QMap.values (objects_ fo)) -> wf (descriptors o)) ->
  (exists fo',
     updateVocabulary E s fo = Some fo'
     /\ size (vocabulary_ fo') = totalRows (QMap.values (objects_ fo)))
  /\ (forall v d objectId,
        Inv v -> fits v d -> wf d ->
        exists v' ws,
          (forall E' s', addWords E' s' v d objectId false = Some (v', ws))
          /\ rows (notIndexedDescriptors_ v') = rows (notIndexedDescriptors_ v) + rows d
          /\ size v' = size v + rows d
          /\ notIndexedWordIds_ v'
             = notIndexedWordIds_ v ++ map (fun i => Z.of_nat (size v + i)) (seq 0 (rows d))
          /\ (forall p, In p ws <->
                        exists i, i < rows d /\ p = (Z.of_nat (size v + i), Z.of_nat i))).
Proof.
  intros Hinv Hinc Hcons Hwf. split.
  - destruct (updateVocabulary_inverted E s fo Hinv Hinc Hcons Hwf) as [fo' [H1 [_ [_ H2]]]].
    exists fo'. auto.
  - intros v d objectId HI Hfit Hd.
    destruct (addWords_fresh E s v d objectId HI Hfit Hd)
      as [v' [ws [Ha [_ [H1 [_ [H3 [H4 [_ [H6 _]]]]]]]]]].
    exists v', ws. split; [ intros E' s'; rewrite <- Ha; reflexivity | ].
    conjs; auto. unfold size. rewrite H1, H3. lia.
Qed.

Lemma library_consistent : consistent (QMap.values (objects_ Example.library)).
Proof.
  intros a b [ <- | [ <- | [] ] ] [ <- | [ <- | [] ] ] _ _; split; reflexivity.
Qed.

Lemma library_wf (o : ObjSignature) :
  In o (QMap.values (objects_ Example.library)) -> wf (descriptors o).
Proof.
  intros [ <- | [ <- | [] ] ] H; discriminate H.
Qed.

Lemma updateVocabulary_inverted_size_witness :
  (exists fo',
     updateVocabulary Example.E Example.inverted Example.library = Some fo'
     /\ size (vocabulary_ fo') = totalRows (QMap.values (objects_ Example.library)))
  /\ (let v := Vocabulary0 in
      let d := mkMat [[1]; [2]]%Q 1 5 in
      exists v' ws,
        (forall E' s', addWords E' s' v d 7%Z false = Some (v', ws))
        /\ rows (notIndexedDescriptors_ v') = rows (notIndexedDescriptors_ v) + rows d
        /\ size v' = size v + rows d
        /\ notIndexedWordIds_ v'
           = notIndexedWordIds_ v ++ map (fun i => Z.of_nat (size v + i)) (seq 0 (rows d))
        /\ (forall p, In p ws <->
                      exists i, i < rows d /\ p = (Z.of_nat (size v + i), Z.of_nat i))).
Proof.
  destruct (updateVocabulary_inverted_size Example.E Example.inverted Example.library
              eq_refl eq_refl library_consistent library_wf) as [H1 H2].
  split; [ exact H1 | ].
  apply (H2 Vocabulary0 (mkMat [[1]; [2]]%Q 1 5) 7%Z (clear_Inv Vocabulary0)
           (fits_clear Vocabulary0 _)).
  intros H. discriminate H.
Defined.

End UpdateVocabulary.

(** ** The matching stage *)

Module Matching.

(** The nearest-neighbour distance of each query row. *)
Definition distances (results : list KnnRow) : list Q :=
  map (fun r => dist_at r 0) results.

Definition minimum (l : list Q) (m : Q) : Prop := In m l /\ forall d, In d l -> (m <= d)%Q.
Definition maximum (l : list Q) (m : Q) : Prop := In m l /\ forall d, In d l -> (d <= m)%Q.

Definition nonnegative (l : list Q) : Prop := forall d, In d l -> (0 <= d)%Q.

Lemma not_sentinel (x : Q) : (0 <= x)%Q -> Qeq_bool x Qm1 = false.
Proof.
  intros H. destruct (Qeq_bool x Qm1) eqn:He; [ | reflexivity ].
  apply Qeq_bool_iff in He. rewrite He in H. exfalso. revert H. unfold Qle, Qm1. simpl. lia.
Qed.

Lemma updateMin_sentinel (d : Q) : updateMin Qm1 d = d.
Proof. reflexivity. Qed.

Lemma updateMax_sentinel (d : Q) : updateMax Qm1 d = d.
Proof. reflexivity. Qed.

(** From a distance on, the running minimum is the least of the distances
    seen. *)
Lemma running_minimum (l : list Q) :
  forall cur, (0 <= cur)%Q -> nonnegative l ->
    minimum (cur :: l) (fold_left updateMin l cur).
Proof.
  induction l as [ | d l IH ]; intros cur Hcur Hl; simpl.
  - split; [ left; reflexivity | ]. intros d [ <- | [] ]. apply Qle_refl.
  - assert (Hd : (0 <= d)%Q) by (apply Hl; left; reflexivity).
    assert (Hl' : nonnegative l) by (intros x Hx; apply Hl; right; exact Hx).
    unfold updateMin at 2. rewrite (not_sentinel cur Hcur). simpl.
    destruct (Qltb d cur) eqn:Hlt.
    + apply Qltb_lt in Hlt. destruct (IH d Hd Hl') as [Hin Hle]. split.
      * destruct Hin as [ <- | Hin ]; [ right; left; reflexivity | right; right; exact Hin ].
      * intros x [ <- | [ <- | Hx ] ].
        -- apply Qle_trans with d; [ apply Hle; left; reflexivity | apply Qlt_le_weak; exact Hlt ].
        -- apply Hle. left. reflexivity.
        -- apply Hle. right. exact Hx.
    + apply Qltb_ge in Hlt. destruct (IH cur Hcur Hl') as [Hin Hle]. split.
      * destruct Hin as [ <- | Hin ]; [ left; reflexivity | right; right; exact Hin ].
      * intros x [ <- | [ <- | Hx ] ].
        -- apply Hle. left. reflexivity.
        -- apply Qle_trans with cur; [ apply Hle; left; reflexivity | exact Hlt ].
        -- apply Hle. right. exact Hx.
Qed.

Lemma running_maximum (l : list Q) :
  forall cur, (0 <= cur)%Q -> nonnegative l ->
    maximum (cur :: l) (fold_left updateMax l cur).
Proof.
  induction l as [ | d l IH ]; intros cur Hcur Hl; simpl.
  - split; [ left; reflexivity | ]. intros d [ <- | [] ]. apply Qle_refl.
  - assert (Hd : (0 <= d)%Q) by (apply Hl; left; reflexivity).
    assert (Hl' : nonnegative l) by (intros x Hx; apply Hl; right; exact Hx).
    unfold updateMax at 2. rewrite (not_sentinel cur Hcur). simpl.
    destruct (Qltb cur d) eqn:Hlt.
    + apply Qltb_lt in Hlt. destruct (IH d Hd Hl') as [Hin Hle]. split.
      * destruct Hin as [ <- | Hin ]; [ right; left; reflexivity | right; right; exact Hin ].
      * intros x [ <- | [ <- | Hx ] ].
        -- apply Qle_trans with d; [ apply Qlt_le_weak; exact Hlt | apply Hle; left; reflexivity ].
        -- apply Hle. left. reflexivity.
        -- apply Hle. right. exact Hx.
    + apply Qltb_ge in Hlt. destruct (IH cur Hcur Hl') as [Hin Hle]. split.
      * destruct Hin as [ <- | Hin ]; [ left; reflexivity | right; right; exact Hin ].
      * intros x [ <- | [ <- | Hx ] ].
        -- apply Hle. left. reflexivity.
        -- apply Qle_trans with cur; [ exact Hlt | apply Hle; left; reflexivity ].
        -- apply Hle. right. exact Hx.
Qed.

(** From the sentinel, the loop ends on the least and the greatest of
    all the distances (and on the sentinel when there is none). *)
Lemma minimum_from_sentinel (l : list Q) :
  l <> [] -> nonnegative l -> minimum l (fold_left updateMin l Qm1).
Proof.
  destruct l as [ | d l ]; [ congruence | ]. intros _ H. simpl. rewrite updateMin_sentinel.
  apply running_minimum; [ apply H; left; reflexivity | ].
  intros x Hx. apply H. right. exact Hx.
Qed.

Lemma maximum_from_sentinel (l : list Q) :
  l <> [] -> nonnegative l -> maximum l (fold_left updateMax l Qm1).
Proof.
  destruct l as [ | d l ]; [ congruence | ]. intros _ H. simpl. rewrite updateMax_sentinel.
  apply running_maximum; [ apply H; left; reflexivity | ].
  intros x Hx. apply H. right. exact Hx.
Qed.

Lemma numbered_distances (results : list KnnRow) :
  map (fun ir : nat * KnnRow => dist_at (snd ir) 0) (numbered results) = distances results.
Proof.
  unfold numbered, distances.
  assert (H : forall a, map (fun ir : nat * KnnRow => dist_at (snd ir) 0)
                          (combine (seq a (length results)) results)
                        = map (fun r => dist_at r 0) results).
  { induction results as [ | r l IH ]; intros a; simpl; [ reflexivity | ].
    rewrite IH. reflexivity. }
  apply H.
Qed.

(** Whatever the tests of a row say, its distance enters the minimum and
    the maximum: the distances of the loops are folds over every row. *)
Lemma processRow_distances (E : External) (s : Settings) (fo : FindObject) (sceneWords : Words)
    (l : list (nat * KnnRow)) :
  forall m mn mx,
    snd (fst (fold_left (processRow E s fo sceneWords) l (m, mn, mx)))
    = fold_left updateMin (map (fun ir : nat * KnnRow => dist_at (snd ir) 0) l) mn
    /\ snd (fold_left (processRow E s fo sceneWords) l (m, mn, mx))
       = fold_left updateMax (map (fun ir : nat * KnnRow => dist_at (snd ir) 0) l) mx.
Proof.
  induction l as [ | [i r] l IH ]; intros m mn mx; simpl.
  - auto.
  - apply IH.
Qed.

Lemma threadRow_distances (E : External) (s : Settings) (sceneWords : Words)
    (l : list (nat * KnnRow)) :
  forall m mn mx,
    snd (fst (fold_left (threadRow E s sceneWords) l (m, mn, mx)))
    = fold_left updateMin (map (fun ir : nat * KnnRow => dist_at (snd ir) 0) l) mn
    /\ snd (fold_left (threadRow E s sceneWords) l (m, mn, mx))
       = fold_left updateMax (map (fun ir : nat * KnnRow => dist_at (snd ir) 0) l) mx.
Proof.
  induction l as [ | [i r] l IH ]; intros m mn mx; simpl.
  - auto.
  - apply IH.
Qed.

(** The distances a worker reports. *)
Definition workerMin (E : External) (s : Settings) (v : Vocabulary) (sceneWords : Words)
    (e : Z * Mat) : Q :=
  snd (fst (SearchThread_run E s v (snd e) sceneWords)).

Definition workerMax (E : External) (s : Settings) (v : Vocabulary) (sceneWords : Words)
    (e : Z * Mat) : Q :=
  snd (SearchThread_run E s v (snd e) sceneWords).

Lemma joinThread_distances (E : External) (s : Settings) (v : Vocabulary) (sceneWords : Words)
    (l : list (Z * Mat)) :
  forall m mn mx,
    snd (fst (fold_left (joinThread E s v sceneWords) l (m, mn, mx)))
    = fold_left updateMin (map (workerMin E s v sceneWords) l) mn
    /\ snd (fold_left (joinThread E s v sceneWords) l (m, mn, mx))
       = fold_left updateMax (map (workerMax E s v sceneWords) l) mx.
Proof.
  induction l as [ | e l IH ]; intros m mn mx.
  - simpl. auto.
  - cbn [fold_left map]. unfold joinThread at 2 4, workerMin at 2, workerMax at 2.
    destruct (SearchThread_run E s v (snd e) sceneWords) as [[tm tmn] tmx]. apply IH.
Qed.

(** The least of the least distances of the workers is the least of all
    distances. *)
Lemma minimum_concat (ls : list (list Q)) (ms : list Q) (m : Q) :
  Forall2 minimum ls ms -> minimum ms m -> minimum (concat ls) m.
Proof.
  intros HF [Hin Hle]. split.
  - induction HF as [ | l x ls ms [Hx _] HF IH ]; [ contradiction | ].
    simpl. apply in_or_app. destruct Hin as [ <- | Hin ]; [ left; exact Hx | ].
    right. apply IH; [ exact Hin | ]. intros d Hd. apply Hle. right. exact Hd.
  - intros d Hd. clear Hin. induction HF as [ | l x ls ms [_ Hx] HF IH ]; [ contradiction | ].
    simpl in Hd. apply in_app_or in Hd. destruct Hd as [ Hd | Hd ].
    + apply Qle_trans with x; [ apply Hle; left; reflexivity | apply Hx; exact Hd ].
    + apply IH; [ | exact Hd ]. intros d' Hd'. apply Hle. right. exact Hd'.
Qed.

Lemma maximum_concat (ls : list (list Q)) (ms : list Q) (m : Q) :
  Forall2 maximum ls ms -> maximum ms m -> maximum (concat ls) m.
Proof.
  intros HF [Hin Hle]. split.
  - induction HF as [ | l x ls ms [Hx _] HF IH ]; [ contradiction | ].
    simpl. apply in_or_app. destruct Hin as [ <- | Hin ]; [ left; exact Hx | ].
    right. apply IH; [ exact Hin | ]. intros d Hd. apply Hle. right. exact Hd.
  - intros d Hd. clear Hin. induction HF as [ | l x ls ms [_ Hx] HF IH ]; [ contradiction | ].
    simpl in Hd. apply in_app_or in Hd. destruct Hd as [ Hd | Hd ].
    + apply Qle_trans with x; [ apply Hx; exact Hd | apply Hle; left; reflexivity ].
    + apply IH; [ | exact Hd ]. intros d' Hd'. apply Hle. right. exact Hd'.
Qed.

Lemma worker_distances (E : External) (s : Settings) (v : Vocabulary) (sceneWords : Words)
    (e : Z * Mat) :
  search E v (snd e) (knn s) <> [] ->
  nonnegative (distances (search E v (snd e) (knn s))) ->
  minimum (distances (search E v (snd e) (knn s))) (workerMin E s v sceneWords e)
  /\ maximum (distances (search E v (snd e) (knn s))) (workerMax E s v sceneWords e).
Proof.
  intros Hne Hpos.
  assert (Hmin : workerMin E s v sceneWords e
                 = fold_left updateMin (distances (search E v (snd e) (knn s))) Qm1).
  { rewrite <- numbered_distances. exact (proj1 (threadRow_distances E s sceneWords _ _ _ _)). }
  assert (Hmax : workerMax E s v sceneWords e
                 = fold_left updateMax (distances (search E v (snd e) (knn s))) Qm1).
  { rewrite <- numbered_distances. exact (proj2 (threadRow_distances E s sceneWords _ _ _ _)). }
  rewrite Hmin, Hmax.
  assert (Hd : distances (search E v (snd e) (knn s)) <> []).
  { unfold distances. destruct (search E v (snd e) (knn s)); [ congruence | discriminate ]. }
  split; [ apply minimum_from_sentinel | apply maximum_from_sentinel ]; assumption.
Qed.

(** The minimum and the maximum matched distance start at the sentinel
    -1 and take in the nearest-neighbour distance of every query row,
    matched or not: in the loop of [detect], in the loop of a search
    worker, and over the workers joined, they end on the least and the
    greatest distance of all rows, provided that distances are not
    negative and that every worker has a row to search. *)
Lemma distances_over_all_rows (E : External) (s : Settings) (fo : FindObject)
    (sceneWords : Words) (m0 : QMap.t Words) (results : list KnnRow)
    (v : Vocabulary) (stores : QMap.t Mat) :
  results <> [] -> nonnegative (distances results) ->
  stores <> [] ->
  (forall e, In e stores ->
     search E v (snd e) (knn s) <> []
     /\ nonnegative (distances (search E v (snd e) (knn s)))) ->
  (let r := fold_left (processRow E s fo sceneWords) (numbered results) (m0, Qm1, Qm1) in
   minimum (distances results) (snd (fst r)) /\ maximum (distances results) (snd r))
  /\ (let r := fold_left (threadRow E s sceneWords) (numbered results) ([], Qm1, Qm1) in
      minimum (distances results) (snd (fst r)) /\ maximum (distances results) (snd r))
  /\ (let all := concat (map (fun e => distances (search E v (snd e) (knn s))) stores) in
      let r := fold_left (joinThread E s v sceneWords) stores (m0, Qm1, Qm1) in
      minimum all (snd (fst r)) /\ maximum all (snd r)).
Proof.
  intros Hne Hpos Hstores Hworkers.
  assert (Hd : distances results <> []).
  { unfold distances. destruct results; [ congruence | discriminate ]. }
  split; [ | split ]; cbv zeta.
  - destruct (processRow_distances E s fo sceneWords (numbered results) m0 Qm1 Qm1) as [H1 H2].
    rewrite numbered_distances in H1, H2. rewrite H1, H2.
    split; [ apply minimum_from_sentinel | apply maximum_from_sentinel ]; assumption.
  - destruct (threadRow_distances E s sceneWords (numbered results) [] Qm1 Qm1) as [H1 H2].
    rewrite numbered_distances in H1, H2.
    split; [ apply (eq_ind_r (minimum _) (minimum_from_sentinel _ Hd Hpos) H1)
           | apply (eq_ind_r (maximum _) (maximum_from_sentinel _ Hd Hpos) H2) ].
  - destruct (joinThread_distances E s v sceneWords stores m0 Qm1 Qm1) as [H1 H2].
    rewrite H1, H2. clear H1 H2.
    assert (HF : Forall2 minimum
                   (map (fun e => distances (search E v (snd e) (knn s))) stores)
                   (map (workerMin E s v sceneWords) stores)
                 /\ Forall2 maximum
                      (map (fun e => distances (search E v (snd e) (knn s))) stores)
                      (map (workerMax E s v sceneWords) stores)).
    { clear Hstores. induction stores as [ | e l IH ]; simpl; [ split; constructor | ].
      destruct (Hworkers e (or_introl eq_refl)) as [H1 H2].
      destruct (worker_distances E s v sceneWords e H1 H2) as [H3 H4].
      destruct IH as [H5 H6]; [ intros e' He'; apply Hworkers; right; exact He' | ].
      split; constructor; assumption. }
    destruct HF as [HFmin HFmax].
    assert (Hnn : nonnegative (map (workerMin E s v sceneWords) stores)
                  /\ nonnegative (map (workerMax E s v sceneWords) stores)).
    { split; intros d Hd'; apply in_map_iff in Hd'; destruct Hd' as [e [<- He]];
        destruct (Hworkers e He) as [H1 H2];
        destruct (worker_distances E s v sceneWords e H1 H2) as [[H3 _] [H4 _]];
        apply H2; assumption. }
    assert (Hm : map (workerMin E s v sceneWords) stores <> []
                 /\ map (workerMax E s v sceneWords) stores <> []).
    { destruct stores; [ congruence | split; discriminate ]. }
    split.
    + apply (minimum_concat _ _ _ HFmin). apply minimum_from_sentinel; tauto.
    + apply (maximum_concat _ _ _ HFmax). apply maximum_from_sentinel; tauto.
Qed.

(** An extractor as that of the examples, with descriptors of 8-bit
    elements (type code 0, which is also the type of a matrix without
    data). *)
Definition bytes : External :=
  mkExternal (fmul Example.E) (flann_knnSearch Example.E) (linear_knnSearch Example.E)
    (uninitialised Example.E) (detect_keypoints Example.E)
    (fun img kps =>
       (kps, mkMat (map (fun kp => repeat (response kp) (cols img)) kps) (cols img) 0)).

(** An object that comes with its descriptors, of one column. *)
Definition described (i : Z) (d : list (list Q)) : ObjSignature :=
  mkObjSignature i Example.img [] (mkMat d 1 0) [] "".

(** The library of the objects [objs], added in turn to a new
    [FindObject], with its vocabulary data built. *)
Definition libraryOf (objs : list ObjSignature) (s : Settings) : FindObject :=
  let fo := fold_left (fun fo o => fst (addObject fo o)) objs Example.FindObject0 in
  match updateVocabulary bytes s fo with Some fo' => fo' | None => fo end.

(** C10, at the input where the code departs from it: with search
    workers, an object without descriptors has its worker, which searches
    no row and ends with the sentinel -1 as its minimum; when it is joined
    the sentinel is less than the minimum found so far and takes its
    place, and the next worker starts the minimum again.  On a scene with
    the descriptors 1 and 2, the objects with the descriptors 1, none and
    5 have the nearest-neighbour distances 0 and 3 over their two query
    rows: [detect] with two threads gives the minimum 3, not 0.  With the
    object without descriptors last, it gives the minimum -1, as if no row
    had been searched.  The maximum is right in both cases, and so are
    both distances with one thread. *)
Theorem empty_worker_resets_minimum :
  let s := Example.threaded in
  let fo := libraryOf [described 1 [[1]]%Q; Example.object 2 "2.png"; described 3 [[5]]%Q] s in
  let fo' := libraryOf [described 1 [[1]]%Q; described 3 [[5]]%Q; Example.object 4 "4.png"] s in
  let fo1 :=
    libraryOf [described 1 [[1]]%Q; Example.object 2 "2.png"; described 3 [[5]]%Q]
      Example.settings in
  exists d d' d1,
    detect bytes s fo Example.img = Some d /\ success d = true
    /\ map (fun e => distances (search bytes (vocabulary_ (after d)) (snd e) (knn s)))
         (objectsDescriptors_ fo) = [[0]; []; [3]]%Q
    /\ minMatchedDistance_ (info d) = 3%Q /\ maxMatchedDistance_ (info d) = 3%Q
    /\ detect bytes s fo' Example.img = Some d' /\ success d' = true
    /\ map (fun e => distances (search bytes (vocabulary_ (after d')) (snd e) (knn s)))
         (objectsDescriptors_ fo') = [[0]; [3]; []]%Q
    /\ minMatchedDistance_ (info d') = Qm1 /\ maxMatchedDistance_ (info d') = 3%Q
    /\ detect bytes Example.settings fo1 Example.img = Some d1 /\ success d1 = true
    /\ minMatchedDistance_ (info d1) = 0%Q /\ maxMatchedDistance_ (info d1) = 3%Q.
Proof.
  eexists. eexists. eexists.
  split; [ vm_compute; reflexivity | ].
  do 4 (split; [ reflexivity | ]).
  split; [ vm_compute; reflexivity | ].
  do 4 (split; [ reflexivity | ]).
  split; [ vm_compute; reflexivity | ].
  repeat split.
Qed.

(** In the loop of [detect] a matched row whose word is unique in the scene
    adds one correspondence to the matches of the object that owns the
    row. *)
Lemma insertDirect_inserts_one (fo : FindObject) (sceneWords ws : Words) (i : nat)
    (wordId : Z) (m : QMap.t Words) :
  MultiMap.count Z.ltb wordId sceneWords = 1 ->
  let objectId :=
    match QMap.lowerBound (Z.of_nat i) (dataRange_ fo) with (_, o) :: _ => o | [] => 0%Z end in
  let first :=
    match rev (QMap.below (Z.of_nat i) (dataRange_ fo)) with
    | [] => 0%Z
    | (k, _) :: _ => (k + 1)%Z
    end in
  let pair := winsert (Z.of_nat i - first)%Z (MultiMap.value Z.ltb 0%Z wordId sceneWords) in
  QMap.find objectId m = Some ws ->
  insertDirect fo sceneWords i wordId m = QMap.insert objectId (pair ws) m
  /\ length (pair ws) = S (length ws).
Proof.
  intros Hc objectId first pair Hf. unfold insertDirect.
  fold objectId. fold first. rewrite Hc. simpl.
  unfold insertMatch. rewrite Hf. split; [ reflexivity | ].
  apply VocabularyInvariant.q_insert_length.
Qed.

(** In the loop of [SearchThread::run] such a row adds two entries under
    the row: the scene index of the word and the word id itself. *)
Lemma threadRow_inserts_two (E : External) (s : Settings) (sceneWords m : Words)
    (mn mx : Q) (i : nat) (r : KnnRow) :
  matched E s r = true ->
  MultiMap.count Z.ltb (index_at r 0) sceneWords = 1 ->
  fst (fst (threadRow E s sceneWords (m, mn, mx) (i, r)))
  = winsert (Z.of_nat i) (index_at r 0)
      (winsert (Z.of_nat i) (MultiMap.value Z.ltb 0%Z (index_at r 0) sceneWords) m)
  /\ length (fst (fst (threadRow E s sceneWords (m, mn, mx) (i, r)))) = S (S (length m)).
Proof.
  intros Hm Hc. unfold threadRow. rewrite Hm, Hc. simpl.
  split; [ reflexivity | ]. unfold winsert.
  rewrite !VocabularyInvariant.q_insert_length. reflexivity.
Qed.

(** C1, at the input where the code departs from it: two objects of two
    and one descriptors, a scene of two descriptors, object-to-scene
    search, every row matched to a word that is unique in the scene.  With
    two worker threads every correspondence is in the match map twice; with
    one thread it is there once. *)
Theorem search_thread_inserts_twice :
  option_map (fun d => matches_ (info d))
    (detect Example.E Example.threaded Example.builtThreaded Example.img)
  = Some [(1, [(0, 0); (0, 0); (1, 1); (1, 1)]); (2, [(0, 1); (0, 1)])]%Z
  /\ option_map (fun d => matches_ (info d))
       (detect Example.E Example.settings Example.built Example.img)
     = Some [(1, [(0, 0); (1, 1)]); (2, [(0, 1)])]%Z.
Proof.
  split; vm_compute; reflexivity.
Qed.

(** Without the incremental mode the scene index is flushed before the
    search. *)
Lemma indexScene_flushes (E : External) (s : Settings) (fo : FindObject) (d : Mat) :
  General_vocabularyIncremental s = false ->
  exists fo' ws,
    indexScene E s fo d = Some (fo', ws) /\ VocabularyInvariant.flushed (vocabulary_ fo').
Proof.
  intros Hinc. unfold indexScene. rewrite Hinc.
  assert (H : exists v ws, addWords E s (clear (vocabulary_ fo)) d (-1)%Z false = Some (v, ws)
                           /\ VocabularyInvariant.Inv v).
  { destruct (empty d) eqn:Hd.
    - exists (clear (vocabulary_ fo)), []. unfold addWords. rewrite Hd.
      split; [ reflexivity | apply VocabularyInvariant.clear_Inv ].
    - destruct (VocabularyInvariant.addWords_fresh E s (clear (vocabulary_ fo)) d (-1)%Z
                  (VocabularyInvariant.clear_Inv _) (VocabularyInvariant.fits_clear _ d)
                  (VocabularyInvariant.wf_nonempty d Hd)) as [v [ws [H1 [H2 _]]]].
      exists v, ws. auto. }
  destruct H as [v [ws [Ha HI]]]. rewrite Ha. simpl.
  destruct (VocabularyInvariant.update_Inv v HI) as [v' [Hu [_ [Hfl _]]]].
  rewrite Hu. simpl. eexists; eexists. split; [ reflexivity | exact Hfl ].
Qed.

(** With the incremental mode the scene descriptors are left in the
    staging block: there is no index, and at least the first row is
    staged. *)
Lemma indexScene_stages (E : External) (s : Settings) (fo : FindObject) (d : Mat) :
  VocabularyInvariant.in_range E ->
  General_vocabularyIncremental s = true -> empty d = false ->
  exists fo' ws,
    indexScene E s fo d = Some (fo', ws)
    /\ empty (indexedDescriptors_ (vocabulary_ fo')) = true
    /\ 1 <= rows (notIndexedDescriptors_ (vocabulary_ fo')).
Proof.
  intros HE Hinc Hd. unfold indexScene, addWords. rewrite Hinc, Hd.
  change (negb (empty (indexedDescriptors_ (clear (vocabulary_ fo)))) && _) with false.
  cbv iota.
  destruct (VocabularyInvariant.addWord_loop E s d (-1)%Z None (seq 0 (rows d))
              (clear (vocabulary_ fo)) [] HE (VocabularyInvariant.clear_Inv _)
              (VocabularyInvariant.fits_clear _ d) Hd (or_introl eq_refl))
    as [v [ws [Hloop [_ [_ [H1 [_ [_ H2]]]]]]]]; [ intros p [] | ].
  destruct (for_each (addWord E s d (-1)%Z None) _ _) as [ [v0 ws0] | ];
    [ | discriminate Hloop ].
  injection Hloop as -> ->.
  simpl. eexists; eexists. split; [ reflexivity | ]. simpl. split.
  - rewrite H1. reflexivity.
  - apply H2; [ reflexivity | ].
    apply VocabularyInvariant.empty_false in Hd. destruct (rows d); [ tauto | discriminate ].
Qed.

(** Object-to-scene detection with an incremental vocabulary: whenever the
    scene has descriptors and the matching stage is entered, every
    invocation of the search finds rows in the staging block (and there is
    at least one invocation when there is one thread). *)
Lemma detect_incremental_searches_staging (E : External) (s : Settings) (fo : FindObject)
    (img : Mat) (kpts : list KeyPoint) (descs : Mat) :
  VocabularyInvariant.in_range E ->
  General_invertedSearch s = false ->
  General_vocabularyIncremental s = true ->
  empty img = false ->
  extractFeatures E s img = (kpts, descs) ->
  empty descs = false ->
  canCompare s fo (mkDetectionInfo kpts descs [] Qm1 Qm1) = true ->
  exists d,
    detect E s fo img = Some d
    /\ (General_threads s = 1%Z -> searched d <> [])
    /\ forall v, In v (searched d) -> 1 <= rows (notIndexedDescriptors_ v).
Proof.
  intros HE Hinv Hinc Himg Hext Hd Hcmp. unfold detect.
  rewrite Himg, Hext, Hcmp, Hinv. cbn [negb orb].
  destruct (indexScene_stages E s fo descs HE Hinc Hd) as [fo' [ws [Hi [_ Hr]]]].
  rewrite Hi. cbn [bind].
  destruct (General_threads s =? 1)%Z eqn:Ht.
  - destruct (fold_left _ _ _) as [[m mn] mx]. eexists. split; [ reflexivity | ].
    simpl. split; [ discriminate | ]. intros v [ <- | [] ]. exact Hr.
  - destruct (fold_left _ _ _) as [[m mn] mx]. eexists. split; [ reflexivity | ].
    simpl. split; [ intros H1; rewrite H1 in Ht; discriminate Ht | ].
    intros v Hv. apply in_map_iff in Hv. destruct Hv as [e [<- _]]. exact Hr.
Qed.

(** C4, at the input where the code departs from it: object-to-scene
    search with an incremental vocabulary.  The scene descriptors are
    added and [update] is not called, so that [Vocabulary::search] is
    invoked once, on a vocabulary with no index, two staged rows and the
    staged word ids 0 and 1. *)
Theorem search_on_staged_scene :
  option_map
    (fun d => map (fun v => (rows (indexedDescriptors_ v), rows (notIndexedDescriptors_ v),
                             notIndexedWordIds_ v)) (searched d))
    (detect Example.E Example.incremental Example.built Example.img)
  = Some [(0, 2, [0; 1]%Z)].
Proof.
  vm_compute. reflexivity.
Qed.

End Matching.

(** ** The homography stage *)

Module HomographyStage.








End HomographyStage.

(** ** The library as a map from ids to objects *)

Module LibraryMap.

(** The keys of a map go up strictly. *)
Definition sorted {V : Type} (m : QMap.t V) : Prop := StronglySorted Z.lt (QMap.keys m).

Lemma find_In (V : Type) (k : Z) (v : V) (m : QMap.t V) :
  QMap.find k m = Some v -> In (k, v) m.
Proof.
  induction m as [ | [k' v'] m IH ]; simpl; [ discriminate | ].
  destruct (Z.eqb_spec k' k) as [ -> | Hne ].
  - intros [= ->]. left. reflexivity.
  - intros H. right. apply IH. exact H.
Qed.

Lemma find_None (V : Type) (k : Z) (m : QMap.t V) :
  QMap.find k m = None <-> ~ In k (QMap.keys m).
Proof.
  induction m as [ | [k' v'] m IH ]; simpl.
  - tauto.
  - destruct (Z.eqb_spec k' k) as [ -> | Hne ].
    + split; [ discriminate | ]. intros H. exfalso. apply H. left. reflexivity.
    + rewrite IH. tauto.
Qed.

Lemma sorted_tail (V : Type) (p : Z * V) (m : QMap.t V) :
  sorted (p :: m) -> sorted m /\ forall q, In q m -> (fst p < fst q)%Z.
Proof.
  unfold sorted. simpl. intros H. inversion H as [ | ? ? Hs Hall ]; subst.
  split; [ exact Hs | ]. intros q Hq. rewrite Forall_forall in Hall.
  apply Hall. apply in_map. exact Hq.
Qed.

Lemma sorted_find (V : Type) (k : Z) (v : V) (m : QMap.t V) :
  sorted m -> In (k, v) m -> QMap.find k m = Some v.
Proof.
  induction m as [ | [k' v'] m IH ]; simpl; intros Hs Hin; [ contradiction | ].
  destruct (sorted_tail _ _ _ Hs) as [Hs' Hlt].
  destruct Hin as [ [= -> ->] | Hin ].
  - rewrite Z.eqb_refl. reflexivity.
  - specialize (Hlt _ Hin). simpl in Hlt.
    destruct (Z.eqb_spec k' k); [ lia | ]. apply IH; assumption.
Qed.

Lemma find_insert_other (V : Type) (k k' : Z) (v : V) (m : QMap.t V) :
  k' <> k -> QMap.find k' (QMap.insert k v m) = QMap.find k' m.
Proof.
  intros Hne. induction m as [ | [k0 v0] m IH ]; simpl.
  - destruct (Z.eqb_spec k k'); [ congruence | reflexivity ].
  - destruct (Z.ltb_spec k0 k).
    + simpl. rewrite IH. reflexivity.
    + destruct (Z.eqb_spec k0 k) as [ -> | Hk ]; simpl.
      * destruct (Z.eqb_spec k k'); [ congruence | reflexivity ].
      * destruct (Z.eqb_spec k k'); [ congruence | reflexivity ].
Qed.

Lemma insert_In (V : Type) (k : Z) (v : V) (m : QMap.t V) (q : Z * V) :
  sorted m -> (In q (QMap.insert k v m) <-> q = (k, v) \/ (In q m /\ fst q <> k)).
Proof.
  induction m as [ | [k0 v0] m IH ]; simpl; intros Hs.
  - intuition congruence.
  - destruct (sorted_tail _ _ _ Hs) as [Hs' Hlt]. simpl in Hlt.
    destruct (Z.ltb_spec k0 k).
    + simpl. rewrite (IH Hs'). split.
      * intros [ <- | [ H1 | H1 ] ]; [ right; simpl; split; [ auto | lia ] | auto | tauto ].
      * intros [ H1 | [[ H1 | H1 ] H2] ]; auto.
    + destruct (Z.eqb_spec k0 k) as [ -> | Hk ]; simpl.
      * split.
        -- intros [ H1 | H1 ]; [ auto | ]. right. split; [ auto | ].
           specialize (Hlt _ H1). lia.
        -- intros [ H1 | [[ <- | H1 ] H2] ]; [ auto | simpl in H2; congruence | auto ].
      * split.
        -- intros [ H1 | [ <- | H1 ] ]; [ auto | right; simpl; split; [ auto | lia ] | ].
           right. split; [ auto | ]. specialize (Hlt _ H1). lia.
        -- intros [ H1 | [H1 H2] ]; auto.
Qed.

Lemma insert_sorted (V : Type) (k : Z) (v : V) (m : QMap.t V) :
  sorted m -> sorted (QMap.insert k v m).
Proof.
  induction m as [ | [k0 v0] m IH ]; simpl; intros Hs.
  - constructor; constructor.
  - destruct (sorted_tail _ _ _ Hs) as [Hs' Hlt]. simpl in Hlt.
    destruct (Z.ltb_spec k0 k).
    + unfold sorted. simpl. constructor; [ apply IH; exact Hs' | ].
      rewrite Forall_forall. intros k' Hk'. apply in_map_iff in Hk'.
      destruct Hk' as [q [<- Hq]]. apply (insert_In _ _ _ _ _ Hs') in Hq.
      destruct Hq as [ -> | [Hq _] ]; [ simpl; lia | exact (Hlt _ Hq) ].
    + destruct (Z.eqb_spec k0 k) as [ -> | Hk ].
      * exact Hs.
      * unfold sorted. simpl. constructor; [ exact Hs | ].
        rewrite Forall_forall. intros k' [ <- | Hk' ]; [ lia | ].
        apply in_map_iff in Hk'. destruct Hk' as [q [<- Hq]].
        specialize (Hlt _ Hq). lia.
Qed.

(** Replacing the value of a key that is present keeps the keys. *)
Lemma insert_present (V : Type) (k : Z) (v : V) (m : QMap.t V) :
  sorted m -> In k (QMap.keys m) -> QMap.keys (QMap.insert k v m) = QMap.keys m.
Proof.
  induction m as [ | [k0 v0] m IH ]; simpl; intros Hs Hin; [ contradiction | ].
  destruct (sorted_tail _ _ _ Hs) as [Hs' Hlt]. simpl in Hlt.
  destruct (Z.ltb_spec k0 k).
  - simpl. f_equal. apply IH; [ exact Hs' | ]. destruct Hin as [ -> | Hin ]; [ lia | exact Hin ].
  - destruct (Z.eqb_spec k0 k) as [ -> | Hk ]; [ reflexivity | ].
    exfalso. destruct Hin as [ -> | Hin ]; [ congruence | ].
    apply in_map_iff in Hin. destruct Hin as [q [<- Hq]]. specialize (Hlt _ Hq). lia.
Qed.

(** A key above all the keys goes to the end. *)
Lemma insert_last (V : Type) (k : Z) (v : V) (m : QMap.t V) :
  (forall q, In q m -> (fst q < k)%Z) -> QMap.insert k v m = m ++ [(k, v)].
Proof.
  induction m as [ | [k0 v0] m IH ]; simpl; intros H; [ reflexivity | ].
  pose proof (H (k0, v0) (or_introl eq_refl)) as H0. simpl in H0.
  destruct (Z.ltb_spec k0 k); [ | lia ].
  rewrite IH; [ reflexivity | ]. intros q Hq. apply H. right. exact Hq.
Qed.

Lemma remove_In (V : Type) (k : Z) (m : QMap.t V) (q : Z * V) :
  In q (QMap.remove k m) <-> In q m /\ fst q <> k.
Proof.
  induction m as [ | [k0 v0] m IH ]; simpl.
  - tauto.
  - destruct (Z.eqb_spec k0 k) as [ -> | Hk ]; simpl; rewrite IH.
    + split; [ tauto | ]. intros [[ <- | H1 ] H2]; [ simpl in H2; congruence | auto ].
    + split; [ | tauto ]. intros [ <- | H1 ]; [ simpl; auto | tauto ].
Qed.

Lemma remove_sorted (V : Type) (k : Z) (m : QMap.t V) :
  sorted m -> sorted (QMap.remove k m).
Proof.
  induction m as [ | [k0 v0] m IH ]; simpl; intros Hs; [ exact Hs | ].
  destruct (sorted_tail _ _ _ Hs) as [Hs' Hlt]. simpl in Hlt.
  destruct (Z.eqb_spec k0 k); [ apply IH; exact Hs' | ].
  unfold sorted. simpl. constructor; [ apply IH; exact Hs' | ].
  rewrite Forall_forall. intros k' Hk'. apply in_map_iff in Hk'.
  destruct Hk' as [q [<- Hq]]. apply remove_In in Hq. apply Hlt. tauto.
Qed.

Lemma remove_absent (V : Type) (k : Z) (m : QMap.t V) :
  QMap.find k m = None -> QMap.remove k m = m.
Proof.
  induction m as [ | [k0 v0] m IH ]; simpl; [ reflexivity | ].
  destruct (Z.eqb_spec k0 k); [ discriminate | ]. intros H. rewrite (IH H). reflexivity.
Qed.

(** Removing a key that was just added gives the map back. *)
Lemma remove_insert (V : Type) (k : Z) (v : V) (m : QMap.t V) :
  QMap.find k m = None -> QMap.remove k (QMap.insert k v m) = m.
Proof.
  induction m as [ | [k0 v0] m IH ]; simpl; intros Hf.
  - rewrite Z.eqb_refl. reflexivity.
  - destruct (Z.eqb_spec k0 k) as [ -> | Hk ]; [ discriminate | ].
    destruct (Z.ltb_spec k0 k); simpl.
    + destruct (Z.eqb_spec k0 k); [ congruence | ]. rewrite (IH Hf). reflexivity.
    + rewrite Z.eqb_refl. destruct (Z.eqb_spec k0 k); [ congruence | ].
      rewrite (remove_absent _ _ _ Hf). reflexivity.
Qed.

End LibraryMap.

(** ** The invariant of the library *)

Module LibraryInvariant.
Import LibraryMap.

(** The objects are held in the order of their ids, each under its own id. *)
Definition wellKeyed (fo : FindObject) : Prop :=
  sorted (objects_ fo) /\ forall k o, In (k, o) (objects_ fo) -> id o = k.

Lemma addObject_wellKeyed (fo : FindObject) (o : ObjSignature) :
  wellKeyed fo -> wellKeyed (fst (addObject fo o)).
Proof.
  intros [Hs Hid]. unfold addObject.
  destruct (negb (id o =? 0)%Z && QMap.contains (id o) (objects_ fo)); simpl.
  - split; assumption.
  - split; simpl.
    + apply insert_sorted. exact Hs.
    + intros k o' Hin. apply (insert_In _ _ _ _ _ Hs) in Hin.
      destruct Hin as [ [= -> ->] | [Hin _] ]; [ reflexivity | apply Hid; exact Hin ].
Qed.

Lemma addObject_image_state (fo : FindObject) (img : Mat) (i : Z) (name : string) :
  fst (addObject_image fo img i name) = fst (addObject fo (mkObjSignature i img [] Mat0 [] name)).
Proof.
  unfold addObject_image. destruct (addObject fo _) as [fo' ok]. destruct ok; reflexivity.
Qed.

Lemma addObject_file_wellKeyed (F : Files) (fo : FindObject) (path : option string) :
  wellKeyed fo -> wellKeyed (fst (addObject_file F fo path)).
Proof.
  intros H. unfold addObject_file. destruct path as [ path | ]; [ | exact H ].
  destruct (empty (imread F path)); simpl; [ exact H | ].
  rewrite addObject_image_state. apply addObject_wellKeyed. exact H.
Qed.

Lemma removeObject_wellKeyed (fo : FindObject) (i : Z) :
  wellKeyed fo -> wellKeyed (removeObject fo i).
Proof.
  intros [Hs Hid]. unfold removeObject. destruct (QMap.contains i (objects_ fo)).
  - split; simpl.
    + apply remove_sorted. exact Hs.
    + intros k o Hin. apply remove_In in Hin. apply Hid. tauto.
  - split; assumption.
Qed.

(** The join of a worker of [updateObjects] keeps keys and ids. *)
Lemma storeFeatures_keyed (E : External) (s : Settings) (objs : QMap.t ObjSignature)
    (o : ObjSignature) :
  sorted objs -> (forall k o', In (k, o') objs -> id o' = k) ->
  sorted (storeFeatures E s objs o)
  /\ forall k o', In (k, o') (storeFeatures E s objs o) -> id o' = k.
Proof.
  intros Hs Hid. unfold storeFeatures.
  destruct (extractFeatures E s (image o)) as [kp d].
  destruct (QMap.find (id o) objs) as [ o1 | ] eqn:Hf; [ | split; assumption ].
  split.
  - apply insert_sorted. exact Hs.
  - intros k o' Hin. apply (insert_In _ _ _ _ _ Hs) in Hin.
    destruct Hin as [ [= -> ->] | [Hin _] ]; [ | apply Hid; exact Hin ].
    simpl. apply Hid. apply find_In. exact Hf.
Qed.

Lemma updateObjects_wellKeyed (E : External) (s : Settings) (fo : FindObject) :
  wellKeyed fo -> wellKeyed (updateObjects E s fo).
Proof.
  intros [Hs Hid]. unfold updateObjects, wellKeyed. simpl.
  generalize (QMap.values (objects_ fo)). intros l.
  revert Hs Hid. generalize (objects_ fo). induction l as [ | o l IH ]; intros objs Hs Hid.
  - split; assumption.
  - simpl. destruct (storeFeatures_keyed E s objs o Hs Hid) as [H1 H2]. apply IH; assumption.
Qed.

(** The objects the vocabulary loop writes back are the objects it read,
    with their words set. *)
Definition reworded (e e' : Z * ObjSignature) : Prop :=
  fst e' = fst e /\ exists w, snd e' = setWords (snd e) w.

Lemma addObjectWords_objects (E : External) (s : Settings) (l : list (Z * ObjSignature)) :
  forall v a objs v' a' objs',
    for_each (addObjectWords E s) l (v, a, objs) = Some (v', a', objs') ->
    exists added, objs' = objs ++ added /\ Forall2 reworded l added.
Proof.
  induction l as [ | e l IH ]; intros v a objs v' a' objs' H.
  - simpl in H. injection H as <- <- <-. exists []. rewrite app_nil_r. split; constructor.
  - rewrite VocabularyInvariant.for_each_cons in H. unfold addObjectWords at 1 in H.
    destruct (addWords E s v (descriptors (snd e)) (id (snd e))
                (General_vocabularyIncremental s)) as [ [v1 ws] | ]; [ | discriminate H ].
    cbn [bind fst snd] in H.
    destruct (General_vocabularyIncremental s && _ && _).
    + destruct (update v1) as [ v2 | ]; [ | discriminate H ]. cbn [bind] in H.
      apply IH in H. destruct H as [added [-> HF]].
      exists ((fst e, setWords (snd e) ws) :: added). rewrite <- app_assoc.
      split; [ reflexivity | ]. constructor; [ | exact HF ].
      split; [ reflexivity | exists ws; reflexivity ].
    + apply IH in H. destruct H as [added [-> HF]].
      exists ((fst e, setWords (snd e) ws) :: added). rewrite <- app_assoc.
      split; [ reflexivity | ]. constructor; [ | exact HF ].
      split; [ reflexivity | exists ws; reflexivity ].
Qed.

Lemma reworded_keyed (l l' : list (Z * ObjSignature)) :
  Forall2 reworded l l' ->
  QMap.keys l' = QMap.keys l
  /\ forall k o', In (k, o') l' -> exists o, In (k, o) l /\ id o' = id o.
Proof.
  induction 1 as [ | [k o] [k' o'] l l' [Hk [w Hw]] HF [IH1 IH2] ]; simpl.
  - split; [ reflexivity | intros k o' [] ].
  - simpl in Hk, Hw. subst k' o'. unfold QMap.keys in *. simpl. rewrite IH1.
    split; [ reflexivity | ]. intros k1 o1 [ [= <- <-] | Hin ].
    + exists o. auto.
    + destruct (IH2 _ _ Hin) as [o2 [H1 H2]]. exists o2. auto.
Qed.

Lemma updateVocabulary_objects (E : External) (s : Settings) (fo fo' : FindObject) :
  updateVocabulary E s fo = Some fo' ->
  objects_ fo' = objects_ fo \/ Forall2 reworded (objects_ fo) (objects_ fo').
Proof.
  unfold updateVocabulary. change (objects_ (clearVocabulary fo)) with (objects_ fo).
  destruct (for_each verifyDescriptors _ _) as [ [[count dim] ty] | ];
    [ | intros [= <-]; left; reflexivity ].
  destruct (count =? 0)%Z; [ intros [= <-]; left; reflexivity | ].
  destruct (General_invertedSearch s || (General_threads s =? 1)%Z);
    [ | intros [= <-]; left; reflexivity ].
  destruct (for_each (copyDescriptors _ _ _) _ _) as [ [[g row] range] | ];
    [ | discriminate ].
  cbn [bind]. destruct (General_invertedSearch s); [ | intros [= <-]; left; reflexivity ].
  destruct (for_each (addObjectWords E s) _ _) as [ [[v added] objs] | ] eqn:Hloop;
    [ | discriminate ].
  cbn [bind]. apply addObjectWords_objects in Hloop. destruct Hloop as [l [-> HF]].
  destruct (negb (added =? 0)%Z).
  - destruct (update v); [ | discriminate ]. cbn [bind]. intros [= <-]. right. exact HF.
  - cbn [bind]. intros [= <-]. right. exact HF.
Qed.

Lemma updateVocabulary_wellKeyed (E : External) (s : Settings) (fo fo' : FindObject) :
  wellKeyed fo -> updateVocabulary E s fo = Some fo' -> wellKeyed fo'.
Proof.
  intros [Hs Hid] H. apply updateVocabulary_objects in H. destruct H as [ H | H ].
  - unfold wellKeyed. rewrite H. split; assumption.
  - destruct (reworded_keyed _ _ H) as [H1 H2]. split.
    + unfold sorted. rewrite H1. exact Hs.
    + intros k o' Hin. destruct (H2 _ _ Hin) as [o [Ho ->]]. apply Hid. exact Ho.
Qed.

(** [detect] leaves everything but the vocabulary as it is. *)
Lemma detect_after (E : External) (s : Settings) (fo : FindObject) (img : Mat) (d : Detection) :
  detect E s fo img = Some d ->
  exists v, after d = setVocabulary fo v
            /\ (General_invertedSearch s = true \/ success d = false -> v = vocabulary_ fo).
Proof.
  assert (Hfo : fo = setVocabulary fo (vocabulary_ fo)) by (destruct fo; reflexivity).
  unfold detect. destruct (empty img).
  - intros [= <-]. exists (vocabulary_ fo). split; [ exact Hfo | reflexivity ].
  - destruct (extractFeatures E s img) as [kpts descs].
    destruct (canCompare s fo _).
    + destruct (General_invertedSearch s) eqn:Hinv; cbn [negb bind orb].
      * destruct (fold_left _ _ _) as [[m mn] mx]. intros [= <-].
        exists (vocabulary_ fo). split; [ exact Hfo | reflexivity ].
      * unfold indexScene.
        destruct (addWords E s _ _ _ _) as [ [v1 ws] | ]; [ | discriminate ]. cbn [bind fst snd].
        destruct (if negb (General_vocabularyIncremental s) then update v1 else Some v1)
          as [ v2 | ]; [ | discriminate ].
        cbn [bind].
        destruct (General_threads s =? 1)%Z;
          destruct (fold_left _ _ _) as [[m mn] mx]; intros [= <-];
          exists v2; (split; [ reflexivity | ]); simpl; intros [ H | H ]; discriminate H.
    + destruct (negb (length (objectsDescriptors_ fo) =? 0)%nat && negb (length kpts =? 0)%nat).
      * intros [= <-]. exists (vocabulary_ fo). split; [ exact Hfo | reflexivity ].
      * destruct (match detect_keypoints E img with [] => true | _ => false end);
          intros [= <-]; exists (vocabulary_ fo); (split; [ exact Hfo | reflexivity ]).
Qed.

Lemma detect_wellKeyed (E : External) (s : Settings) (fo : FindObject) (img : Mat)
    (d : Detection) :
  wellKeyed fo -> detect E s fo img = Some d -> wellKeyed (after d).
Proof.
  intros H Hd. apply detect_after in Hd. destruct Hd as [v [-> _]]. exact H.
Qed.

Lemma loadObjects_wellKeyed (F : Files) (E : External) (s : Settings) (formats dir : string)
    (fo : FindObject) (r : FindObject * Z) :
  wellKeyed fo -> loadObjects F E s formats fo dir = Some r -> wellKeyed (fst r).
Proof.
  intros H. unfold loadObjects.
  destruct (getFileNames F dir _) as [ names | ]; [ | intros [= <-]; exact H ].
  set (fo1 := fold_left _ names fo).
  assert (H1 : wellKeyed fo1).
  { unfold fo1. clear fo1. revert fo H. induction names as [ | n names IH ]; intros fo H.
    - exact H.
    - cbn [fold_left]. apply IH. apply addObject_file_wellKeyed. exact H. }
  destruct (negb (length names =? 0)%nat).
  - destruct (updateVocabulary E s (updateObjects E s fo1)) as [ fo2 | ] eqn:Hu;
      [ | discriminate ].
    cbn [bind]. intros [= <-]. simpl.
    exact (updateVocabulary_wellKeyed E s _ _ (updateObjects_wellKeyed E s _ H1) Hu).
  - cbn [bind]. intros [= <-]. exact H1.
Qed.

Lemma find_middle (V : Type) (a b : QMap.t V) (k : Z) (v : V) :
  (forall q, In q a -> (fst q < k)%Z) -> QMap.find k (a ++ (k, v) :: b) = Some v.
Proof.
  induction a as [ | [k0 v0] a IH ]; simpl; intros H.
  - rewrite Z.eqb_refl. reflexivity.
  - pose proof (H (k0, v0) (or_introl eq_refl)) as H0. simpl in H0.
    destruct (Z.eqb_spec k0 k); [ lia | ]. apply IH. intros q Hq. apply H. right. exact Hq.
Qed.

Lemma insert_middle (V : Type) (a b : QMap.t V) (k : Z) (v v' : V) :
  (forall q, In q a -> (fst q < k)%Z) ->
  QMap.insert k v' (a ++ (k, v) :: b) = a ++ (k, v') :: b.
Proof.
  induction a as [ | [k0 v0] a IH ]; simpl; intros H.
  - rewrite Z.ltb_irrefl, Z.eqb_refl. reflexivity.
  - pose proof (H (k0, v0) (or_introl eq_refl)) as H0. simpl in H0.
    destruct (Z.ltb_spec k0 k); [ | lia ]. rewrite IH; [ reflexivity | ].
    intros q Hq. apply H. right. exact Hq.
Qed.

(** In a sorted map the keys of a prefix are below the keys that follow. *)
Lemma sorted_prefix (V : Type) (a b : QMap.t V) (p : Z * V) :
  sorted (a ++ p :: b) -> forall q, In q a -> (fst q < fst p)%Z.
Proof.
  unfold sorted, QMap.keys. rewrite map_app. simpl. intros Hs q Hq.
  apply (StronglySorted_app_lt _ Z.lt (map fst a) (fst p :: map fst b) Hs).
  - apply in_map. exact Hq.
  - left. reflexivity.
Qed.

(** An object with the features extracted from its image. *)
Definition withFeatures (E : External) (s : Settings) (e : Z * ObjSignature)
    : Z * ObjSignature :=
  (fst e,
   setData (snd e) (fst (extractFeatures E s (image (snd e))))
     (snd (extractFeatures E s (image (snd e))))).

Lemma storeFeatures_loop (E : External) (s : Settings) (l2 : QMap.t ObjSignature) :
  forall l1,
    sorted (l1 ++ l2) -> (forall k o, In (k, o) (l1 ++ l2) -> id o = k) ->
    fold_left (storeFeatures E s) (QMap.values l2) (map (withFeatures E s) l1 ++ l2)
    = map (withFeatures E s) (l1 ++ l2).
Proof.
  induction l2 as [ | [k o] l2 IH ]; intros l1 Hs Hid.
  - simpl. rewrite !app_nil_r. reflexivity.
  - unfold QMap.values. cbn [map fold_left snd].
    assert (Hk : id o = k) by (apply Hid; apply in_or_app; right; left; reflexivity).
    assert (Hlt : forall q, In q (map (withFeatures E s) l1) -> (fst q < k)%Z).
    { intros q Hq. apply in_map_iff in Hq. destruct Hq as [q0 [<- Hq0]].
      exact (sorted_prefix _ _ _ _ Hs q0 Hq0). }
    unfold storeFeatures at 2.
    destruct (extractFeatures E s (image o)) as [kp d] eqn:He.
    rewrite Hk, (find_middle _ _ _ _ _ Hlt), (insert_middle _ _ _ _ _ _ Hlt).
    replace (map (withFeatures E s) l1 ++ (k, setData o kp d) :: l2)
      with (map (withFeatures E s) (l1 ++ [(k, o)]) ++ l2).
    2:{ rewrite map_app, <- app_assoc. unfold withFeatures at 2. simpl. rewrite He.
        reflexivity. }
    change (map snd l2) with (QMap.values l2).
    rewrite IH; rewrite <- app_assoc; [ reflexivity | exact Hs | exact Hid ].
Qed.

(** X1: every operation of [FindObject] keeps the library keyed: the
    objects stay in the order of their ids and each is held under its own
    id, whether objects are added (as signatures or from files), removed,
    their features extracted, the vocabulary built, a scene searched or a
    directory loaded; so does any sequence of calls. *)
Theorem library_stays_keyed (F : Files) (E : External) (s : Settings) (fo : FindObject) :
  wellKeyed fo ->
  (forall o, wellKeyed (fst (addObject fo o)))
  /\ (forall path, wellKeyed (fst (addObject_file F fo path)))
  /\ (forall i, wellKeyed (removeObject fo i))
  /\ wellKeyed (removeAllObjects fo)
  /\ wellKeyed (updateObjects E s fo)
  /\ (forall fo', updateVocabulary E s fo = Some fo' -> wellKeyed fo')
  /\ (forall img d, detect E s fo img = Some d -> wellKeyed (after d))
  /\ (forall formats dir r, loadObjects F E s formats fo dir = Some r -> wellKeyed (fst r))
  /\ (forall calls fo', for_each call calls fo = Some fo' -> wellKeyed fo').
Proof.
  intros H. conjs.
  - intros o. apply addObject_wellKeyed. exact H.
  - intros path. apply addObject_file_wellKeyed. exact H.
  - intros i. apply removeObject_wellKeyed. exact H.
  - split; [ constructor | intros k o [] ].
  - apply updateObjects_wellKeyed. exact H.
  - intros fo'. apply updateVocabulary_wellKeyed. exact H.
  - intros img d. apply detect_wellKeyed. exact H.
  - intros formats dir r. apply loadObjects_wellKeyed. exact H.
  - intros calls. revert fo H. induction calls as [ | c calls IH ]; intros fo H fo'.
    + intros [= <-]. exact H.
    + rewrite VocabularyInvariant.for_each_cons.
      destruct (call fo c) as [ fo1 | ] eqn:Hc; [ | discriminate ]. cbn [bind].
      apply IH. destruct c as [ o | i | | E' s' | E' s' img ]; simpl in Hc.
      * injection Hc as <-. apply addObject_wellKeyed. exact H.
      * injection Hc as <-. apply removeObject_wellKeyed. exact H.
      * injection Hc as <-. split; [ constructor | intros k o [] ].
      * injection Hc as <-. apply updateObjects_wellKeyed. exact H.
      * destruct (detect E' s' fo img) as [ d | ] eqn:Hd; [ | discriminate Hc ].
        injection Hc as <-. exact (detect_wellKeyed _ _ _ _ _ H Hd).
Qed.

Lemma library_wellKeyed : wellKeyed Example.library.
Proof.
  split.
  - repeat constructor.
  - intros k o [ [= <- <-] | [ [= <- <-] | [] ] ]; reflexivity.
Qed.

Lemma library_stays_keyed_witness :
  let fo := Example.library in
  (forall o, wellKeyed (fst (addObject fo o)))
  /\ (forall path, wellKeyed (fst (addObject_file ExampleFiles.files fo path)))
  /\ (forall i, wellKeyed (removeObject fo i))
  /\ wellKeyed (removeAllObjects fo)
  /\ wellKeyed (updateObjects Example.E Example.inverted fo)
  /\ (forall fo', updateVocabulary Example.E Example.inverted fo = Some fo' -> wellKeyed fo')
  /\ (forall img d, detect Example.E Example.inverted fo img = Some d -> wellKeyed (after d))
  /\ (forall formats dir r,
        loadObjects ExampleFiles.files Example.E Example.inverted formats fo dir = Some r ->
        wellKeyed (fst r))
  /\ (forall calls fo', for_each call calls fo = Some fo' -> wellKeyed fo').
Proof.
  exact (library_stays_keyed ExampleFiles.files Example.E Example.inverted Example.library
           library_wellKeyed).
Defined.

(** X2: adding an object under an id that is free and removing it again
    gives the library its objects back; in between the object is found
    under its id and every other id finds what it found before.  The
    counter of ids is not taken back: it stays at the id plus one, an
    [int] sum that wraps around at 2147483647. *)
Theorem addObject_removeObject_round_trip (fo : FindObject) (o : ObjSignature) :
  QMap.contains (Library.storedId fo o) (objects_ fo) = false ->
  let i := Library.storedId fo o in
  let fo1 := fst (addObject fo o) in
  snd (addObject fo o) = true
  /\ QMap.find i (objects_ fo1) = Some (setId o i)
  /\ (forall k, k <> i -> QMap.find k (objects_ fo1) = QMap.find k (objects_ fo))
  /\ objects_ (removeObject fo1 i) = objects_ fo
  /\ General_nextObjID (removeObject fo1 i) = int32 (i + 1).
Proof.
  unfold Library.storedId, QMap.contains. intros Hfree.
  destruct (QMap.find _ (objects_ fo)) eqn:Hf; [ discriminate Hfree | ]. clear Hfree.
  unfold addObject, removeObject, QMap.contains.
  destruct (Z.eqb_spec (id o) 0) as [ H0 | H0 ]; simpl.
  - rewrite Library.find_insert. simpl. conjs; auto.
    + intros k Hk. apply find_insert_other. exact Hk.
    + apply remove_insert. exact Hf.
  - rewrite Hf. simpl. rewrite Library.find_insert. simpl. conjs; auto.
    + destruct o; reflexivity.
    + intros k Hk. apply find_insert_other. exact Hk.
    + apply remove_insert. exact Hf.
Qed.

Lemma addObject_removeObject_round_trip_witness :
  let fo := Example.library in
  let o := Example.object 0 "a.png" in
  let fo1 := fst (addObject fo o) in
  snd (addObject fo o) = true
  /\ QMap.find 3%Z (objects_ fo1) = Some (setId o 3%Z)
  /\ (forall k, k <> 3%Z -> QMap.find k (objects_ fo1) = QMap.find k (objects_ fo))
  /\ objects_ (removeObject fo1 3%Z) = objects_ fo
  /\ General_nextObjID (removeObject fo1 3%Z) = 4%Z.
Proof.
  apply (addObject_removeObject_round_trip Example.library (Example.object 0 "a.png")).
  reflexivity.
Defined.

(** X3: with a thread count [General_threads] that is not negative (0
    stands for one worker per object), on a keyed library [updateObjects]
    gives every object the keypoints and descriptors extracted from its
    own image, and changes nothing else: ids, images, words and file names
    stay, and so do the vocabulary, the descriptor store and the range map
    built before.  (With a negative count the batch loop starts no worker
    and does not come to an end; the model of [updateObjects] does not
    cover it.) *)
Theorem updateObjects_extracts_each_object (E : External) (s : Settings) (fo : FindObject) :
  (0 <= General_threads s)%Z ->
  wellKeyed fo ->
  objects_ (updateObjects E s fo) = map (withFeatures E s) (objects_ fo)
  /\ vocabulary_ (updateObjects E s fo) = vocabulary_ fo
  /\ objectsDescriptors_ (updateObjects E s fo) = objectsDescriptors_ fo
  /\ dataRange_ (updateObjects E s fo) = dataRange_ fo
  /\ General_nextObjID (updateObjects E s fo) = General_nextObjID fo.
Proof.
  intros _ [Hs Hid]. conjs; try reflexivity.
  exact (storeFeatures_loop E s (objects_ fo) [] Hs Hid).
Qed.

Lemma updateObjects_extracts_each_object_witness :
  let fo := Example.library in
  objects_ (updateObjects Example.E Example.settings fo)
  = map (withFeatures Example.E Example.settings) (objects_ fo)
  /\ vocabulary_ (updateObjects Example.E Example.settings fo) = vocabulary_ fo
  /\ objectsDescriptors_ (updateObjects Example.E Example.settings fo) = objectsDescriptors_ fo
  /\ dataRange_ (updateObjects Example.E Example.settings fo) = dataRange_ fo
  /\ General_nextObjID (updateObjects Example.E Example.settings fo) = General_nextObjID fo.
Proof.
  apply (updateObjects_extracts_each_object Example.E Example.settings Example.library).
  - simpl. lia.
  - exact library_wellKeyed.
Defined.

End LibraryInvariant.

(** ** The words of the vocabulary *)

Module VocabularyWords.
Import VocabularyInvariant.

Lemma q_insert_perm (K V : Type) (ltb : K -> K -> bool) (k : K) (v : V) (m : MultiMap.t K V) :
  Permutation (MultiMap.q_insert ltb k v m) ((k, v) :: m).
Proof.
  induction m as [ | [k' v'] m IH ]; simpl.
  - apply Permutation_refl.
  - destruct (ltb k' k).
    + eapply perm_trans; [ apply perm_skip; exact IH | apply perm_swap ].
    + apply Permutation_refl.
Qed.

(** A key above all the keys goes to the end. *)
Lemma winsert_last (k v : Z) (m : Words) :
  (forall p, In p m -> (fst p < k)%Z) -> winsert k v m = m ++ [(k, v)].
Proof.
  unfold winsert. induction m as [ | [k' v'] m IH ]; simpl; intros H.
  - reflexivity.
  - pose proof (H (k', v') (or_introl eq_refl)) as H0. simpl in H0.
    destruct (Z.ltb_spec k' k); [ | lia ]. rewrite IH; [ reflexivity | ].
    intros p Hp. apply H. right. exact Hp.
Qed.

Lemma push_back_rows (m e m' : Mat) :
  push_back m e = Some m' -> rows m' <= rows m + rows e.
Proof.
  unfold push_back. destruct (rows e =? 0)%nat; [ intros [= <-]; lia | ].
  destruct (empty m); [ intros [= <-]; lia | ].
  destruct (negb (cols m =? cols e)%nat); [ discriminate | ].
  destruct (negb (type m =? type e)%nat); [ discriminate | ].
  intros [= <-]. unfold rows. simpl. rewrite length_app. lia.
Qed.

(** What a step of the incremental loop does to the words: the row gets
    one word, and the object gets that word. *)
Lemma addWord_shape (E : External) (s : Settings) (d : Mat) (objectId : Z)
    (results : option (list KnnRow)) (v v' : Vocabulary) (ws ws' : Words) (i : nat) :
  addWord E s d objectId results (v, ws) i = Some (v', ws') ->
  exists w,
    ws' = winsert w (Z.of_nat i) ws
    /\ wordToObjects_ v' = winsert w objectId (wordToObjects_ v)
    /\ indexedDescriptors_ v' = indexedDescriptors_ v
    /\ rows (notIndexedDescriptors_ v') <= rows (notIndexedDescriptors_ v) + 1.
Proof.
  unfold addWord. destruct (nndr E _ _) as [ w | ].
  - intros [= <- <-]. exists w. simpl. conjs; auto. lia.
  - destruct (push_back _ _) as [ m | ] eqn:Hp; [ | discriminate ].
    cbn [bind]. intros [= <- <-]. eexists. simpl. conjs; try reflexivity.
    apply push_back_rows in Hp. exact Hp.
Qed.

(** The rows of a loop of [addWords] with the words they were given. *)
Definition assigned (objectId : Z) (l : list nat) (v v' : Vocabulary) (ws ws' : Words) : Prop :=
  exists added : Words,
    map snd added = map Z.of_nat l
    /\ Permutation ws' (added ++ ws)
    /\ Permutation (wordToObjects_ v') (map (fun p => (fst p, objectId)) added ++ wordToObjects_ v).

Lemma assigned_step (objectId w : Z) (i : nat) (l : list nat) (v v1 v' : Vocabulary)
    (ws ws' : Words) :
  wordToObjects_ v1 = winsert w objectId (wordToObjects_ v) ->
  assigned objectId l v1 v' (winsert w (Z.of_nat i) ws) ws' ->
  assigned objectId (i :: l) v v' ws ws'.
Proof.
  intros Hv [added [H1 [H2 H3]]]. exists ((w, Z.of_nat i) :: added). simpl. conjs.
  - rewrite H1. reflexivity.
  - eapply perm_trans; [ exact H2 | ].
    eapply perm_trans; [ apply Permutation_app_head; apply q_insert_perm | ].
    apply Permutation_sym. apply (Permutation_middle added ws (w, Z.of_nat i)).
  - eapply perm_trans; [ exact H3 | ]. rewrite Hv.
    eapply perm_trans; [ apply Permutation_app_head; apply q_insert_perm | ].
    apply Permutation_sym.
    apply (Permutation_middle (map (fun p => (fst p, objectId)) added) (wordToObjects_ v)
             (w, objectId)).
Qed.

Lemma addWord_loop_words (E : External) (s : Settings) (d : Mat) (objectId : Z)
    (results : option (list KnnRow)) (l : list nat) :
  forall v ws v' ws',
    for_each (addWord E s d objectId results) l (v, ws) = Some (v', ws') ->
    assigned objectId l v v' ws ws'
    /\ indexedDescriptors_ v' = indexedDescriptors_ v
    /\ rows (notIndexedDescriptors_ v') <= rows (notIndexedDescriptors_ v) + length l.
Proof.
  induction l as [ | i l IH ]; intros v ws v' ws' H.
  - simpl in H. injection H as <- <-. split; [ | simpl; split; [ reflexivity | lia ] ].
    exists []. simpl. conjs; auto.
  - rewrite for_each_cons in H.
    destruct (addWord E s d objectId results (v, ws) i) as [ [v1 ws1] | ] eqn:Hstep;
      [ | discriminate H ].
    cbn [bind] in H. apply addWord_shape in Hstep.
    destruct Hstep as [w [-> [Hw [Hi Hr]]]].
    destruct (IH _ _ _ _ H) as [Ha [Hi' Hr']]. conjs.
    + exact (assigned_step objectId w i l v v1 v' ws ws' Hw Ha).
    + congruence.
    + simpl. lia.
Qed.

Lemma addWord_fresh_words (objectId : Z) (l : list nat) :
  forall v ws v' ws',
    fold_left (addWord_fresh objectId) l (v, ws) = (v', ws') ->
    assigned objectId l v v' ws ws'
    /\ indexedDescriptors_ v' = indexedDescriptors_ v
    /\ notIndexedDescriptors_ v' = notIndexedDescriptors_ v.
Proof.
  induction l as [ | i l IH ]; intros v ws v' ws' H.
  - simpl in H. injection H as <- <-. split; [ | split; reflexivity ].
    exists []. simpl. conjs; auto.
  - cbn [fold_left] in H. unfold addWord_fresh at 2 in H.
    destruct (IH _ _ _ _ H) as [Ha [Hi Hr]]. split; [ | split; [ exact Hi | exact Hr ] ].
    eapply assigned_step; [ | exact Ha ]. reflexivity.
Qed.

(** What [addWords] does to the words, whenever it returns. *)
Lemma addWords_assigned (E : External) (s : Settings) (v v' : Vocabulary) (d : Mat)
    (objectId : Z) (incremental : bool) (ws : Words) :
  addWords E s v d objectId incremental = Some (v', ws) ->
  (empty d = true /\ v' = v /\ ws = [])
  \/ (empty d = false
      /\ assigned objectId (seq 0 (rows d)) v v' [] ws
      /\ size v' <= size v + rows d).
Proof.
  unfold addWords. destruct (empty d) eqn:Hd.
  - intros [= <- <-]. left. auto.
  - intros Ha. right. split; [ reflexivity | ]. destruct incremental.
    + apply addWord_loop_words in Ha. destruct Ha as [H1 [H2 H3]].
      split; [ exact H1 | ]. rewrite length_seq in H3. unfold size. rewrite H2. lia.
    + destruct (fold_left _ _ _) as [v1 ws1] eqn:Hfold.
      apply addWord_fresh_words in Hfold. destruct Hfold as [H1 [H2 H3]].
      destruct (push_back _ _) as [ m | ] eqn:Hp; [ | discriminate Ha ].
      cbn [bind] in Ha. injection Ha as <- <-.
      split.
      * destruct H1 as [added H1]. exists added. exact H1.
      * apply push_back_rows in Hp. rewrite H3 in Hp. unfold size. simpl.
        rewrite H2. lia.
Qed.

(** The rows and the words of the object after [addWords]. *)
Lemma addWords_rows (objectId : Z) (v v' : Vocabulary) (d : Mat) (ws : Words) :
  (empty d = true /\ v' = v /\ ws = [])
  \/ (empty d = false
      /\ assigned objectId (seq 0 (rows d)) v v' [] ws
      /\ size v' <= size v + rows d) ->
  Permutation (map snd ws) (if empty d then [] else map Z.of_nat (seq 0 (rows d)))
  /\ Permutation (wordToObjects_ v') (map (fun p => (fst p, objectId)) ws ++ wordToObjects_ v)
  /\ size v' <= size v + length ws
  /\ (empty d = false -> length ws = rows d).
Proof.
  intros [ [Hd [-> ->]] | [Hd [[added [H1 [H2 H3]]] Hs]] ]; rewrite Hd.
  - simpl. conjs; auto; try lia.
  - rewrite app_nil_r in H2.
    assert (Hlen : length ws = rows d).
    { rewrite (Permutation_length H2), <- (length_map snd), H1, length_map, length_seq.
      reflexivity. }
    conjs.
    + rewrite <- H1. apply Permutation_map. exact H2.
    + eapply perm_trans; [ exact H3 | ]. apply Permutation_app_tail.
      apply Permutation_map. apply Permutation_sym. exact H2.
    + lia.
    + intros _. exact Hlen.
Qed.

(** X4: [addWords], incremental or not, gives every row of the
    descriptors exactly one word and gives the object exactly these words:
    the values of the returned map are the row numbers, each once, and
    [wordToObjects_] grows by one entry of the object per row, under the
    word of the row.  The words are words of the vocabulary, which grows
    by at most one word per row.  No row gets a word when the matrix is
    empty. *)
Theorem addWords_gives_every_row_a_word (E : External) (s : Settings) (v : Vocabulary)
    (d : Mat) (objectId : Z) (incremental : bool) :
  in_range E -> Inv v -> fits v d ->
  exists v' ws,
    addWords E s v d objectId incremental = Some (v', ws)
    /\ Permutation (map snd ws) (if empty d then [] else map Z.of_nat (seq 0 (rows d)))
    /\ Permutation (wordToObjects_ v')
         (map (fun p => (fst p, objectId)) ws ++ wordToObjects_ v)
    /\ known v' ws
    /\ size v <= size v' <= size v + length ws.
Proof.
  intros HE HI Hfit.
  destruct (addWords_Inv E s v d objectId incremental HE HI Hfit)
    as [v' [ws [Ha [_ [Hk Hsize]]]]].
  exists v', ws. split; [ exact Ha | ].
  destruct (addWords_rows objectId v v' d ws (addWords_assigned _ _ _ _ _ _ _ _ Ha))
    as [H1 [H2 [H3 _]]].
  conjs; auto.
Qed.

Lemma addWords_gives_every_row_a_word_witness :
  let v := Vocabulary0 in
  let d := mkMat [[1]; [2]; [1]]%Q 1 5 in
  exists v' ws,
    addWords Example.E Example.settings v d 7%Z true = Some (v', ws)
    /\ Permutation (map snd ws) (if empty d then [] else map Z.of_nat (seq 0 (rows d)))
    /\ Permutation (wordToObjects_ v') (map (fun p => (fst p, 7%Z)) ws ++ wordToObjects_ v)
    /\ known v' ws
    /\ size v <= size v' <= size v + length ws.
Proof.
  exact (addWords_gives_every_row_a_word Example.E Example.settings Vocabulary0
           (mkMat [[1]; [2]; [1]]%Q 1 5) 7%Z true example_in_range (clear_Inv Vocabulary0)
           (fits_clear Vocabulary0 _)).
Defined.

Lemma push_back_data (m e m' : Mat) :
  wf m -> push_back m e = Some m' -> data m' = data m ++ data e.
Proof.
  intros Hwf. unfold push_back. destruct (Nat.eqb_spec (rows e) 0) as [ H0 | H0 ].
  - intros [= <-]. apply length_zero_iff_nil in H0. rewrite H0, app_nil_r. reflexivity.
  - destruct (empty m) eqn:Hm.
    + intros [= <-]. pose proof (Hwf Hm) as Hr. apply length_zero_iff_nil in Hr.
      rewrite Hr. reflexivity.
    + destruct (negb (cols m =? cols e)%nat); [ discriminate | ].
      destruct (negb (type m =? type e)%nat); [ discriminate | ].
      intros [= <-]. reflexivity.
Qed.

(** X5: [update] puts the staged rows behind the rows of the index, in
    their order, so that the id of a word stays the row of its descriptor;
    the staging block is left empty, the words keep their objects, a
    vocabulary that has words has its FLANN index rebuilt over all rows,
    and a second [update] changes nothing. *)
Theorem update_appends_staging (v : Vocabulary) :
  Inv v ->
  exists v',
    update v = Some v'
    /\ data (indexedDescriptors_ v')
       = data (indexedDescriptors_ v) ++ data (notIndexedDescriptors_ v)
    /\ flushed v'
    /\ wordToObjects_ v' = wordToObjects_ v
    /\ (size v' <> 0 -> flannIndex_ v' = indexedDescriptors_ v')
    /\ update v' = Some v'.
Proof.
  intros [Hids Hdense Hwi Hws Hc Hf]. unfold update at 1.
  destruct (empty (notIndexedDescriptors_ v)) eqn:Hs; cbn [negb bind].
  - pose proof (Hws Hs) as Hr.
    assert (Hnil : notIndexedWordIds_ v = []) by (rewrite Hids, Hr; reflexivity).
    assert (Hdata : data (notIndexedDescriptors_ v) = [])
      by (apply length_zero_iff_nil; exact Hr).
    destruct (empty (indexedDescriptors_ v)) eqn:Hi; cbn [negb].
    + exists v. rewrite Hdata, app_nil_r. conjs; auto.
      * split; assumption.
      * intros Hne. exfalso. apply Hne. unfold size. rewrite (Hwi Hi), Hr. reflexivity.
      * unfold update. rewrite Hs. cbn [negb bind]. rewrite Hi. reflexivity.
    + eexists. split; [ reflexivity | ]. simpl. rewrite Hdata, app_nil_r. conjs; auto.
      * split; assumption.
      * unfold update. cbn [notIndexedDescriptors_ indexedDescriptors_]. rewrite Hs.
        cbn [negb bind indexedDescriptors_]. rewrite Hi. reflexivity.
  - destruct (push_back_nonempty _ _ Hwi Hs Hc) as [m [Hp [Hr [Hm _]]]].
    rewrite Hp. cbn [bind indexedDescriptors_]. rewrite Hm. cbn [negb].
    eexists. split; [ reflexivity | ]. simpl. conjs; auto.
    + exact (push_back_data _ _ _ Hwi Hp).
    + split; reflexivity.
    + unfold update. cbn [notIndexedDescriptors_ indexedDescriptors_].
      change (empty Mat0) with true. cbn [negb bind indexedDescriptors_]. rewrite Hm.
      reflexivity.
Qed.

Lemma update_appends_staging_witness :
  let v := mkVocabulary (mkMat [[1]]%Q 1 5) (mkMat [[2]; [3]]%Q 1 5)
             [(0, 7); (1, 7); (2, 8)]%Z [1; 2]%Z (mkMat [[1]]%Q 1 5) in
  exists v',
    update v = Some v'
    /\ data (indexedDescriptors_ v')
       = data (indexedDescriptors_ v) ++ data (notIndexedDescriptors_ v)
    /\ flushed v'
    /\ wordToObjects_ v' = wordToObjects_ v
    /\ (size v' <> 0 -> flannIndex_ v' = indexedDescriptors_ v')
    /\ update v' = Some v'.
Proof.
  apply update_appends_staging. constructor; simpl.
  - reflexivity.
  - intros w. unfold size. simpl. split.
    + intros [ <- | [ <- | [ <- | [] ] ] ]; lia.
    + intros H. lia.
  - intros H. discriminate H.
  - intros H. discriminate H.
  - intros _ _. split; reflexivity.
  - intros _. reflexivity.
Defined.

(** The non-incremental loop on a vocabulary whose words are all below
    the next id: the new entries are appended, in the order of the rows. *)
Lemma addWord_fresh_exact (objectId : Z) (n : nat) :
  forall a v ws,
    (forall p, In p (wordToObjects_ v) -> (fst p < Z.of_nat (size v + a))%Z) ->
    (forall p, In p ws -> (fst p < Z.of_nat (size v + a))%Z) ->
    fold_left (addWord_fresh objectId) (seq a n) (v, ws)
    = (mkVocabulary (indexedDescriptors_ v) (notIndexedDescriptors_ v)
         (wordToObjects_ v ++ map (fun i => (Z.of_nat (size v + i), objectId)) (seq a n))
         (notIndexedWordIds_ v ++ map (fun i => Z.of_nat (size v + i)) (seq a n))
         (flannIndex_ v),
       ws ++ map (fun i => (Z.of_nat (size v + i), Z.of_nat i)) (seq a n)).
Proof.
  induction n as [ | n IH ]; intros a v ws Hv Hw.
  - simpl. rewrite !app_nil_r. destruct v; reflexivity.
  - cbn [seq fold_left]. unfold addWord_fresh at 2.
    change (rows (indexedDescriptors_ v) + rows (notIndexedDescriptors_ v)) with (size v).
    rewrite (winsert_last _ _ _ Hv), (winsert_last _ _ _ Hw).
    rewrite IH.
    + unfold size. simpl. rewrite <- !app_assoc. reflexivity.
    + intros p Hp. unfold size in *. simpl in *. apply in_app_or in Hp.
      destruct Hp as [ Hp | [ <- | [] ] ]; [ specialize (Hv p Hp) | simpl ]; lia.
    + intros p Hp. unfold size in *. simpl in *. apply in_app_or in Hp.
      destruct Hp as [ Hp | [ <- | [] ] ]; [ specialize (Hw p Hp) | simpl ]; lia.
Qed.

(** The vocabulary of a scene: its descriptors are the index, word [i] is
    row [i] and belongs to no object (-1). *)
Definition sceneIndex (d : Mat) : Vocabulary :=
  mkVocabulary d Mat0 (map (fun i => (Z.of_nat i, (-1)%Z)) (seq 0 (rows d))) [] d.

(** The words of a scene: the word of row [i] is [i]. *)
Definition sceneWords (d : Mat) : Words :=
  map (fun i => (Z.of_nat i, Z.of_nat i)) (seq 0 (rows d)).

Lemma identity_values_none (n : nat) :
  forall a j, (j < Z.of_nat a)%Z ->
    MultiMap.values Z.ltb j (map (fun i => (Z.of_nat i, Z.of_nat i)) (seq a n)) = [].
Proof.
  unfold MultiMap.values, MultiMap.eqk.
  induction n as [ | n IH ]; intros a j H; simpl; [ reflexivity | ].
  destruct (Z.ltb_spec j (Z.of_nat a)); [ | lia ]. simpl. apply IH. lia.
Qed.

Lemma identity_values (n : nat) :
  forall a j, (Z.of_nat a <= j < Z.of_nat (a + n))%Z ->
    MultiMap.values Z.ltb j (map (fun i => (Z.of_nat i, Z.of_nat i)) (seq a n)) = [j].
Proof.
  induction n as [ | n IH ]; intros a j H; [ lia | ].
  destruct (Z.eq_dec j (Z.of_nat a)) as [ -> | Hne ].
  - pose proof (identity_values_none n (S a) (Z.of_nat a)) as Hrest.
    unfold MultiMap.values, MultiMap.eqk in *. simpl.
    rewrite Z.ltb_irrefl. simpl. rewrite Hrest; [ reflexivity | lia ].
  - specialize (IH (S a) j). unfold MultiMap.values, MultiMap.eqk in *. simpl.
    destruct (Z.ltb_spec j (Z.of_nat a)); [ lia | ].
    destruct (Z.ltb_spec (Z.of_nat a) j); [ | lia ]. simpl. apply IH. lia.
Qed.

Lemma rows_nonempty (d : Mat) : empty d = false -> (rows d =? 0)%nat = false.
Proof.
  intros H. apply empty_false in H. apply Nat.eqb_neq. tauto.
Qed.

Lemma indexScene_exact (E : External) (s : Settings) (fo : FindObject) (d : Mat) :
  General_vocabularyIncremental s = false -> empty d = false ->
  indexScene E s fo d = Some (setVocabulary fo (sceneIndex d), sceneWords d).
Proof.
  intros Hinc Hd. unfold indexScene, addWords. rewrite Hinc, Hd.
  rewrite addWord_fresh_exact; [ | intros p [] | intros p [] ].
  unfold push_back at 1. cbn [clear notIndexedDescriptors_ indexedDescriptors_].
  rewrite (rows_nonempty d Hd). change (empty Mat0) with true.
  cbn [bind fst snd negb]. unfold update. cbn [notIndexedDescriptors_ indexedDescriptors_].
  rewrite Hd. cbn [negb]. unfold push_back. rewrite (rows_nonempty d Hd).
  change (empty Mat0) with true. cbn [bind indexedDescriptors_]. rewrite Hd.
  reflexivity.
Qed.

(** X6: without the incremental mode, the index of a scene is made of
    the scene descriptors themselves: after [clear], [addWords] and
    [update] the indexed matrix and the matrix FLANN is built over are the
    descriptors, nothing is staged, every word belongs to no object (-1),
    and the word of scene descriptor [j] is [j], once: the neighbour a
    search returns is the number of a scene descriptor. *)
Theorem indexScene_is_identity (E : External) (s : Settings) (fo : FindObject) (d : Mat) :
  General_vocabularyIncremental s = false -> empty d = false ->
  indexScene E s fo d = Some (setVocabulary fo (sceneIndex d), sceneWords d)
  /\ forall j, (0 <= j < Z.of_nat (rows d))%Z ->
       MultiMap.count Z.ltb j (sceneWords d) = 1
       /\ MultiMap.value Z.ltb 0%Z j (sceneWords d) = j.
Proof.
  intros Hinc Hd. split; [ apply indexScene_exact; assumption | ].
  intros j Hj. unfold MultiMap.count, MultiMap.value, sceneWords.
  rewrite (identity_values (rows d) 0 j); [ split; reflexivity | simpl; lia ].
Qed.

Lemma indexScene_is_identity_witness :
  let d := mkMat [[1]; [2]]%Q 1 5 in
  indexScene Example.E Example.settings Example.built d
  = Some (setVocabulary Example.built (sceneIndex d), sceneWords d)
  /\ forall j, (0 <= j < Z.of_nat (rows d))%Z ->
       MultiMap.count Z.ltb j (sceneWords d) = 1
       /\ MultiMap.value Z.ltb 0%Z j (sceneWords d) = j.
Proof.
  apply (indexScene_is_identity Example.E Example.settings Example.built
           (mkMat [[1]; [2]]%Q 1 5)); reflexivity.
Defined.

End VocabularyWords.

(** ** [detect]: when it compares, and what it leaves *)

Module Detecting.
Import VocabularyInvariant.

(** X7: a query row is matched exactly when it passes every test that
    is enabled: the NNDR test when [NearestNeighbor_3nndrRatioUsed], the
    minimum distance when [NearestNeighbor_5minDistanceUsed]; with no test
    enabled every row is matched to its nearest neighbour. *)
Theorem matched_iff_every_enabled_test (E : External) (s : Settings) (r : KnnRow) :
  matched E s r
  = implb (NearestNeighbor_3nndrRatioUsed s)
      (Qle_bool (dist_at r 0) (fmul E (NearestNeighbor_4nndrRatio s) (dist_at r 1)))
    && implb (NearestNeighbor_5minDistanceUsed s)
         (Qle_bool (dist_at r 0) (NearestNeighbor_6minDistance s)).
Proof.
  unfold matched.
  destruct (NearestNeighbor_3nndrRatioUsed s), (NearestNeighbor_5minDistanceUsed s),
    (Qle_bool (dist_at r 0) (fmul E (NearestNeighbor_4nndrRatio s) (dist_at r 1))),
    (Qle_bool (dist_at r 0) (NearestNeighbor_6minDistance s)); reflexivity.
Qed.

(** The scene as [detect] has it before the comparison. *)
Definition sceneInfo (E : External) (s : Settings) (img : Mat) : DetectionInfo :=
  mkDetectionInfo (fst (extractFeatures E s img)) (snd (extractFeatures E s img)) [] Qm1 Qm1.


(** The index of the scene is always built. *)
Lemma indexScene_returns (E : External) (s : Settings) (fo : FindObject) (d : Mat) :
  in_range E ->
  exists v ws, indexScene E s fo d = Some (setVocabulary fo v, ws) /\ Inv v.
Proof.
  intros HE. unfold indexScene.
  destruct (addWords_Inv E s (clear (vocabulary_ fo)) d (-1)%Z
              (General_vocabularyIncremental s) HE (clear_Inv _) (fits_clear _ d))
    as [v1 [ws [Ha [HI _]]]].
  rewrite Ha. cbn [bind fst snd]. destruct (General_vocabularyIncremental s); cbn [negb].
  - cbn [bind]. exists v1, ws. auto.
  - destruct (update_Inv v1 HI) as [v2 [Hu [HI2 _]]]. rewrite Hu. cbn [bind].
    exists v2, ws. auto.
Qed.

(** The single matrix of the example library has three rows, and the
    range map gives each of them its object. *)
Lemma built_matchingDefined : matchingDefined Example.settings Example.built.
Proof.
  vm_compute. intros [ | [ | [ | i ] ] ] Hi; [ | | | lia ];
    (eexists; eexists; eexists; split; reflexivity).
Qed.

(** Two workers: the thread count is not negative. *)
Lemma builtThreaded_matchingDefined : matchingDefined Example.threaded Example.builtThreaded.
Proof.
  vm_compute. discriminate.
Qed.



End Detecting.

(** ** What [updateVocabulary] builds *)

Module BuildingVocabulary.
Import VocabularyInvariant UpdateVocabulary LibraryMap LibraryInvariant.

(** What the verification loop found, on a library it accepts: the number
    of rows and the width and type of every matrix that is not empty. *)
Lemma verified (fo : FindObject) (count dim ty : Z) :
  for_each verifyDescriptors (QMap.values (objects_ fo)) (0%Z, (-1)%Z, (-1)%Z)
  = Some (count, dim, ty) ->
  count = Z.of_nat (usedRows (QMap.values (objects_ fo)))
  /\ forall o, In o (QMap.values (objects_ fo)) -> empty (descriptors o) = false ->
       cols (descriptors o) = Z.to_nat dim /\ type (descriptors o) = Z.to_nat ty.
Proof.
  intros H. apply verify_Some in H. destruct H as [H1 [_ [_ H2]]]. split; [ lia | ].
  intros o Ho Hne. destruct (H2 o Ho Hne). split; lia.
Qed.

(** X9: on a library without features (no object, or no object with a
    descriptor matrix that is not empty) [updateVocabulary] builds
    nothing: it leaves what [clearVocabulary] leaves, and [detect] then
    refuses every scene that has keypoints. *)
Theorem updateVocabulary_without_features (E : External) (s : Settings) (fo : FindObject) :
  usedRows (QMap.values (objects_ fo)) = 0 ->
  updateVocabulary E s fo = Some (clearVocabulary fo)
  /\ forall E' s' img,
       detect_keypoints E' img <> [] ->
       exists i, detect E' s' (clearVocabulary fo) img
                 = Some (mkDetection false i (clearVocabulary fo) []).
Proof.
  intros H0. split.
  - unfold updateVocabulary. change (objects_ (clearVocabulary fo)) with (objects_ fo).
    destruct (for_each verifyDescriptors _ _) as [ [[count dim] ty] | ] eqn:Hv;
      [ | reflexivity ].
    apply verified in Hv. destruct Hv as [-> _]. rewrite H0. reflexivity.
  - intros E' s' img Hkp.
    destruct (Library.detect_without_store E' s' (clearVocabulary fo) img eq_refl)
      as [b [i [Hd [_ Hb]]]].
    exists i. rewrite (Hb Hkp) in Hd. exact Hd.
Qed.

Lemma updateVocabulary_without_features_witness :
  let fo := fst (addObject Example.FindObject0 (Example.object 0 "a.png")) in
  updateVocabulary Example.E Example.settings fo = Some (clearVocabulary fo)
  /\ forall E' s' img,
       detect_keypoints E' img <> [] ->
       exists i, detect E' s' (clearVocabulary fo) img
                 = Some (mkDetection false i (clearVocabulary fo) []).
Proof.
  apply (updateVocabulary_without_features Example.E Example.settings
           (fst (addObject Example.FindObject0 (Example.object 0 "a.png")))).
  reflexivity.
Defined.

(** The store of the multi-threaded search: folding the inserts over a
    keyed library gives one entry per object, in the order of the ids. *)
Lemma store_per_object (l2 : QMap.t ObjSignature) :
  forall l1,
    sorted (l1 ++ l2) -> (forall k o, In (k, o) (l1 ++ l2) -> id o = k) ->
    fold_left (fun m o => QMap.insert (id o) (descriptors o) m) (QMap.values l2)
      (map (fun e => (fst e, descriptors (snd e))) l1)
    = map (fun e => (fst e, descriptors (snd e))) (l1 ++ l2).
Proof.
  induction l2 as [ | [k o] l2 IH ]; intros l1 Hs Hid.
  - simpl. rewrite app_nil_r. reflexivity.
  - unfold QMap.values. cbn [map fold_left snd].
    assert (Hk : id o = k) by (apply Hid; apply in_or_app; right; left; reflexivity).
    rewrite Hk, insert_last.
    + replace (map (fun e => (fst e, descriptors (snd e))) l1 ++ [(k, descriptors o)])
        with (map (fun e : Z * ObjSignature => (fst e, descriptors (snd e))) (l1 ++ [(k, o)]))
        by (rewrite map_app; reflexivity).
      change (map snd l2) with (QMap.values l2).
      rewrite IH; rewrite <- app_assoc; [ reflexivity | exact Hs | exact Hid ].
    + intros q Hq. apply in_map_iff in Hq. destruct Hq as [q0 [<- Hq0]].
      exact (sorted_prefix _ _ _ _ Hs q0 Hq0).
Qed.

(** X10: in object-to-scene mode with a thread count other than 1, on a
    keyed library that has features and whose matrices agree,
    [updateVocabulary] stores one descriptor matrix per object under the
    id of the object (also for an object without descriptors), leaves the
    range map and the vocabulary empty and does not touch the objects. *)
Theorem updateVocabulary_one_matrix_per_object (E : External) (s : Settings)
    (fo : FindObject) :
  wellKeyed fo ->
  General_invertedSearch s = false -> General_threads s <> 1%Z ->
  consistent (QMap.values (objects_ fo)) ->
  usedRows (QMap.values (objects_ fo)) <> 0 ->
  updateVocabulary E s fo
  = Some (mkFindObject (objects_ fo) (clear (vocabulary_ fo))
            (map (fun e => (fst e, descriptors (snd e))) (objects_ fo)) []
            (General_nextObjID fo)).
Proof.
  intros [Hs Hid] Hinv Hthreads Hcons Hrows. unfold updateVocabulary.
  change (objects_ (clearVocabulary fo)) with (objects_ fo).
  destruct (verify_consistent (QMap.values (objects_ fo)) 0%Z (-1)%Z (-1)%Z Hcons)
    as [[[count dim] ty] Hv]; [ intros o _ _; split; lia | ].
  rewrite Hv. apply verified in Hv. destruct Hv as [-> _].
  destruct (Z.eqb_spec (Z.of_nat (usedRows (QMap.values (objects_ fo)))) 0); [ lia | ].
  rewrite Hinv. cbn [orb]. destruct (Z.eqb_spec (General_threads s) 1); [ contradiction | ].
  pose proof (store_per_object (objects_ fo) [] Hs Hid) as Hstore.
  cbn [app map] in Hstore. do 2 f_equal. exact Hstore.
Qed.

Lemma updateVocabulary_one_matrix_per_object_witness :
  updateVocabulary Example.E Example.threaded Example.library
  = Some (mkFindObject (objects_ Example.library) (clear (vocabulary_ Example.library))
            (map (fun e => (fst e, descriptors (snd e))) (objects_ Example.library)) []
            (General_nextObjID Example.library)).
Proof.
  apply (updateVocabulary_one_matrix_per_object Example.E Example.threaded Example.library).
  - exact library_wellKeyed.
  - reflexivity.
  - discriminate.
  - exact library_consistent.
  - discriminate.
Defined.

(** *** The single matrix and its range map *)

(** The range map the copy loop builds from row [row] on: for every object
    with descriptors, its last row and its id. *)
Fixpoint ranges (row : nat) (l : list ObjSignature) : QMap.t Z :=
  match l with
  | [] => []
  | o :: l' =>
      if (rows (descriptors o) =? 0)%nat then ranges row l'
      else (Z.of_nat (row + rows (descriptors o)) - 1, id o)%Z
           :: ranges (row + rows (descriptors o)) l'
  end.

(** The rows of the objects, one object after the other. *)
Definition allRows (l : list ObjSignature) : list (list Q) :=
  concat (map (fun o => data (descriptors o)) l).

Lemma allRows_length (l : list ObjSignature) : length (allRows l) = totalRows l.
Proof.
  unfold allRows, totalRows. induction l as [ | o l IH ]; simpl; [ reflexivity | ].
  rewrite length_app, IH. reflexivity.
Qed.

Lemma firstn_exact (A : Type) (a b : list A) : firstn (length a) (a ++ b) = a.
Proof.
  rewrite firstn_app, Nat.sub_diag, firstn_all. simpl. apply app_nil_r.
Qed.

Lemma skipn_repeat (A : Type) (x : A) (n m : nat) : skipn n (repeat x m) = repeat x (m - n).
Proof.
  revert m. induction n as [ | n IH ]; intros m; simpl.
  - rewrite Nat.sub_0_r. reflexivity.
  - destruct m as [ | m ]; simpl; [ reflexivity | apply IH ].
Qed.

Lemma skipn_past (A : Type) (a : list A) (x : A) (n m : nat) :
  skipn (length a + n) (a ++ repeat x m) = repeat x (m - n).
Proof.
  rewrite skipn_app, skipn_all2 by lia.
  replace (length a + n - length a) with n by lia. apply skipn_repeat.
Qed.

(** The copy loop writes the rows of the objects one after the other and
    appends their ranges. *)
Lemma copy_loop (count dim ty : nat) (l : list ObjSignature) :
  forall W range,
    length W + totalRows l <= count ->
    (forall o, In o l -> rows (descriptors o) <> 0 ->
       cols (descriptors o) = dim /\ type (descriptors o) = ty) ->
    (forall q, In q range -> (fst q < Z.of_nat (length W))%Z) ->
    for_each (copyDescriptors count dim ty) l
      (W ++ repeat [] (count - length W), length W, range)
    = Some ((W ++ allRows l) ++ repeat [] (count - length (W ++ allRows l)),
            length (W ++ allRows l), range ++ ranges (length W) l).
Proof.
  unfold allRows, totalRows. induction l as [ | o l IH ]; intros W range Hroom Hagree Hkeys.
  - simpl. rewrite !app_nil_r. reflexivity.
  - rewrite for_each_cons. unfold copyDescriptors at 1. cbn [map concat list_sum ranges].
    simpl in Hroom.
    assert (Hlen : rows (descriptors o) = length (data (descriptors o))) by reflexivity.
    destruct (Nat.eqb_spec (rows (descriptors o)) 0) as [ H0 | H0 ]; cbn [negb bind].
    + assert (Hnil : data (descriptors o) = [])
        by (apply length_zero_iff_nil; rewrite <- Hlen; exact H0).
      rewrite Hnil. cbn [app]. apply IH; [ lia | | exact Hkeys ].
      intros o' Ho'. apply Hagree. right. exact Ho'.
    + destruct (Nat.leb_spec (length W + rows (descriptors o)) count); [ | lia ].
      destruct (Hagree o (or_introl eq_refl) H0) as [-> ->]. rewrite !Nat.eqb_refl.
      cbn [andb]. rewrite firstn_exact, skipn_past.
      rewrite insert_last by (intros q Hq; specialize (Hkeys q Hq); lia).
      replace (W ++ data (descriptors o) ++ repeat [] (count - length W - rows (descriptors o)))
        with ((W ++ data (descriptors o))
                ++ repeat [] (count - length (W ++ data (descriptors o)))).
      2:{ rewrite <- app_assoc, length_app, <- Hlen. do 3 f_equal. lia. }
      replace (length W + rows (descriptors o)) with (length (W ++ data (descriptors o)))
        by (rewrite length_app, <- Hlen; reflexivity).
      cbn [bind]. rewrite IH.
      * rewrite <- !app_assoc. reflexivity.
      * rewrite length_app, <- Hlen. lia.
      * intros o' Ho'. apply Hagree. right. exact Ho'.
      * intros q Hq. rewrite length_app, <- Hlen. apply in_app_or in Hq.
        destruct Hq as [ Hq | [ <- | [] ] ];
          [ specialize (Hkeys q Hq) | simpl; rewrite length_app, <- Hlen ]; lia.
Qed.

Lemma ranges_app (l1 l2 : list ObjSignature) (row : nat) :
  ranges row (l1 ++ l2) = ranges row l1 ++ ranges (row + totalRows l1) l2.
Proof.
  unfold totalRows. revert row. induction l1 as [ | o l1 IH ]; intros row; simpl.
  - rewrite Nat.add_0_r. reflexivity.
  - destruct (Nat.eqb_spec (rows (descriptors o)) 0) as [ H0 | H0 ].
    + rewrite IH, H0. reflexivity.
    + simpl. rewrite IH, Nat.add_assoc. reflexivity.
Qed.

Lemma ranges_keys (l : list ObjSignature) :
  forall row q, In q (ranges row l) -> (Z.of_nat row <= fst q < Z.of_nat (row + totalRows l))%Z.
Proof.
  unfold totalRows. induction l as [ | o l IH ]; intros row q; simpl; [ contradiction | ].
  destruct (Nat.eqb_spec (rows (descriptors o)) 0) as [ H0 | H0 ].
  - intros Hq. specialize (IH row q Hq). lia.
  - intros [ <- | Hq ]; [ simpl; lia | ]. specialize (IH _ q Hq). lia.
Qed.

(** The row that follows the last range of a map, or [base] when the map
    is empty. *)
Definition nextRow (base : Z) (b : QMap.t Z) : Z :=
  match rev b with
  | [] => base
  | (k, _) :: _ => (k + 1)%Z
  end.

Lemma nextRow_ranges (l : list ObjSignature) :
  forall row, nextRow (Z.of_nat row) (ranges row l) = Z.of_nat (row + totalRows l).
Proof.
  assert (Hfold : forall (b : QMap.t Z) base,
            nextRow base b = fold_left (fun _ q => (fst q + 1)%Z) b base).
  { intros b base. unfold nextRow. destruct b as [ | q b ] using rev_ind; [ reflexivity | ].
    rewrite rev_app_distr, fold_left_app. simpl. destruct q. reflexivity. }
  intros row. rewrite Hfold. unfold totalRows. revert row.
  induction l as [ | o l IH ]; intros row; simpl.
  - rewrite Nat.add_0_r. reflexivity.
  - destruct (Nat.eqb_spec (rows (descriptors o)) 0) as [ H0 | H0 ].
    + rewrite IH, H0. reflexivity.
    + simpl.
      replace (Z.of_nat (row + rows (descriptors o)) - 1 + 1)%Z
        with (Z.of_nat (row + rows (descriptors o))) by lia.
      rewrite IH, Nat.add_assoc. reflexivity.
Qed.

Lemma lowerBound_app (V : Type) (a b : QMap.t V) (i : Z) :
  (forall q, In q a -> (fst q < i)%Z) -> QMap.lowerBound i (a ++ b) = QMap.lowerBound i b.
Proof.
  induction a as [ | [k v] a IH ]; simpl; intros H; [ reflexivity | ].
  pose proof (H (k, v) (or_introl eq_refl)) as H0. simpl in H0.
  destruct (Z.ltb_spec k i); [ | lia ]. apply IH. intros q Hq. apply H. right. exact Hq.
Qed.

Lemma below_app (V : Type) (a b : QMap.t V) (i : Z) :
  (forall q, In q a -> (fst q < i)%Z) -> QMap.below i (a ++ b) = a ++ QMap.below i b.
Proof.
  induction a as [ | [k v] a IH ]; simpl; intros H; [ reflexivity | ].
  pose proof (H (k, v) (or_introl eq_refl)) as H0. simpl in H0.
  destruct (Z.ltb_spec k i); [ | lia ]. rewrite IH; [ reflexivity | ].
  intros q Hq. apply H. right. exact Hq.
Qed.

(** Looking a row up in the range map gives the object that owns it and
    the first row of that object. *)
Lemma ranges_lookup (l1 l2 : list ObjSignature) (o : ObjSignature) (j : nat) :
  j < rows (descriptors o) ->
  let i := Z.of_nat (totalRows l1 + j) in
  let range := ranges 0 (l1 ++ o :: l2) in
  (exists k rest, QMap.lowerBound i range = (k, id o) :: rest)
  /\ nextRow 0%Z (QMap.below i range) = Z.of_nat (totalRows l1).
Proof.
  intros Hj i range. unfold range. rewrite ranges_app. cbn [ranges Nat.add].
  destruct (Nat.eqb_spec (rows (descriptors o)) 0) as [ H0 | H0 ]; [ lia | ].
  assert (Hlt : forall q, In q (ranges 0 l1) -> (fst q < i)%Z).
  { intros q Hq. apply ranges_keys in Hq. unfold i. lia. }
  rewrite (lowerBound_app _ _ _ _ Hlt), (below_app _ _ _ _ Hlt). cbn [QMap.lowerBound QMap.below].
  destruct (Z.ltb_spec (Z.of_nat (totalRows l1 + rows (descriptors o)) - 1) i);
    [ unfold i in *; lia | ].
  split; [ eexists; eexists; reflexivity | ].
  rewrite app_nil_r. apply (nextRow_ranges l1 0).
Qed.

Lemma allRows_nth (l1 l2 : list ObjSignature) (o : ObjSignature) (j : nat) :
  j < rows (descriptors o) ->
  nth (totalRows l1 + j) (allRows (l1 ++ o :: l2)) [] = nth j (data (descriptors o)) [].
Proof.
  intros Hj. rewrite <- allRows_length. unfold allRows. rewrite map_app, concat_app.
  cbn [map concat]. rewrite app_nth2_plus. apply app_nth1. exact Hj.
Qed.

(** X11: in object-to-scene mode with one thread, on a library that has
    features and whose matrices agree, [updateVocabulary] stores a single
    matrix under key 0 that lists the descriptor rows of the objects one
    object after the other, in the order of the ids; and the range map is
    its inverse: for row [j] of an object, the row of the single matrix is
    that descriptor, and the lookup [detect] makes for this row finds the
    object and the row number [j] again, so that a match of the row is
    recorded for its object under [j]. *)
Theorem updateVocabulary_single_matrix (E : External) (s : Settings) (fo : FindObject) :
  General_invertedSearch s = false -> General_threads s = 1%Z ->
  consistent (QMap.values (objects_ fo)) ->
  (forall o, In o (QMap.values (objects_ fo)) -> wf (descriptors o)) ->
  totalRows (QMap.values (objects_ fo)) <> 0 ->
  exists dim ty fo',
    updateVocabulary E s fo = Some fo'
    /\ objects_ fo' = objects_ fo
    /\ vocabulary_ fo' = clear (vocabulary_ fo)
    /\ objectsDescriptors_ fo' = [(0%Z, mkMat (allRows (QMap.values (objects_ fo))) dim ty)]
    /\ (forall o, In o (QMap.values (objects_ fo)) -> empty (descriptors o) = false ->
          cols (descriptors o) = dim /\ type (descriptors o) = ty)
    /\ forall l1 o l2 j,
         QMap.values (objects_ fo) = l1 ++ o :: l2 -> j < rows (descriptors o) ->
         nth (totalRows l1 + j) (allRows (QMap.values (objects_ fo))) []
         = nth j (data (descriptors o)) []
         /\ forall sceneWords wordId m,
              insertDirect fo' sceneWords (totalRows l1 + j) wordId m
              = if (MultiMap.count Z.ltb wordId sceneWords =? 1)%nat
                then insertMatch (id o) (Z.of_nat j)
                       (MultiMap.value Z.ltb 0%Z wordId sceneWords) m
                else m.
Proof.
  intros Hinv Hthreads Hcons Hwf Hrows. unfold updateVocabulary.
  change (objects_ (clearVocabulary fo)) with (objects_ fo).
  set (l := QMap.values (objects_ fo)) in *.
  destruct (verify_consistent l 0%Z (-1)%Z (-1)%Z Hcons)
    as [[[count dim] ty] Hv]; [ intros o _ _; split; lia | ].
  rewrite Hv. apply verified in Hv. fold l in Hv. destruct Hv as [-> Hagree].
  rewrite (usedRows_totalRows l Hwf).
  destruct (Z.eqb_spec (Z.of_nat (totalRows l)) 0); [ lia | ].
  rewrite Hinv, Hthreads. cbn [orb Z.eqb Pos.eqb]. rewrite Nat2Z.id.
  pose proof (copy_loop (totalRows l) (Z.to_nat dim) (Z.to_nat ty) l [] []) as Hcopy.
  cbn [length app Nat.add] in Hcopy. rewrite Nat.sub_0_r, allRows_length, Nat.sub_diag in Hcopy.
  cbn [repeat] in Hcopy. rewrite app_nil_r in Hcopy.
  destruct (for_each (copyDescriptors _ _ _) l _) as [ [[g row] range] | ] eqn:Hloop.
  2:{ exfalso. assert (Hnone : @None (list (list Q) * nat * QMap.t Z) = Some
                    (allRows l, totalRows l, ranges 0 l)); [ | discriminate Hnone ].
      apply Hcopy; [ lia | | intros q [] ].
      intros o Ho H0. apply Hagree; [ exact Ho | ].
      destruct (empty (descriptors o)) eqn:He; [ | reflexivity ].
      exfalso. apply H0. exact (Hwf o Ho He). }
  assert (Hres : Some (g, row, range) = Some (allRows l, totalRows l, ranges 0 l)).
  { apply Hcopy; [ lia | | intros q [] ].
    intros o Ho H0. apply Hagree; [ exact Ho | ].
    destruct (empty (descriptors o)) eqn:He; [ | reflexivity ].
    exfalso. apply H0. exact (Hwf o Ho He). }
  injection Hres as -> -> ->. cbn [bind].
  exists (Z.to_nat dim), (Z.to_nat ty). eexists. split; [ reflexivity | ].
  cbn [objects_ vocabulary_ objectsDescriptors_]. conjs; try reflexivity.
  - exact Hagree.
  - intros l1 o l2 j Hl Hj. split; [ rewrite Hl; apply allRows_nth; exact Hj | ].
    intros sceneWords wordId m. unfold insertDirect. cbn [dataRange_]. rewrite Hl.
    destruct (ranges_lookup l1 l2 o j Hj) as [[k [rest Hlb]] Hnext]. cbv zeta in Hlb, Hnext.
    unfold nextRow in Hnext. rewrite Hlb, Hnext.
    replace (Z.of_nat (totalRows l1 + j) - Z.of_nat (totalRows l1))%Z with (Z.of_nat j) by lia.
    reflexivity.
Qed.

Lemma updateVocabulary_single_matrix_witness :
  let fo := Example.library in
  exists dim ty fo',
    updateVocabulary Example.E Example.settings fo = Some fo'
    /\ objects_ fo' = objects_ fo
    /\ vocabulary_ fo' = clear (vocabulary_ fo)
    /\ objectsDescriptors_ fo' = [(0%Z, mkMat (allRows (QMap.values (objects_ fo))) dim ty)]
    /\ (forall o, In o (QMap.values (objects_ fo)) -> empty (descriptors o) = false ->
          cols (descriptors o) = dim /\ type (descriptors o) = ty)
    /\ forall l1 o l2 j,
         QMap.values (objects_ fo) = l1 ++ o :: l2 -> j < rows (descriptors o) ->
         nth (totalRows l1 + j) (allRows (QMap.values (objects_ fo))) []
         = nth j (data (descriptors o)) []
         /\ forall sceneWords wordId m,
              insertDirect fo' sceneWords (totalRows l1 + j) wordId m
              = if (MultiMap.count Z.ltb wordId sceneWords =? 1)%nat
                then insertMatch (id o) (Z.of_nat j)
                       (MultiMap.value Z.ltb 0%Z wordId sceneWords) m
                else m.
Proof.
  apply (updateVocabulary_single_matrix Example.E Example.settings Example.library).
  - reflexivity.
  - reflexivity.
  - exact library_consistent.
  - exact library_wf.
  - discriminate.
Defined.

(** *** The vocabulary of the inverted search *)

Import VocabularyWords.

(** A matrix that is not empty has width [c] and type [t]. *)
Definition typedMat (c t : nat) (m : Mat) : Prop :=
  empty m = false -> cols m = c /\ type m = t.

Definition typed (c t : nat) (v : Vocabulary) : Prop :=
  typedMat c t (indexedDescriptors_ v) /\ typedMat c t (notIndexedDescriptors_ v).

Lemma push_back_typed (c t : nat) (m e m' : Mat) :
  push_back m e = Some m' -> typedMat c t m -> typedMat c t e -> typedMat c t m'.
Proof.
  unfold push_back. intros H Hm He. destruct (rows e =? 0)%nat; [ injection H as <-; exact Hm | ].
  destruct (empty m) eqn:Hem; [ injection H as <-; exact He | ].
  destruct (negb (cols m =? cols e)%nat); [ discriminate H | ].
  destruct (negb (type m =? type e)%nat); [ discriminate H | ].
  injection H as <-. intros _. simpl. exact (Hm Hem).
Qed.

Lemma typed_fits (c t : nat) (v : Vocabulary) (d : Mat) :
  typed c t v -> typedMat c t d -> fits v d.
Proof.
  intros [Hi Hs] Hd. split; intros H1 H2.
  - destruct (Hi H1), (Hd H2). split; congruence.
  - destruct (Hs H1), (Hd H2). split; congruence.
Qed.

Lemma addWord_typed (E : External) (s : Settings) (c t : nat) (d : Mat) (objectId : Z)
    (results : option (list KnnRow)) (v v' : Vocabulary) (ws ws' : Words) (i : nat) :
  addWord E s d objectId results (v, ws) i = Some (v', ws') ->
  typedMat c t d -> rows d <> 0 -> typed c t v -> typed c t v'.
Proof.
  unfold addWord. intros H Hd Hr [Hi Hs]. destruct (nndr E _ _) as [ w | ].
  - injection H as <- <-. split; assumption.
  - destruct (push_back _ _) as [ m | ] eqn:Hp; [ | discriminate H ].
    cbn [bind] in H. injection H as <- <-. split; [ exact Hi | ]. simpl.
    apply (push_back_typed c t _ _ _ Hp Hs).
    intros He. simpl. apply Hd. apply empty_false. apply empty_false in He.
    simpl in He. tauto.
Qed.

Lemma addWord_loop_typed (E : External) (s : Settings) (c t : nat) (d : Mat) (objectId : Z)
    (results : option (list KnnRow)) (l : list nat) :
  typedMat c t d -> rows d <> 0 ->
  forall v ws v' ws',
    for_each (addWord E s d objectId results) l (v, ws) = Some (v', ws') ->
    typed c t v -> typed c t v'.
Proof.
  intros Hd Hr. induction l as [ | i l IH ]; intros v ws v' ws' H Hv.
  - simpl in H. injection H as <- <-. exact Hv.
  - rewrite for_each_cons in H.
    destruct (addWord E s d objectId results (v, ws) i) as [ [v1 ws1] | ] eqn:Hstep;
      [ | discriminate H ].
    cbn [bind] in H. apply (IH v1 ws1 v' ws' H).
    exact (addWord_typed E s c t d objectId results v v1 ws ws1 i Hstep Hd Hr Hv).
Qed.

Lemma addWords_typed (E : External) (s : Settings) (c t : nat) (v v' : Vocabulary) (d : Mat)
    (objectId : Z) (incremental : bool) (ws : Words) :
  addWords E s v d objectId incremental = Some (v', ws) ->
  typedMat c t d -> typed c t v -> typed c t v'.
Proof.
  unfold addWords. intros H Hd Hv. destruct (empty d) eqn:He.
  - injection H as <- <-. exact Hv.
  - assert (Hr : rows d <> 0) by (apply empty_false in He; tauto).
    destruct incremental.
    + exact (addWord_loop_typed E s c t d objectId _ _ Hd Hr _ _ _ _ H Hv).
    + destruct (fold_left _ _ _) as [v1 ws1] eqn:Hfold.
      apply addWord_fresh_words in Hfold. destruct Hfold as [_ [H2 H3]].
      destruct (push_back _ _) as [ m | ] eqn:Hp; [ | discriminate H ].
      cbn [bind] in H. injection H as <- <-. destruct Hv as [Hi Hs]. split; simpl.
      * rewrite H2. exact Hi.
      * rewrite H3 in Hp. exact (push_back_typed c t _ _ _ Hp Hs Hd).
Qed.

Lemma update_typed (c t : nat) (v v' : Vocabulary) :
  update v = Some v' -> typed c t v -> typed c t v'.
Proof.
  unfold update. intros H [Hi Hs].
  destruct (empty (notIndexedDescriptors_ v)) eqn:He; cbn [negb bind] in H.
  - destruct (negb (empty (indexedDescriptors_ v))); injection H as <-; split; assumption.
  - destruct (push_back _ _) as [ m | ] eqn:Hp; [ | discriminate H ].
    cbn [bind indexedDescriptors_] in H.
    assert (Hm : typedMat c t m) by exact (push_back_typed c t _ _ _ Hp Hi Hs).
    destruct (negb (empty m)); injection H as <-; (split; simpl; [ exact Hm | ]);
      intros H0; discriminate H0.
Qed.

Lemma known_grows (v v' : Vocabulary) (ws : Words) :
  known v ws -> size v <= size v' -> known v' ws.
Proof.
  intros Hk Hle p Hp. specialize (Hk p Hp). lia.
Qed.

(** The entries of [wordToObjects_] that the words of the objects ask
    for: every word of an object, with the id of the object. *)
Definition wordsOf (objs : QMap.t ObjSignature) : Words :=
  concat (map (fun e => map (fun p => (fst p, id (snd e))) (words (snd e))) objs).

(** [e'] is the object [e] with words of the vocabulary, one for each of
    its descriptor rows. *)
Definition worded (v : Vocabulary) (e e' : Z * ObjSignature) : Prop :=
  fst e' = fst e
  /\ exists w,
       snd e' = setWords (snd e) w /\ known v w
       /\ Permutation (map snd w)
            (if empty (descriptors (snd e)) then []
             else map Z.of_nat (seq 0 (rows (descriptors (snd e))))).

Lemma wordsOf_snoc (objs : QMap.t ObjSignature) (k : Z) (o : ObjSignature) (ws : Words) :
  wordsOf (objs ++ [(k, setWords o ws)]) = wordsOf objs ++ map (fun p => (fst p, id o)) ws.
Proof.
  unfold wordsOf. rewrite map_app, concat_app. simpl. rewrite app_nil_r. reflexivity.
Qed.

(** The loop of [updateVocabulary] over the objects, in either mode. *)
Lemma vocabulary_loop (E : External) (s : Settings) (c t : nat) (l : list (Z * ObjSignature)) :
  in_range E ->
  (forall e, In e l -> typedMat c t (descriptors (snd e))) ->
  forall v added objs,
    Inv v -> typed c t v -> (0 <= added)%Z ->
    (0 < rows (notIndexedDescriptors_ v) -> (0 < added)%Z) ->
    Permutation (wordToObjects_ v) (wordsOf objs) ->
    exists v' added' newObjs,
      for_each (addObjectWords E s) l (v, added, objs) = Some (v', added', objs ++ newObjs)
      /\ Inv v' /\ (0 <= added')%Z
      /\ (0 < rows (notIndexedDescriptors_ v') -> (0 < added')%Z)
      /\ Permutation (wordToObjects_ v') (wordsOf (objs ++ newObjs))
      /\ size v <= size v' <= size v + totalRows (map snd l)
      /\ Forall2 (worded v') l newObjs.
Proof.
  intros HE. unfold totalRows.
  induction l as [ | [k o] l IH ]; intros Hd v added objs HI Ht Ha Hpos Hperm.
  - exists v, added, []. rewrite app_nil_r. simpl. conjs; auto; lia.
  - rewrite for_each_cons. unfold addObjectWords at 1. cbn [fst snd].
    pose proof (Hd (k, o) (or_introl eq_refl)) as Hdo. cbn [snd] in Hdo.
    destruct (addWords_Inv E s v (descriptors o) (id o) (General_vocabularyIncremental s)
                HE HI (typed_fits c t v _ Ht Hdo))
      as [v1 [ws [Hadd [HI1 [Hk1 Hs1]]]]].
    rewrite Hadd. cbn [bind fst snd].
    pose proof (addWords_typed E s c t v v1 _ _ _ ws Hadd Hdo Ht) as Ht1.
    destruct (addWords_rows (id o) v v1 (descriptors o) ws
                (addWords_assigned _ _ _ _ _ _ _ _ Hadd)) as [Hrows [Hw2o [Hs1' Hlen]]].
    assert (Hperm1 : Permutation (wordToObjects_ v1) (wordsOf (objs ++ [(k, setWords o ws)]))).
    { rewrite wordsOf_snoc. eapply perm_trans; [ exact Hw2o | ].
      eapply perm_trans; [ apply Permutation_app_head; exact Hperm | ].
      apply Permutation_app_comm. }
    assert (Hws : length ws <= rows (descriptors o)).
    { destruct (empty (descriptors o)) eqn:He.
      - apply Permutation_length in Hrows. rewrite length_map in Hrows. simpl in Hrows. lia.
      - rewrite (Hlen eq_refl). lia. }
    set (added1 := (added + Z.of_nat (length (MultiMap.uniqueKeys Z.ltb ws)))%Z).
    assert (Ha1 : (0 <= added1)%Z) by (unfold added1; lia).
    assert (Hpos1 : 0 < rows (notIndexedDescriptors_ v1) -> (0 < added1)%Z).
    { intros Hr. destruct ws as [ | p ws' ] eqn:Hwse.
      - destruct (addWords_assigned _ _ _ _ _ _ _ _ Hadd) as [ [_ [Hv _]] | [He [_ _]] ].
        + subst v1. unfold added1. simpl. specialize (Hpos Hr). lia.
        + specialize (Hlen He). apply empty_false in He. simpl in Hlen. lia.
      - assert (Hne : MultiMap.uniqueKeys Z.ltb (p :: ws') <> [])
          by (apply uniqueKeys_nonempty; discriminate).
        unfold added1. destruct (MultiMap.uniqueKeys Z.ltb (p :: ws')); [ congruence | ].
        simpl. lia. }
    fold added1.
    assert (Htail : forall e, In e l -> typedMat c t (descriptors (snd e)))
      by (intros e He; apply Hd; right; exact He).
    destruct (General_vocabularyIncremental s && negb (added1 =? 0)%Z
              && (General_vocabularyUpdateMinWords s <=? added1)%Z).
    + destruct (update_Inv v1 HI1) as [v2 [Hu [HI2 [[Hfl _] [_ [Hs2 Hw2]]]]]].
      rewrite Hu. cbn [bind].
      destruct (IH Htail v2 0%Z (objs ++ [(k, setWords o ws)]) HI2
                  (update_typed c t v1 v2 Hu Ht1))
        as [v' [added' [newObjs [Hloop [HI' [Ha' [Hpos' [Hperm' [Hs' HF]]]]]]]]].
      * lia.
      * rewrite Hfl. lia.
      * rewrite Hw2. exact Hperm1.
      * exists v', added', ((k, setWords o ws) :: newObjs).
        rewrite <- app_assoc in Hloop, Hperm'. conjs; auto.
        -- lia.
        -- simpl. lia.
        -- constructor; [ | exact HF ]. split; [ reflexivity | ].
           exists ws. conjs; auto. apply (known_grows v1); [ exact Hk1 | lia ].
    + destruct (IH Htail v1 added1 (objs ++ [(k, setWords o ws)]) HI1 Ht1 Ha1 Hpos1 Hperm1)
        as [v' [added' [newObjs [Hloop [HI' [Ha' [Hpos' [Hperm' [Hs' HF]]]]]]]]].
      exists v', added', ((k, setWords o ws) :: newObjs).
      rewrite <- app_assoc in Hloop, Hperm'. conjs; auto.
      * lia.
      * simpl. lia.
      * constructor; [ | exact HF ]. split; [ reflexivity | ].
        exists ws. conjs; auto. apply (known_grows v1); [ exact Hk1 | lia ].
Qed.

Lemma copy_all (dim ty : nat) (l : list ObjSignature) :
  (forall o, In o l -> wf (descriptors o)) ->
  (forall o, In o l -> empty (descriptors o) = false ->
     cols (descriptors o) = dim /\ type (descriptors o) = ty) ->
  for_each (copyDescriptors (totalRows l) dim ty) l (repeat [] (totalRows l), 0, [])
  = Some (allRows l, totalRows l, ranges 0 l).
Proof.
  intros Hwf Hagree.
  pose proof (copy_loop (totalRows l) dim ty l [] []) as Hcopy.
  cbn [length app Nat.add] in Hcopy. rewrite Nat.sub_0_r, allRows_length, Nat.sub_diag in Hcopy.
  cbn [repeat] in Hcopy. rewrite app_nil_r in Hcopy.
  apply Hcopy; [ lia | | intros q [] ].
  intros o Ho H0. apply Hagree; [ exact Ho | ].
  destruct (empty (descriptors o)) eqn:He; [ | reflexivity ].
  exfalso. apply H0. exact (Hwf o Ho He).
Qed.

Lemma worded_grows (v v' : Vocabulary) (e e' : Z * ObjSignature) :
  size v <= size v' -> worded v e e' -> worded v' e e'.
Proof.
  intros Hle [H1 [w [H2 [H3 H4]]]]. split; [ exact H1 | ].
  exists w. conjs; auto. exact (known_grows v v' w H3 Hle).
Qed.

(** The build of the inverted search, on a library the verification loop
    accepts and that has features. *)
Lemma inverted_build (E : External) (s : Settings) (fo : FindObject) (count dim ty : Z) :
  in_range E -> General_invertedSearch s = true ->
  (forall o, In o (QMap.values (objects_ fo)) -> wf (descriptors o)) ->
  for_each verifyDescriptors (QMap.values (objects_ fo)) (0%Z, (-1)%Z, (-1)%Z)
  = Some (count, dim, ty) ->
  count <> 0%Z ->
  exists fo',
    updateVocabulary E s fo = Some fo'
    /\ Inv (vocabulary_ fo') /\ flushed (vocabulary_ fo')
    /\ size (vocabulary_ fo') <= totalRows (QMap.values (objects_ fo))
    /\ Forall2 (worded (vocabulary_ fo')) (objects_ fo) (objects_ fo')
    /\ Permutation (wordToObjects_ (vocabulary_ fo')) (wordsOf (objects_ fo'))
    /\ objectsDescriptors_ fo'
       = [(0%Z, mkMat (allRows (QMap.values (objects_ fo))) (Z.to_nat dim) (Z.to_nat ty))].
Proof.
  intros HE Hinv Hwf Hv Hcount. unfold updateVocabulary.
  change (objects_ (clearVocabulary fo)) with (objects_ fo).
  change (vocabulary_ (clearVocabulary fo)) with (clear (vocabulary_ fo)).
  set (l := QMap.values (objects_ fo)) in *.
  rewrite Hv. apply verified in Hv. fold l in Hv. destruct Hv as [-> Hagree].
  rewrite (usedRows_totalRows l Hwf) in *.
  destruct (Z.eqb_spec (Z.of_nat (totalRows l)) 0); [ contradiction | ].
  rewrite Hinv. cbn [orb]. rewrite Nat2Z.id.
  pose proof (copy_all (Z.to_nat dim) (Z.to_nat ty) l Hwf Hagree) as Hcopy.
  destruct (for_each (copyDescriptors _ _ _) l _) as [ [[g row] range] | ];
    [ | discriminate Hcopy ].
  injection Hcopy as -> -> ->. cbn [bind].
  destruct (vocabulary_loop E s (Z.to_nat dim) (Z.to_nat ty) (objects_ fo) HE)
    with (v := clear (vocabulary_ fo)) (added := 0%Z) (objs := @nil (Z * ObjSignature))
    as [v' [added' [newObjs [Hloop [HI [Ha [Hpos [Hperm [Hs HF]]]]]]]]].
  - intros e He Hne. apply Hagree; [ | exact Hne ]. unfold l. apply in_map. exact He.
  - apply clear_Inv.
  - split; intros H; discriminate H.
  - lia.
  - unfold rows. simpl. lia.
  - apply Permutation_refl.
  - destruct (for_each (addObjectWords E s) _ _) as [ [[v0 added0] objs0] | ];
      [ | discriminate Hloop ].
    injection Hloop as -> -> ->. cbn [bind app]. cbn [app] in Hperm.
    change (size (clear (vocabulary_ fo))) with 0 in Hs.
    change (map snd (objects_ fo)) with l in Hs.
    destruct (Z.eqb_spec added' 0) as [ H0 | H0 ]; cbn [negb bind].
    + eexists. split; [ reflexivity | ]. cbn [vocabulary_ objects_ objectsDescriptors_].
      conjs; auto; try lia.
      assert (Hr : rows (notIndexedDescriptors_ v') = 0).
      { destruct (rows (notIndexedDescriptors_ v')); [ reflexivity | ].
        assert (0 < added')%Z by (apply Hpos; lia). lia. }
      split; [ exact Hr | ]. rewrite (inv_ids v' HI), Hr. reflexivity.
    + destruct (update_Inv v' HI) as [v2 [Hu [HI2 [Hfl [_ [Hs2 Hw2]]]]]].
      rewrite Hu. cbn [bind]. eexists. split; [ reflexivity | ].
      cbn [vocabulary_ objects_ objectsDescriptors_]. conjs; auto.
      * lia.
      * apply (Forall2_impl (worded v2)) with (2 := HF).
        intros e e'. apply worded_grows. lia.
      * rewrite Hw2. exact Hperm.
Qed.

(** X12: with inverted search, incremental or not, on a library that has
    features and whose matrices agree, [updateVocabulary] returns with a
    vocabulary that meets its invariant, has nothing staged and has at
    most one word per descriptor row.  Every object keeps its key and its
    data and gets words of the vocabulary, one for each of its descriptor
    rows; and [wordToObjects_] is the inverse of the words of the objects:
    one entry per word of an object, with the id of the object. *)
Theorem updateVocabulary_inverted_builds (E : External) (s : Settings) (fo : FindObject) :
  in_range E -> General_invertedSearch s = true ->
  consistent (QMap.values (objects_ fo)) ->
  (forall o, In o (QMap.values (objects_ fo)) -> wf (descriptors o)) ->
  totalRows (QMap.values (objects_ fo)) <> 0 ->
  exists fo',
    updateVocabulary E s fo = Some fo'
    /\ Inv (vocabulary_ fo') /\ flushed (vocabulary_ fo')
    /\ size (vocabulary_ fo') <= totalRows (QMap.values (objects_ fo))
    /\ Forall2 (worded (vocabulary_ fo')) (objects_ fo) (objects_ fo')
    /\ Permutation (wordToObjects_ (vocabulary_ fo')) (wordsOf (objects_ fo')).
Proof.
  intros HE Hinv Hcons Hwf Hrows.
  destruct (verify_consistent (QMap.values (objects_ fo)) 0%Z (-1)%Z (-1)%Z Hcons)
    as [[[count dim] ty] Hv]; [ intros o _ _; split; lia | ].
  destruct (inverted_build E s fo count dim ty HE Hinv Hwf Hv)
    as [fo' [H1 [H2 [H3 [H4 [H5 [H6 _]]]]]]].
  - apply verified in Hv. destruct Hv as [-> _]. rewrite (usedRows_totalRows _ Hwf). lia.
  - exists fo'. auto 10.
Qed.

Lemma updateVocabulary_inverted_builds_witness :
  let s := mkSettings 1 true true 2 false 30 0 true (8 # 10) false (16 # 10) 10 0 false in
  let fo := Example.library in
  exists fo',
    updateVocabulary Example.E s fo = Some fo'
    /\ Inv (vocabulary_ fo') /\ flushed (vocabulary_ fo')
    /\ size (vocabulary_ fo') <= totalRows (QMap.values (objects_ fo))
    /\ Forall2 (worded (vocabulary_ fo')) (objects_ fo) (objects_ fo')
    /\ Permutation (wordToObjects_ (vocabulary_ fo')) (wordsOf (objects_ fo')).
Proof.
  apply (updateVocabulary_inverted_builds Example.E
           (mkSettings 1 true true 2 false 30 0 true (8 # 10) false (16 # 10) 10 0 false)
           Example.library).
  - exact example_in_range.
  - reflexivity.
  - exact library_consistent.
  - exact library_wf.
  - discriminate.
Defined.

(** [updateVocabulary] in every mode, on matrices that agree or not. *)
Lemma updateVocabulary_returns (E : External) (s : Settings) (fo : FindObject) :
  in_range E ->
  (forall o, In o (QMap.values (objects_ fo)) -> wf (descriptors o)) ->
  exists fo',
    updateVocabulary E s fo = Some fo'
    /\ Inv (vocabulary_ fo') /\ flushed (vocabulary_ fo').
Proof.
  intros HE Hwf.
  assert (Hclear : Inv (clear (vocabulary_ fo)) /\ flushed (clear (vocabulary_ fo)))
    by (split; [ apply clear_Inv | split; reflexivity ]).
  destruct (for_each verifyDescriptors (QMap.values (objects_ fo)) (0%Z, (-1)%Z, (-1)%Z))
    as [ [[count dim] ty] | ] eqn:Hv.
  - destruct (Z.eq_dec count 0) as [ H0 | H0 ].
    + exists (clearVocabulary fo). unfold updateVocabulary.
      change (objects_ (clearVocabulary fo)) with (objects_ fo). rewrite Hv, H0.
      split; [ reflexivity | exact Hclear ].
    + destruct (General_invertedSearch s) eqn:Hinv.
      * destruct (inverted_build E s fo count dim ty HE Hinv Hwf Hv H0)
          as [fo' [H1 [H2 [H3 _]]]].
        exists fo'. auto.
      * unfold updateVocabulary.
        change (objects_ (clearVocabulary fo)) with (objects_ fo). rewrite Hv.
        destruct (Z.eqb_spec count 0); [ contradiction | ]. rewrite Hinv. cbn [orb].
        destruct (General_threads s =? 1)%Z.
        -- apply verified in Hv. destruct Hv as [-> Hagree].
           rewrite (usedRows_totalRows _ Hwf), Nat2Z.id.
           pose proof (copy_all (Z.to_nat dim) (Z.to_nat ty) _ Hwf Hagree) as Hcopy.
           destruct (for_each (copyDescriptors _ _ _) _ _) as [ [[g row] range] | ];
             [ | discriminate Hcopy ].
           cbn [bind]. eexists. split; [ reflexivity | exact Hclear ].
        -- eexists. split; [ reflexivity | exact Hclear ].
  - exists (clearVocabulary fo). unfold updateVocabulary.
    change (objects_ (clearVocabulary fo)) with (objects_ fo). rewrite Hv.
    split; [ reflexivity | exact Hclear ].
Qed.

(** X13: [updateVocabulary] always returns, in every mode and whether
    the matrices of the objects agree or not, when every matrix that has
    rows has columns and the searches answer in range; and the vocabulary
    it leaves meets its invariant and has nothing staged, which is what
    [Vocabulary::search] asks for. *)
Theorem updateVocabulary_always_returns (E : External) (s : Settings) (fo : FindObject) :
  in_range E ->
  (forall o, In o (QMap.values (objects_ fo)) -> wf (descriptors o)) ->
  exists fo',
    updateVocabulary E s fo = Some fo'
    /\ Inv (vocabulary_ fo') /\ flushed (vocabulary_ fo').
Proof.
  exact (updateVocabulary_returns E s fo).
Qed.

Lemma stale_wf (o : ObjSignature) :
  In o (QMap.values (objects_ Example.stale)) -> wf (descriptors o).
Proof.
  intros Ho H. vm_compute in Ho. destruct Ho as [ <- | [ <- | [] ] ]; discriminate H.
Qed.

Lemma updateVocabulary_always_returns_witness :
  exists fo',
    updateVocabulary Example.E Example.inverted Example.stale = Some fo'
    /\ Inv (vocabulary_ fo') /\ flushed (vocabulary_ fo').
Proof.
  exact (updateVocabulary_always_returns Example.E Example.inverted Example.stale
           example_in_range stale_wf).
Defined.

End BuildingVocabulary.

(** ** The matches [detect] records, and the search modes *)

Module SearchModes.
Import VocabularyInvariant UpdateVocabulary LibraryMap VocabularyWords Detecting
  BuildingVocabulary.

Lemma insert_keys (V : Type) (k : Z) (v : V) (m : QMap.t V) :
  sorted m -> forall k', In k' (QMap.keys (QMap.insert k v m)) <-> k' = k \/ In k' (QMap.keys m).
Proof.
  intros Hs k'. unfold QMap.keys. rewrite !in_map_iff. split.
  - intros [q [<- Hq]]. apply (insert_In _ _ _ _ _ Hs) in Hq.
    destruct Hq as [ -> | [Hq _] ]; [ left; reflexivity | right; exists q; auto ].
  - intros [ -> | [q [<- Hq]] ].
    + exists (k, v). split; [ reflexivity | ]. apply (insert_In _ _ _ _ _ Hs). left. reflexivity.
    + destruct (Z.eq_dec (fst q) k) as [ He | Hne ].
      * exists (k, v). split; [ auto | ]. apply (insert_In _ _ _ _ _ Hs). left. reflexivity.
      * exists q. split; [ reflexivity | ]. apply (insert_In _ _ _ _ _ Hs). right. auto.
Qed.

(** [m'] is a sorted map with the keys of [m]. *)
Definition sameKeys (m m' : QMap.t Words) : Prop :=
  sorted m' /\ forall k, In k (QMap.keys m') <-> In k (QMap.keys m).

Lemma sameKeys_refl (m : QMap.t Words) : sorted m -> sameKeys m m.
Proof. intros H. split; [ exact H | tauto ]. Qed.

Lemma sameKeys_trans (m1 m2 m3 : QMap.t Words) :
  sameKeys m1 m2 -> sameKeys m2 m3 -> sameKeys m1 m3.
Proof.
  intros [_ H1] [H2 H3]. split; [ exact H2 | ]. intros k. rewrite H3. apply H1.
Qed.

Lemma insertMatch_keys (objectId k v : Z) (m : QMap.t Words) :
  sorted m -> sameKeys m (insertMatch objectId k v m).
Proof.
  intros Hs. unfold insertMatch.
  destruct (QMap.find objectId m) as [ w | ] eqn:Hf; [ | apply sameKeys_refl; exact Hs ].
  split; [ apply insert_sorted; exact Hs | ]. intros k'. rewrite (insert_keys _ _ _ _ Hs).
  split; [ | auto ]. intros [ -> | H ]; [ | exact H ].
  apply find_In in Hf. apply (in_map fst) in Hf. exact Hf.
Qed.

Lemma insertInverted_keys (fo : FindObject) (i : nat) (wordId : Z) (m : QMap.t Words) :
  sorted m -> sameKeys m (insertInverted fo i wordId m).
Proof.
  unfold insertInverted. generalize (MultiMap.values Z.ltb wordId (wordToObjects_ (vocabulary_ fo))).
  intros l. revert m. induction l as [ | x l IH ]; intros m Hs; [ apply sameKeys_refl; exact Hs | ].
  cbn [fold_left].
  destruct (MultiMap.count_pair Z.ltb Z.eqb wordId x (wordToObjects_ (vocabulary_ fo)) =? 1)%nat;
    [ | apply IH; exact Hs ].
  destruct (QMap.find x (objects_ fo)) as [ o | ]; [ | apply IH; exact Hs ].
  pose proof (insertMatch_keys x (MultiMap.value Z.ltb 0%Z wordId (words o)) (Z.of_nat i) m Hs)
    as H1.
  exact (sameKeys_trans _ _ _ H1 (IH _ (proj1 H1))).
Qed.

Lemma insertDirect_keys (fo : FindObject) (sceneWords : Words) (i : nat) (wordId : Z)
    (m : QMap.t Words) :
  sorted m -> sameKeys m (insertDirect fo sceneWords i wordId m).
Proof.
  intros Hs. unfold insertDirect.
  destruct (MultiMap.count Z.ltb wordId sceneWords =? 1)%nat;
    [ apply insertMatch_keys; exact Hs | apply sameKeys_refl; exact Hs ].
Qed.

Lemma processRow_keys (E : External) (s : Settings) (fo : FindObject) (sceneWords : Words)
    (l : list (nat * KnnRow)) :
  forall m mn mx r,
    fold_left (processRow E s fo sceneWords) l (m, mn, mx) = r ->
    sorted m -> sameKeys m (fst (fst r)).
Proof.
  induction l as [ | [i row] l IH ]; intros m mn mx r H Hs.
  - subst r. apply sameKeys_refl. exact Hs.
  - cbn [fold_left] in H. unfold processRow at 2 in H.
    assert (H1 : sameKeys m
                   (if matched E s row
                    then if General_invertedSearch s
                         then insertInverted fo i (index_at row 0) m
                         else insertDirect fo sceneWords i (index_at row 0) m
                    else m)).
    { destruct (matched E s row); [ | apply sameKeys_refl; exact Hs ].
      destruct (General_invertedSearch s);
        [ apply insertInverted_keys | apply insertDirect_keys ]; exact Hs. }
    exact (sameKeys_trans _ _ _ H1 (IH _ _ _ _ H (proj1 H1))).
Qed.

Lemma joinThread_keys (E : External) (s : Settings) (v : Vocabulary) (sceneWords : Words)
    (l : QMap.t Mat) :
  forall m mn mx r,
    fold_left (joinThread E s v sceneWords) l (m, mn, mx) = r ->
    sorted m ->
    sorted (fst (fst r))
    /\ forall k, In k (QMap.keys (fst (fst r))) <-> In k (QMap.keys m) \/ In k (QMap.keys l).
Proof.
  induction l as [ | e l IH ]; intros m mn mx r H Hs.
  - subst r. simpl. split; [ exact Hs | tauto ].
  - cbn [fold_left] in H. unfold joinThread at 2 in H.
    destruct (SearchThread_run E s v (snd e) sceneWords) as [[tm tmn] tmx].
    destruct (IH _ _ _ _ H (insert_sorted _ (fst e) tm m Hs)) as [H1 H2].
    split; [ exact H1 | ]. intros k. rewrite H2, (insert_keys _ _ _ _ Hs).
    unfold QMap.keys. simpl. intuition congruence.
Qed.

Lemma initial_keys (l : QMap.t ObjSignature) :
  forall m : QMap.t Words,
    sorted m ->
    sorted (fold_left (fun m e => QMap.insert (fst e) [] m) l m)
    /\ forall k, In k (QMap.keys (fold_left (fun m e => QMap.insert (fst e) [] m) l m))
                 <-> In k (QMap.keys m) \/ In k (QMap.keys l).
Proof.
  induction l as [ | e l IH ]; intros m Hs.
  - simpl. split; [ exact Hs | tauto ].
  - cbn [fold_left]. destruct (IH _ (insert_sorted _ (fst e) [] m Hs)) as [H1 H2].
    split; [ exact H1 | ]. intros k. rewrite H2, (insert_keys _ _ _ _ Hs).
    unfold QMap.keys. simpl. intuition congruence.
Qed.

(** X14: whenever [detect] compares a scene with the library, in the
    settings and states in which its matching stage is defined
    ([matchingDefined]), the match map it returns has one entry for every object of the library, with or
    without matches, in the order of the ids; it has no other entry,
    unless the workers of the multi-threaded search bring the key of a
    matrix of the descriptor store. *)
Theorem detect_matches_every_object (E : External) (s : Settings) (fo : FindObject)
    (img : Mat) :
  in_range E -> matchingDefined s fo ->
  empty img = false -> canCompare s fo (sceneInfo E s img) = true ->
  exists d,
    detect E s fo img = Some d /\ success d = true
    /\ sorted (matches_ (info d))
    /\ (forall k, In k (QMap.keys (objects_ fo)) -> In k (QMap.keys (matches_ (info d))))
    /\ (forall k, In k (QMap.keys (matches_ (info d))) ->
          In k (QMap.keys (objects_ fo))
          \/ (General_invertedSearch s = false /\ General_threads s <> 1%Z
              /\ In k (QMap.keys (objectsDescriptors_ fo)))).
Proof.
  intros HE _ Himg Hcmp. unfold detect, sceneInfo in *. rewrite Himg.
  destruct (extractFeatures E s img) as [kpts descs]. cbn [fst snd] in Hcmp. rewrite Hcmp.
  assert (Hnil : sorted (@nil (Z * Words))) by constructor.
  destruct (initial_keys (objects_ fo) [] Hnil) as [Hs0 Hk0].
  destruct (General_invertedSearch s) eqn:Hinv; cbn [negb bind orb].
  - destruct (fold_left (processRow _ _ _ _) _ _) as [[m mn] mx] eqn:Hfold.
    destruct (processRow_keys _ _ _ _ _ _ _ _ _ Hfold Hs0) as [H1 H2]. cbn [fst] in H1, H2.
    eexists. split; [ reflexivity | ]. cbn [success info matches_]. conjs; auto.
    + intros k Hk. apply H2, Hk0. right. exact Hk.
    + intros k Hk. apply H2, Hk0 in Hk. destruct Hk as [ [] | Hk ]. left. exact Hk.
  - destruct (indexScene_returns E s fo descs HE) as [v [ws [Hi _]]].
    rewrite Hi. cbn [bind]. change (objects_ (setVocabulary fo v)) with (objects_ fo).
    destruct (Z.eqb_spec (General_threads s) 1) as [ Ht | Ht ].
    + destruct (fold_left (processRow _ _ _ _) _ _) as [[m mn] mx] eqn:Hfold.
      destruct (processRow_keys _ _ _ _ _ _ _ _ _ Hfold Hs0) as [H1 H2]. cbn [fst] in H1, H2.
      eexists. split; [ reflexivity | ]. cbn [success info matches_]. conjs; auto.
      * intros k Hk. apply H2, Hk0. right. exact Hk.
      * intros k Hk. apply H2, Hk0 in Hk. destruct Hk as [ [] | Hk ]. left. exact Hk.
    + destruct (fold_left (joinThread _ _ _ _) _ _) as [[m mn] mx] eqn:Hfold.
      destruct (joinThread_keys _ _ _ _ _ _ _ _ _ Hfold Hs0) as [H1 H2]. cbn [fst] in H1, H2.
      eexists. split; [ reflexivity | ]. cbn [success info matches_]. conjs; auto.
      * intros k Hk. apply H2. left. apply Hk0. right. exact Hk.
      * intros k Hk. apply H2 in Hk. destruct Hk as [ Hk | Hk ].
        -- apply Hk0 in Hk. destruct Hk as [ [] | Hk ]. left. exact Hk.
        -- right. auto.
Qed.

Lemma detect_matches_every_object_witness :
  let E := Example.E in
  let s := Example.threaded in
  let fo := Example.builtThreaded in
  let img := Example.img in
  exists d,
    detect E s fo img = Some d /\ success d = true
    /\ sorted (matches_ (info d))
    /\ (forall k, In k (QMap.keys (objects_ fo)) -> In k (QMap.keys (matches_ (info d))))
    /\ (forall k, In k (QMap.keys (matches_ (info d))) ->
          In k (QMap.keys (objects_ fo))
          \/ (General_invertedSearch s = false /\ General_threads s <> 1%Z
              /\ In k (QMap.keys (objectsDescriptors_ fo)))).
Proof.
  apply (detect_matches_every_object Example.E Example.threaded Example.builtThreaded
           Example.img).
  - exact example_in_range.
  - exact builtThreaded_matchingDefined.
  - reflexivity.
  - reflexivity.
Defined.

(** The loop of the inverted search over the objects of a word, seen from
    one object: each occurrence of the object adds the scene row once. *)
Lemma insertInverted_loop (fo : FindObject) (i : nat) (wordId objId : Z) (o : ObjSignature)
    (c : Z -> bool) (l : list Z) :
  QMap.find objId (objects_ fo) = Some o ->
  forall m ws,
    QMap.find objId m = Some ws ->
    QMap.find objId
      (fold_left
         (fun m x =>
            if c x then
              match QMap.find x (objects_ fo) with
              | Some o' => insertMatch x (MultiMap.value Z.ltb 0%Z wordId (words o')) (Z.of_nat i) m
              | None => m
              end
            else m) l m)
    = Some (Nat.iter (if c objId then length (filter (Z.eqb objId) l) else 0)
              (winsert (MultiMap.value Z.ltb 0%Z wordId (words o)) (Z.of_nat i)) ws).
Proof.
  intros Ho. induction l as [ | x l IH ]; intros m ws Hm.
  - simpl. destruct (c objId); exact Hm.
  - cbn [fold_left filter]. destruct (Z.eqb_spec objId x) as [ <- | Hne ].
    + destruct (c objId) eqn:Hc.
      * rewrite Ho. unfold insertMatch at 2. rewrite Hm.
        rewrite (IH _ _ (Library.find_insert _ objId _ m)).
        cbn [length]. rewrite Nat.iter_succ_r. reflexivity.
      * rewrite (IH _ _ Hm). reflexivity.
    + assert (Hstep : forall m', QMap.find objId m' = Some ws ->
                forall k, QMap.find objId (insertMatch x k (Z.of_nat i) m') = Some ws).
      { intros m' Hm' k. unfold insertMatch. destruct (QMap.find x m'); [ | exact Hm' ].
        rewrite find_insert_other by exact Hne. exact Hm'. }
      destruct (c x); [ | apply IH; exact Hm ].
      destruct (QMap.find x (objects_ fo)); [ | apply IH; exact Hm ].
      apply IH. apply Hstep. exact Hm.
Qed.

(** X15: in the inverted search, a matched scene row [i] whose nearest
    word is [wordId] is added to the matches of an object exactly when
    the object holds the word once: then the object gets one
    correspondence, from its descriptor of that word to the scene row;
    an object that holds the word twice or not at all gets none. *)
Theorem insertInverted_adds_unique_words (fo : FindObject) (i : nat) (wordId objId : Z)
    (o : ObjSignature) (m : QMap.t Words) (ws : Words) :
  QMap.find objId m = Some ws ->
  QMap.find objId (objects_ fo) = Some o ->
  QMap.find objId (insertInverted fo i wordId m)
  = Some (if (MultiMap.count_pair Z.ltb Z.eqb wordId objId (wordToObjects_ (vocabulary_ fo))
              =? 1)%nat
          then winsert (MultiMap.value Z.ltb 0%Z wordId (words o)) (Z.of_nat i) ws
          else ws).
Proof.
  intros Hm Ho. unfold insertInverted.
  rewrite (insertInverted_loop fo i wordId objId o
             (fun x => (MultiMap.count_pair Z.ltb Z.eqb wordId x
                          (wordToObjects_ (vocabulary_ fo)) =? 1)%nat) _ Ho m ws Hm).
  unfold MultiMap.count_pair.
  destruct (Nat.eqb_spec
              (length (filter (Z.eqb objId)
                         (MultiMap.values Z.ltb wordId (wordToObjects_ (vocabulary_ fo))))) 1)
    as [ -> | _ ]; reflexivity.
Qed.

Lemma insertInverted_adds_unique_words_witness :
  let fo := match updateVocabulary Example.E Example.inverted Example.library with
            | Some fo => fo
            | None => Example.library
            end in
  let o := match QMap.find 1%Z (objects_ fo) with Some o => o | None => Example.object1 end in
  QMap.find 1%Z (insertInverted fo 5 0%Z [(1%Z, []); (2%Z, [])])
  = Some (if (MultiMap.count_pair Z.ltb Z.eqb 0%Z 1%Z (wordToObjects_ (vocabulary_ fo))
              =? 1)%nat
          then winsert (MultiMap.value Z.ltb 0%Z 0%Z (words o)) (Z.of_nat 5) []
          else []).
Proof.
  apply (insertInverted_adds_unique_words
           match updateVocabulary Example.E Example.inverted Example.library with
           | Some fo => fo
           | None => Example.library
           end 5 0%Z 1%Z).
  - reflexivity.
  - reflexivity.
Defined.

(** *** The guard on the kind of vocabulary *)

(** Without nearest-neighbour data of the kind the mode expects, [detect]
    refuses a scene that has keypoints, and searches nothing. *)
Lemma detect_refused (E : External) (s : Settings) (fo : FindObject) (img : Mat) :
  consistentNNData s (vocabulary_ fo) = false ->
  detect_keypoints E img <> [] ->
  exists i, detect E s fo img = Some (mkDetection false i fo []).
Proof.
  intros Hc Hkp. unfold detect. destruct (empty img); [ eexists; reflexivity | ].
  destruct (extractFeatures E s img) as [kpts descs].
  assert (Hcmp : canCompare s fo (mkDetectionInfo kpts descs [] Qm1 Qm1) = false).
  { unfold canCompare. destruct (objectsDescriptors_ fo) as [ | [k first] store ];
      [ reflexivity | ].
    rewrite Hc, andb_false_r. reflexivity. }
  rewrite Hcmp.
  destruct (negb (length (objectsDescriptors_ fo) =? 0)%nat && negb (length kpts =? 0)%nat);
    [ eexists; reflexivity | ].
  destruct (detect_keypoints E img); [ contradiction | eexists; reflexivity ].
Qed.

Lemma update_words (v v' : Vocabulary) :
  update v = Some v' -> wordToObjects_ v' = wordToObjects_ v.
Proof.
  unfold update. destruct (negb (empty (notIndexedDescriptors_ v))); cbn [bind].
  - destruct (push_back _ _) as [ m | ]; [ | discriminate ]. cbn [bind indexedDescriptors_].
    destruct (negb (empty m)); intros [= <-]; reflexivity.
  - destruct (negb (empty (indexedDescriptors_ v))); intros [= <-]; reflexivity.
Qed.

(** The words of the index of a scene belong to no object. *)
Lemma indexScene_no_object (E : External) (s : Settings) (fo fo' : FindObject) (d : Mat)
    (ws : Words) :
  indexScene E s fo d = Some (fo', ws) ->
  forall p, In p (wordToObjects_ (vocabulary_ fo')) -> snd p = (-1)%Z.
Proof.
  unfold indexScene.
  destruct (addWords E s _ d _ _) as [ [v1 ws1] | ] eqn:Ha; [ | discriminate ].
  cbn [bind fst snd].
  destruct (addWords_rows (-1)%Z _ v1 d ws1 (addWords_assigned _ _ _ _ _ _ _ _ Ha))
    as [_ [Hperm _]].
  cbn [clear wordToObjects_] in Hperm. rewrite app_nil_r in Hperm.
  assert (H1 : forall p, In p (wordToObjects_ v1) -> snd p = (-1)%Z).
  { intros p Hp. apply (Permutation_in _ Hperm) in Hp. apply in_map_iff in Hp.
    destruct Hp as [q [<- _]]. reflexivity. }
  destruct (negb (General_vocabularyIncremental s)).
  - destruct (update v1) as [ v2 | ] eqn:Hu; [ | discriminate ]. cbn [bind].
    intros [= <- <-]. cbn [setVocabulary vocabulary_]. rewrite (update_words _ _ Hu). exact H1.
  - cbn [bind]. intros [= <- <-]. exact H1.
Qed.

(** X16: the vocabulary of an object-to-scene search cannot serve an
    inverted search.  After [detect] has compared a scene in
    object-to-scene mode (in a state and with a thread count for which
    this search is defined, [matchingDefined]), a [detect] with inverted
    search, whatever its
    other settings and its detector, refuses every scene that has
    keypoints and searches nothing, until the vocabulary is built again. *)
Theorem scene_vocabulary_refuses_inverted_search (E E' : External) (s s' : Settings)
    (fo : FindObject) (img img' : Mat) :
  in_range E -> matchingDefined s fo -> General_invertedSearch s = false ->
  empty img = false -> canCompare s fo (sceneInfo E s img) = true ->
  General_invertedSearch s' = true -> detect_keypoints E' img' <> [] ->
  exists d,
    detect E s fo img = Some d /\ success d = true
    /\ exists i, detect E' s' (after d) img' = Some (mkDetection false i (after d) []).
Proof.
  intros HE _ Hinv Himg Hcmp Hinv' Hkp.
  assert (Hd : exists v ws m mn mx l,
            indexScene E s fo (snd (extractFeatures E s img)) = Some (setVocabulary fo v, ws)
            /\ Inv v
            /\ detect E s fo img
               = Some (mkDetection true
                         (mkDetectionInfo (fst (extractFeatures E s img))
                            (snd (extractFeatures E s img)) m mn mx)
                         (setVocabulary fo v) l)).
  { unfold detect, sceneInfo in *. rewrite Himg.
    destruct (extractFeatures E s img) as [kpts descs]. cbn [fst snd] in *.
    rewrite Hcmp, Hinv. cbn [negb bind orb].
    destruct (indexScene_returns E s fo descs HE) as [v [ws [Hi HI]]].
    rewrite Hi. cbn [bind]. exists v, ws.
    destruct (General_threads s =? 1)%Z; destruct (fold_left _ _ _) as [[m mn] mx];
      (eexists; eexists; eexists; eexists; split; [ reflexivity | ];
       split; [ exact HI | reflexivity ]). }
  destruct Hd as [v [ws [m [mn [mx [l [Hi [HI Hd]]]]]]]].
  eexists. split; [ exact Hd | ]. split; [ reflexivity | ]. cbn [after].
  apply detect_refused; [ | exact Hkp ].
  pose proof (indexScene_no_object E s fo _ _ _ Hi) as Hno. cbn [setVocabulary vocabulary_] in *.
  unfold consistentNNData. rewrite Hinv'. cbn [negb]. rewrite andb_false_r, orb_false_r, andb_true_r.
  destruct (wordToObjects_ v) as [ | p w2o ] eqn:Hw.
  - destruct (Nat.eqb_spec (size v) 0) as [ H0 | H0 ]; [ reflexivity | ].
    exfalso. assert (Hin : In 0%Z (map fst (wordToObjects_ v))) by (apply (inv_dense v HI); lia).
    rewrite Hw in Hin. exact Hin.
  - pose proof (Hno p (or_introl eq_refl)) as Hp. destruct p as [w o]. simpl in Hp.
    subst o. cbn [Z.eqb Pos.eqb negb]. apply andb_false_r.
Qed.

Lemma scene_vocabulary_refuses_inverted_search_witness :
  exists d,
    detect Example.E Example.settings Example.built Example.img = Some d /\ success d = true
    /\ exists i, detect Example.E Example.inverted (after d) Example.img
                 = Some (mkDetection false i (after d) []).
Proof.
  apply (scene_vocabulary_refuses_inverted_search Example.E Example.E Example.settings
           Example.inverted Example.built Example.img Example.img).
  - exact example_in_range.
  - exact built_matchingDefined.
  - reflexivity.
  - reflexivity.
  - reflexivity.
  - reflexivity.
  - discriminate.
Defined.

Lemma totalRows_object (l : list ObjSignature) :
  totalRows l <> 0 -> exists o, In o l /\ rows (descriptors o) <> 0.
Proof.
  unfold totalRows. induction l as [ | o l IH ]; simpl; intros H; [ congruence | ].
  destruct (Nat.eq_dec (rows (descriptors o)) 0) as [ H0 | H0 ].
  - destruct IH as [o' [H1 H2]]; [ lia | ]. exists o'. auto.
  - exists o. auto.
Qed.

Lemma worded_ids (v : Vocabulary) (l l' : QMap.t ObjSignature) :
  Forall2 (worded v) l l' ->
  forall p, In p (wordsOf l') -> exists e, In e l /\ snd p = id (snd e).
Proof.
  unfold wordsOf. induction 1 as [ | e e' l l' [_ [w [Hw _]]] HF IH ]; simpl; intros p Hp.
  - contradiction.
  - apply in_app_or in Hp. destruct Hp as [ Hp | Hp ].
    + apply in_map_iff in Hp. destruct Hp as [q [<- _]]. exists e.
      split; [ left; reflexivity | ]. rewrite Hw. reflexivity.
    + destruct (IH p Hp) as [e0 [H1 H2]]. exists e0. auto.
Qed.

Lemma worded_nonempty (v : Vocabulary) (l l' : QMap.t ObjSignature) :
  Forall2 (worded v) l l' ->
  forall e, In e l -> empty (descriptors (snd e)) = false -> wordsOf l' <> [].
Proof.
  unfold wordsOf. induction 1 as [ | e e' l l' [_ [w [Hw [_ Hperm]]]] HF IH ]; simpl;
    intros e0 He0 Hne.
  - contradiction.
  - destruct He0 as [ <- | He0 ].
    + rewrite Hne in Hperm. rewrite Hw. simpl.
      apply empty_false in Hne. destruct Hne as [Hr _].
      destruct w as [ | q w ]; [ | discriminate ].
      apply Permutation_length in Hperm. rewrite !length_map, length_seq in Hperm.
      simpl in Hperm. congruence.
    + specialize (IH e0 He0 Hne). intros H. apply app_eq_nil in H. tauto.
Qed.

(** X17: the vocabulary of the inverted search cannot serve an
    object-to-scene search.  After [updateVocabulary] with inverted
    search, on a library that has features, whose matrices agree and
    none of whose ids is -1, a [detect] in object-to-scene mode refuses
    every scene that has keypoints and searches nothing. *)
Theorem inverted_vocabulary_refuses_direct_search (E E' : External) (s s' : Settings)
    (fo : FindObject) (img : Mat) :
  in_range E -> General_invertedSearch s = true ->
  consistent (QMap.values (objects_ fo)) ->
  (forall o, In o (QMap.values (objects_ fo)) -> wf (descriptors o)) ->
  totalRows (QMap.values (objects_ fo)) <> 0 ->
  (forall o, In o (QMap.values (objects_ fo)) -> id o <> (-1)%Z) ->
  General_invertedSearch s' = false -> detect_keypoints E' img <> [] ->
  exists fo',
    updateVocabulary E s fo = Some fo'
    /\ exists i, detect E' s' fo' img = Some (mkDetection false i fo' []).
Proof.
  intros HE Hinv Hcons Hwf Hrows Hids Hinv' Hkp.
  destruct (verify_consistent (QMap.values (objects_ fo)) 0%Z (-1)%Z (-1)%Z Hcons)
    as [[[count dim] ty] Hv]; [ intros o _ _; split; lia | ].
  destruct (inverted_build E s fo count dim ty HE Hinv Hwf Hv)
    as [fo' [Hu [HI [_ [_ [HF [Hperm _]]]]]]].
  { apply verified in Hv. destruct Hv as [-> _]. rewrite (usedRows_totalRows _ Hwf). lia. }
  exists fo'. split; [ exact Hu | ]. apply detect_refused; [ | exact Hkp ].
  destruct (totalRows_object _ Hrows) as [o [Ho Hr]].
  apply in_map_iff in Ho. destruct Ho as [e [He1 He2]]. subst o.
  assert (Hne : empty (descriptors (snd e)) = false).
  { destruct (empty (descriptors (snd e))) eqn:Hem; [ | reflexivity ].
    exfalso. apply Hr. exact (Hwf _ (in_map snd _ _ He2) Hem). }
  pose proof (worded_nonempty _ _ _ HF e He2 Hne) as Hwords.
  destruct (wordToObjects_ (vocabulary_ fo')) as [ | p w2o ] eqn:Hw.
  - exfalso. apply Hwords. apply Permutation_nil. exact Hperm.
  - assert (Hp : In p (wordsOf (objects_ fo')))
      by (apply (Permutation_in _ Hperm); left; reflexivity).
    destruct (worded_ids _ _ _ HF p Hp) as [e0 [He0 Hid]].
    assert (Hsize : size (vocabulary_ fo') <> 0).
    { assert (Hin : In (fst p) (map fst (wordToObjects_ (vocabulary_ fo'))))
        by (rewrite Hw; left; reflexivity).
      apply (inv_dense _ HI) in Hin. lia. }
    unfold consistentNNData. rewrite Hw, Hinv'. destruct p as [w o]. simpl in Hid. subst o.
    destruct (Nat.eqb_spec (size (vocabulary_ fo')) 0) as [ H0 | _ ]; [ contradiction | ].
    destruct (Z.eqb_spec (id (snd e0)) (-1)) as [ H1 | _ ].
    + exfalso. exact (Hids _ (in_map snd _ _ He0) H1).
    + reflexivity.
Qed.

Lemma inverted_vocabulary_refuses_direct_search_witness :
  exists fo',
    updateVocabulary Example.E Example.inverted Example.library = Some fo'
    /\ exists i, detect Example.E Example.settings fo' Example.img
                 = Some (mkDetection false i fo' []).
Proof.
  apply (inverted_vocabulary_refuses_direct_search Example.E Example.E Example.inverted
           Example.settings Example.library Example.img).
  - exact example_in_range.
  - reflexivity.
  - exact library_consistent.
  - exact library_wf.
  - discriminate.
  - intros o [ <- | [ <- | [] ] ]; discriminate.
  - reflexivity.
  - discriminate.
Defined.

(** X18: in object-to-scene mode without the incremental vocabulary,
    whenever [detect] compares a scene that has descriptors (in a state
    and with a thread count for which the search is defined,
    [matchingDefined]), every search
    it makes, with one thread or with workers, runs on the index of the
    scene: the scene descriptors indexed, nothing staged; and this is the
    vocabulary [detect] leaves behind. *)
Theorem detect_searches_the_scene_index (E : External) (s : Settings) (fo : FindObject)
    (img : Mat) :
  matchingDefined s fo ->
  General_invertedSearch s = false -> General_vocabularyIncremental s = false ->
  empty img = false -> canCompare s fo (sceneInfo E s img) = true ->
  empty (snd (extractFeatures E s img)) = false ->
  exists d,
    detect E s fo img = Some d /\ success d = true
    /\ after d = setVocabulary fo (sceneIndex (snd (extractFeatures E s img)))
    /\ searched d <> []
    /\ forall v, In v (searched d) -> v = sceneIndex (snd (extractFeatures E s img)).
Proof.
  intros _ Hinv Hinc Himg Hcmp Hd. unfold detect, sceneInfo in *. rewrite Himg.
  destruct (extractFeatures E s img) as [kpts descs]. cbn [fst snd] in *.
  rewrite Hcmp, Hinv. cbn [negb bind orb].
  rewrite (indexScene_exact E s fo descs Hinc Hd). cbn [bind].
  destruct (General_threads s =? 1)%Z; destruct (fold_left _ _ _) as [[m mn] mx].
  - eexists. split; [ reflexivity | ]. cbn [success after searched]. conjs; auto.
    + discriminate.
    + intros v [ <- | [] ]. reflexivity.
  - eexists. split; [ reflexivity | ]. cbn [success after searched]. conjs; auto.
    + unfold canCompare in Hcmp. cbn [setVocabulary objectsDescriptors_].
      destruct (objectsDescriptors_ fo); [ discriminate Hcmp | discriminate ].
    + intros v Hv. apply in_map_iff in Hv. destruct Hv as [e [<- _]]. reflexivity.
Qed.

Lemma detect_searches_the_scene_index_witness :
  let E := Example.E in
  let s := Example.threaded in
  let fo := Example.builtThreaded in
  let img := Example.img in
  exists d,
    detect E s fo img = Some d /\ success d = true
    /\ after d = setVocabulary fo (sceneIndex (snd (extractFeatures E s img)))
    /\ searched d <> []
    /\ forall v, In v (searched d) -> v = sceneIndex (snd (extractFeatures E s img)).
Proof.
  apply (detect_searches_the_scene_index Example.E Example.threaded Example.builtThreaded
           Example.img); try reflexivity.
  exact builtThreaded_matchingDefined.
Defined.

End SearchModes.

(** ** Objects from image files *)

Module LoadingObjects.
Import VocabularyInvariant LibraryMap LibraryInvariant BuildingVocabulary.

(** The id a file name asks for is 0, or a positive number that is free. *)
Lemma requestedId_cases (F : Files) (fo : FindObject) (name : string) :
  (requestedId F fo name = 0%Z
   /\ forall n, toInt F (front name) = Some n -> (0 < n)%Z ->
        QMap.contains n (objects_ fo) = true)
  \/ (toInt F (front name) = Some (requestedId F fo name)
      /\ (0 < requestedId F fo name)%Z
      /\ QMap.contains (requestedId F fo name) (objects_ fo) = false).
Proof.
  unfold requestedId. destruct (toInt F (front name)) as [ n | ].
  - destruct (Z.ltb_spec 0 n).
    + destruct (QMap.contains n (objects_ fo)) eqn:Hc.
      * left. split; [ reflexivity | ]. intros n' [= <-] _. exact Hc.
      * right. auto.
    + left. split; [ reflexivity | ]. intros n' [= <-] Hn. lia.
  - left. split; [ reflexivity | ]. intros n H. discriminate H.
Qed.

(** An image is added under a new id when it asks for none, and under the
    id it asks for when that id is free. *)
Lemma addObject_image_adds (fo : FindObject) (img : Mat) (i : Z) (name : string) :
  i = 0%Z \/ QMap.contains i (objects_ fo) = false ->
  let j := if (i =? 0)%Z then General_nextObjID fo else i in
  let o := mkObjSignature j img [] Mat0 [] name in
  snd (addObject_image fo img i name) = Some o
  /\ QMap.find j (objects_ (fst (addObject_image fo img i name))) = Some o
  /\ General_nextObjID (fst (addObject_image fo img i name)) = int32 (j + 1).
Proof.
  intros H. unfold addObject_image, addObject. cbn [id].
  assert (Hgo : negb (i =? 0)%Z && QMap.contains i (objects_ fo) = false).
  { destruct H as [ -> | -> ]; [ reflexivity | apply andb_false_r ]. }
  rewrite Hgo. destruct (i =? 0)%Z; simpl; rewrite Library.find_insert; auto.
Qed.

(** X19: a file whose image can be read is always added, also when the
    number in its name is taken: the object holds the image and the file
    name, has no features yet and is found under its id, and the counter
    of ids becomes the id plus one (an [int] sum: it wraps around for a
    file named 2147483647).  The id is the number in front of the first
    dot of the file name when that number is positive and free, and the
    current value of the counter in every other case. *)
Theorem addObject_file_adds_every_readable_image (F : Files) (fo : FindObject)
    (path : string) :
  empty (imread F path) = false ->
  exists i,
    let o := mkObjSignature i (imread F path) [] Mat0 [] (fileName F path) in
    let fo' := fst (addObject_file F fo (Some path)) in
    snd (addObject_file F fo (Some path)) = Some o
    /\ QMap.find i (objects_ fo') = Some o
    /\ General_nextObjID fo' = int32 (i + 1)
    /\ (forall n, toInt F (front (fileName F path)) = Some n -> (0 < n)%Z ->
          QMap.contains n (objects_ fo) = false -> i = n)
    /\ (i = General_nextObjID fo
        \/ (toInt F (front (fileName F path)) = Some i /\ (0 < i)%Z
            /\ QMap.contains i (objects_ fo) = false)).
Proof.
  intros He. unfold addObject_file. rewrite He. cbn [negb].
  destruct (requestedId_cases F fo (fileName F path)) as [ [H0 Htaken] | [Hn [Hpos Hfree]] ].
  - exists (General_nextObjID fo). rewrite H0.
    destruct (addObject_image_adds fo (imread F path) 0 (fileName F path) (or_introl eq_refl))
      as [H1 [H2 H3]].
    cbn [Z.eqb] in H1, H2, H3. cbv zeta. conjs; auto.
    intros n Hn Hpos Hfree. rewrite (Htaken n Hn Hpos) in Hfree. discriminate Hfree.
  - exists (requestedId F fo (fileName F path)).
    destruct (addObject_image_adds fo (imread F path) (requestedId F fo (fileName F path))
                (fileName F path) (or_intror Hfree)) as [H1 [H2 H3]].
    destruct (Z.eqb_spec (requestedId F fo (fileName F path)) 0) as [ H0 | _ ]; [ lia | ].
    cbv zeta. conjs; auto.
    intros n Hn' _ _. congruence.
Qed.

Lemma addObject_file_adds_every_readable_image_witness :
  let F := ExampleFiles.files in
  let fo := Example.library in
  let path := "dir/7.png"%string in
  exists i,
    let o := mkObjSignature i (imread F path) [] Mat0 [] (fileName F path) in
    let fo' := fst (addObject_file F fo (Some path)) in
    snd (addObject_file F fo (Some path)) = Some o
    /\ QMap.find i (objects_ fo') = Some o
    /\ General_nextObjID fo' = int32 (i + 1)
    /\ (forall n, toInt F (front (fileName F path)) = Some n -> (0 < n)%Z ->
          QMap.contains n (objects_ fo) = false -> i = n)
    /\ (i = General_nextObjID fo
        \/ (toInt F (front (fileName F path)) = Some i /\ (0 < i)%Z
            /\ QMap.contains i (objects_ fo) = false)).
Proof.
  apply (addObject_file_adds_every_readable_image ExampleFiles.files Example.library
           "dir/7.png").
  reflexivity.
Defined.

(** The loop of [loadObjects] over the file names. *)
Definition addFiles (F : Files) (dir : string) (names : list string) (fo : FindObject)
    : FindObject :=
  fold_left
    (fun fo name => fst (addObject_file F fo (Some (dir ++ separator F ++ name)%string)))
    names fo.

Lemma addFiles_wellKeyed (F : Files) (dir : string) (names : list string) :
  forall fo, wellKeyed fo -> wellKeyed (addFiles F dir names fo).
Proof.
  unfold addFiles. induction names as [ | n names IH ]; intros fo H.
  - exact H.
  - cbn [fold_left]. apply IH. apply addObject_file_wellKeyed. exact H.
Qed.

Lemma extractFeatures_wf (E : External) (s : Settings) (img : Mat) :
  (forall i kps, wf (snd (compute_descriptors E i kps))) ->
  wf (snd (extractFeatures E s img)).
Proof.
  intros H. unfold extractFeatures. destruct (detect_keypoints E img); [ apply wf_Mat0 | ].
  apply H.
Qed.

(** The object carries the features of its image. *)
Definition featured (E : External) (s : Settings) (o : ObjSignature) : Prop :=
  keypoints o = fst (extractFeatures E s (image o))
  /\ descriptors o = snd (extractFeatures E s (image o)).

Lemma updateObjects_featured (E : External) (s : Settings) (fo : FindObject) :
  wellKeyed fo ->
  forall o, In o (QMap.values (objects_ (updateObjects E s fo))) -> featured E s o.
Proof.
  intros [Hs Hid] o Ho.
  pose proof (storeFeatures_loop E s (objects_ fo) [] Hs Hid) as Hloop.
  cbn [map app] in Hloop. unfold updateObjects in Ho. cbn [objects_] in Ho.
  fold (QMap.t ObjSignature) in *.
  assert (Ho' : In o (QMap.values (map (withFeatures E s) (objects_ fo)))).
  { rewrite <- Hloop. exact Ho. }
  unfold QMap.values in Ho'. rewrite map_map in Ho'. apply in_map_iff in Ho'.
  destruct Ho' as [e [<- _]]. split; reflexivity.
Qed.

Lemma updateObjects_keys (E : External) (s : Settings) (fo : FindObject) :
  wellKeyed fo -> QMap.keys (objects_ (updateObjects E s fo)) = QMap.keys (objects_ fo).
Proof.
  intros [Hs Hid].
  pose proof (storeFeatures_loop E s (objects_ fo) [] Hs Hid) as Hloop.
  cbn [map app] in Hloop. unfold updateObjects. cbn [objects_].
  fold (QMap.t ObjSignature) in *.
  transitivity (QMap.keys (map (withFeatures E s) (objects_ fo))).
  - f_equal. exact Hloop.
  - unfold QMap.keys. rewrite map_map. reflexivity.
Qed.

(** X20: [loadObjects] returns the number of file names it found in
    the directory, whether or not the files could be read as images, and
    0 for a directory that is not valid.  When it found no file name it
    leaves the state as it is; otherwise it leaves every object of the
    library, old or new, with the features of its image, and a vocabulary
    that has nothing staged.  (The thread count [General_threads] is
    not negative, as [updateObjects] needs it; the descriptor matrices the
    extractor returns have columns when they have rows; the searches
    answer in range.) *)
Theorem loadObjects_counts_the_file_names (F : Files) (E : External) (s : Settings)
    (imageFormats dir : string) (fo : FindObject) :
  (0 <= General_threads s)%Z ->
  in_range E ->
  (forall i kps, wf (snd (compute_descriptors E i kps))) ->
  wellKeyed fo ->
  let names :=
    getFileNames F dir (QString_remove "."%char (QString_remove "*"%char imageFormats)) in
  exists fo',
    loadObjects F E s imageFormats fo dir
    = Some (fo', match names with Some l => Z.of_nat (length l) | None => 0%Z end)
    /\ (names = None \/ names = Some [] -> fo' = fo)
    /\ (forall l, names = Some l -> l <> [] ->
          flushed (vocabulary_ fo')
          /\ QMap.keys (objects_ fo') = QMap.keys (objects_ (addFiles F dir l fo))
          /\ forall o, In o (QMap.values (objects_ fo')) -> featured E s o).
Proof.
  intros _ HE Hext Hkeyed names. unfold loadObjects. fold names.
  destruct names as [ l | ] eqn:Hnames.
  2:{ exists fo. conjs; auto. intros l H. discriminate H. }
  fold (addFiles F dir l fo). destruct l as [ | n l ].
  - exists fo. cbn [length Nat.eqb negb bind]. conjs; auto.
    intros l' [= <-] H. exfalso. apply H. reflexivity.
  - cbn [length Nat.eqb negb]. set (fo1 := addFiles F dir (n :: l) fo).
    assert (H1 : wellKeyed fo1) by (apply addFiles_wellKeyed; exact Hkeyed).
    pose proof (updateObjects_featured E s fo1 H1) as Hfeat.
    destruct (updateVocabulary_returns E s (updateObjects E s fo1) HE)
      as [fo2 [Hu [_ Hfl]]].
    { intros o Ho. destruct (Hfeat o Ho) as [_ ->]. apply extractFeatures_wf. exact Hext. }
    rewrite Hu. cbn [bind]. exists fo2. split; [ reflexivity | ].
    split; [ intros [ H | H ]; discriminate H | ].
    intros l' [= <-] _. split; [ exact Hfl | ].
    pose proof (updateObjects_keys E s fo1 H1) as Hkeys.
    destruct (updateVocabulary_objects E s _ _ Hu) as [ Hsame | HF ].
    + rewrite Hsame. split; [ exact Hkeys | exact Hfeat ].
    + destruct (reworded_keyed _ _ HF) as [Hk _]. split; [ rewrite Hk; exact Hkeys | ].
      intros o Ho. apply in_map_iff in Ho. destruct Ho as [e' [<- He']].
      assert (Hex : exists e, In e (objects_ (updateObjects E s fo1)) /\ reworded e e').
      { clear - HF He'. induction HF as [ | e0 e0' l0 l0' Hr HF IH ]; [ contradiction | ].
        destruct He' as [ <- | He' ].
        - exists e0. split; [ left; reflexivity | exact Hr ].
        - destruct (IH He') as [e [H1 H2]]. exists e. split; [ right; exact H1 | exact H2 ]. }
      destruct Hex as [e [He [_ [w Hw]]]]. rewrite Hw.
      exact (Hfeat (snd e) (in_map snd _ _ He)).
Qed.

Lemma files_in_range : in_range ExampleFiles.external.
Proof.
  split; simpl.
  - intros index queries k r p Hr Hp. apply in_map_iff in Hr. destruct Hr as [q [<- _]].
    exact (nearest_in_range _ _ _ _ Hp).
  - intros staging query k p Hp. exact (nearest_in_range _ _ _ _ Hp).
Qed.

Lemma files_wf (i : Mat) (kps : list KeyPoint) :
  wf (snd (compute_descriptors ExampleFiles.external i kps)).
Proof.
  simpl. intros H. unfold empty in H. simpl in H. rewrite orb_false_r in H.
  apply Nat.eqb_eq in H. exact H.
Qed.

Lemma loadObjects_counts_the_file_names_witness :
  let F := ExampleFiles.files in
  let E := ExampleFiles.external in
  let s := Example.settings in
  let fo := Example.FindObject0 in
  let names :=
    getFileNames F "dir" (QString_remove "."%char (QString_remove "*"%char "*.png")) in
  exists fo',
    loadObjects F E s "*.png" fo "dir"
    = Some (fo', match names with Some l => Z.of_nat (length l) | None => 0%Z end)
    /\ (names = None \/ names = Some [] -> fo' = fo)
    /\ (forall l, names = Some l -> l <> [] ->
          flushed (vocabulary_ fo')
          /\ QMap.keys (objects_ fo') = QMap.keys (objects_ (addFiles F "dir" l fo))
          /\ forall o, In o (QMap.values (objects_ fo')) -> featured E s o).
Proof.
  apply (loadObjects_counts_the_file_names ExampleFiles.files ExampleFiles.external
           Example.settings "*.png" "dir" Example.FindObject0).
  - simpl. lia.
  - exact files_in_range.
  - exact files_wf.
  - split; [ constructor | intros k o [] ].
Defined.

End LoadingObjects.

(** ** The states of a [FindObject] *)

Module ReachableStates.
Import VocabularyInvariant UpdateVocabulary LibraryMap LibraryInvariant.

(** The descriptor extractor gives all its matrices one width and one
    element type: the descriptor matrices of any two images that are not
    empty agree in both. *)
Definition uniform (E : External) : Prop :=
  forall img kps img' kps',
    empty (snd (compute_descriptors E img kps)) = false ->
    empty (snd (compute_descriptors E img' kps')) = false ->
    cols (snd (compute_descriptors E img kps)) = cols (snd (compute_descriptors E img' kps'))
    /\ type (snd (compute_descriptors E img kps))
       = type (snd (compute_descriptors E img' kps')).

(** The states of a [FindObject]: the state its constructor leaves (no
    object, an empty vocabulary, the id counter at its setting), and the
    state after any call of its interface in such a state.  The objects a
    client adds are arbitrary, and so are the settings, the scenes and
    the detector of each call; the extractor of [updateObjects] is
    uniform and its thread count is not negative.  [addObject] on an
    image or a file and [loadObjects] are made of these calls
    ([addObject_image_reachable], [addObject_file_reachable],
    [loadObjects_reachable]). *)
Inductive Reachable : FindObject -> Prop :=
| reach_constructed (n : Z) :
    Reachable (mkFindObject [] Vocabulary0 [] [] n)
| reach_addObject (fo : FindObject) (obj : ObjSignature) :
    Reachable fo -> Reachable (fst (addObject fo obj))
| reach_removeObject (fo : FindObject) (i : Z) :
    Reachable fo -> Reachable (removeObject fo i)
| reach_removeAllObjects (fo : FindObject) :
    Reachable fo -> Reachable (removeAllObjects fo)
| reach_updateObjects (E : External) (s : Settings) (fo : FindObject) :
    uniform E -> (0 <= General_threads s)%Z ->
    Reachable fo -> Reachable (updateObjects E s fo)
| reach_updateVocabulary (E : External) (s : Settings) (fo fo' : FindObject) :
    Reachable fo -> updateVocabulary E s fo = Some fo' -> Reachable fo'
| reach_detect (E : External) (s : Settings) (fo : FindObject) (img : Mat) (d : Detection) :
    Reachable fo -> detect E s fo img = Some d -> Reachable (after d).

Lemma addObject_image_reachable (fo : FindObject) (img : Mat) (i : Z) (name : string) :
  Reachable fo -> Reachable (fst (addObject_image fo img i name)).
Proof.
  intros H. rewrite addObject_image_state. apply reach_addObject. exact H.
Qed.

Lemma addObject_file_reachable (F : Files) (fo : FindObject) (path : option string) :
  Reachable fo -> Reachable (fst (addObject_file F fo path)).
Proof.
  intros H. unfold addObject_file. destruct path as [ path | ]; [ | exact H ].
  destruct (empty (imread F path)); simpl; [ exact H | ].
  apply addObject_image_reachable. exact H.
Qed.

Lemma loadObjects_reachable (F : Files) (E : External) (s : Settings) (formats dir : string)
    (fo : FindObject) (r : FindObject * Z) :
  uniform E -> (0 <= General_threads s)%Z ->
  Reachable fo -> loadObjects F E s formats fo dir = Some r -> Reachable (fst r).
Proof.
  intros HE Ht H. unfold loadObjects.
  destruct (getFileNames F dir _) as [ names | ]; [ | intros [= <-]; exact H ].
  set (fo1 := fold_left _ names fo).
  assert (H1 : Reachable fo1).
  { unfold fo1. clear fo1. revert fo H. induction names as [ | n names IH ]; intros fo H.
    - exact H.
    - cbn [fold_left]. apply IH. apply addObject_file_reachable. exact H. }
  destruct (negb (length names =? 0)%nat).
  - destruct (updateVocabulary E s (updateObjects E s fo1)) as [ fo2 | ] eqn:Hu;
      [ | discriminate ].
    cbn [bind]. intros [= <-]. simpl.
    exact (@reach_updateVocabulary E s _ _ (@reach_updateObjects E s fo1 HE Ht H1) Hu).
  - cbn [bind]. intros [= <-]. exact H1.
Qed.

(** What holds in every state: the library is keyed, and the descriptor
    matrices of the objects agree unless the vocabulary, the store and the
    range map are empty. *)
Definition agreed (fo : FindObject) : Prop :=
  wellKeyed fo /\ (Library.cleared fo \/ consistent (QMap.values (objects_ fo))).

Lemma consistent_not_inconsistent (l : list ObjSignature) :
  consistent l -> inconsistent l -> False.
Proof.
  intros Hc [a [b [Ha [Hb [Hea [Heb Hne]]]]]].
  destruct (Hc a b Ha Hb Hea Heb) as [H1 H2]. tauto.
Qed.

(** The features of two images, extracted by a uniform extractor, agree. *)
Lemma extractFeatures_uniform (E : External) (s : Settings) (img img' : Mat) :
  uniform E ->
  empty (snd (extractFeatures E s img)) = false ->
  empty (snd (extractFeatures E s img')) = false ->
  cols (snd (extractFeatures E s img)) = cols (snd (extractFeatures E s img'))
  /\ type (snd (extractFeatures E s img)) = type (snd (extractFeatures E s img')).
Proof.
  intros HE. unfold extractFeatures.
  destruct (detect_keypoints E img); [ discriminate | ].
  destruct (detect_keypoints E img'); [ discriminate | ].
  apply HE.
Qed.

Lemma updateObjects_consistent (E : External) (s : Settings) (fo : FindObject) :
  uniform E -> wellKeyed fo -> consistent (QMap.values (objects_ (updateObjects E s fo))).
Proof.
  intros HE Hk a b Ha Hb Hea Heb.
  destruct (LoadingObjects.updateObjects_featured E s fo Hk a Ha) as [_ Hda].
  destruct (LoadingObjects.updateObjects_featured E s fo Hk b Hb) as [_ Hdb].
  rewrite Hda, Hdb in *. apply extractFeatures_uniform; assumption.
Qed.

(** The vocabulary loop gives the objects their words and leaves their
    descriptors. *)
Lemma reworded_consistent (l l' : QMap.t ObjSignature) :
  Forall2 reworded l l' -> consistent (QMap.values l) -> consistent (QMap.values l').
Proof.
  intros HF Hc.
  assert (Hsrc : forall o', In o' (QMap.values l') ->
            exists o, In o (QMap.values l) /\ descriptors o' = descriptors o).
  { clear Hc. induction HF as [ | e e' l l' [_ [w Hw]] HF IH ]; intros o' Ho'.
    - contradiction.
    - destruct Ho' as [ <- | Ho' ].
      + exists (snd e). split; [ left; reflexivity | ]. rewrite Hw. reflexivity.
      + destruct (IH o' Ho') as [o [H1 H2]]. exists o. split; [ right; exact H1 | exact H2 ]. }
  intros a b Ha Hb. destruct (Hsrc a Ha) as [a0 [Ha0 ->]]. destruct (Hsrc b Hb) as [b0 [Hb0 ->]].
  apply Hc; assumption.
Qed.

(** [updateVocabulary] builds on matrices that agree, and leaves
    everything empty otherwise. *)
Lemma updateVocabulary_agreed (E : External) (s : Settings) (fo fo' : FindObject) :
  updateVocabulary E s fo = Some fo' ->
  Library.cleared fo' \/ consistent (QMap.values (objects_ fo')).
Proof.
  intros Hu.
  destruct (for_each verifyDescriptors (QMap.values (objects_ fo)) (0%Z, (-1)%Z, (-1)%Z))
    as [ [[count dim] ty] | ] eqn:Hv.
  - right.
    assert (Hc : consistent (QMap.values (objects_ fo))).
    { apply verify_Some in Hv. destruct Hv as [_ [_ [_ H]]]. intros a b Ha Hb Hea Heb.
      destruct (H a Ha Hea) as [H1 H2]. destruct (H b Hb Heb) as [H3 H4]. lia. }
    destruct (updateVocabulary_objects E s fo fo' Hu) as [ -> | HF ]; [ exact Hc | ].
    exact (reworded_consistent _ _ HF Hc).
  - left. unfold updateVocabulary in Hu.
    change (objects_ (clearVocabulary fo)) with (objects_ fo) in Hu. rewrite Hv in Hu.
    injection Hu as <-. apply Library.clearVocabulary_cleared.
Qed.

Lemma reachable_agreed (fo : FindObject) : Reachable fo -> agreed fo.
Proof.
  induction 1 as [ n | fo obj _ [Hk IH] | fo i _ [Hk IH] | fo _ [Hk IH]
                 | E s fo HE Ht _ [Hk IH] | E s fo fo' _ [Hk IH] Hu
                 | E s fo img d _ [Hk IH] Hd ].
  - split; [ split; [ constructor | intros k o [] ] | left; repeat split ].
  - split; [ apply addObject_wellKeyed; exact Hk | ]. unfold addObject.
    destruct (negb (id obj =? 0)%Z && QMap.contains (id obj) (objects_ fo)); simpl;
      [ exact IH | left; apply Library.clearVocabulary_cleared ].
  - split; [ apply removeObject_wellKeyed; exact Hk | ]. unfold removeObject.
    destruct (QMap.contains i (objects_ fo));
      [ left; apply Library.clearVocabulary_cleared | exact IH ].
  - split; [ split; [ constructor | intros k o [] ] | ].
    left. apply Library.clearVocabulary_cleared.
  - split; [ apply updateObjects_wellKeyed; exact Hk | ].
    right. apply updateObjects_consistent; assumption.
  - split; [ exact (updateVocabulary_wellKeyed E s fo fo' Hk Hu) | ].
    exact (updateVocabulary_agreed E s fo fo' Hu).
  - split; [ exact (detect_wellKeyed E s fo img d Hk Hd) | ].
    destruct IH as [ Hc | Hc ].
    + left. destruct (Library.detect_without_store E s fo img (proj1 Hc)) as [b [i [Hd' _]]].
      rewrite Hd' in Hd. injection Hd as <-. exact Hc.
    + right. destruct (detect_after E s fo img d Hd) as [v [-> _]]. exact Hc.
Qed.

(** Clearing what is empty changes nothing. *)
Lemma clearVocabulary_of_cleared (fo : FindObject) :
  Library.cleared fo -> clearVocabulary fo = fo.
Proof.
  destruct fo as [objs [indexed staged w2o ids flann] store range n].
  unfold Library.cleared. simpl. intros [-> [-> [-> [-> [-> ->]]]]]. reflexivity.
Qed.

(** C3: when [updateVocabulary] finds that two non-empty descriptor
    matrices of the objects differ in width or in element type, it returns
    without building, and the call changes nothing: the state it leaves is
    the state it found, with the vocabulary, the descriptor store and the
    range map as they were.  They were empty: [updateVocabulary] clears
    them before it looks at the descriptors, but in every state of a
    [FindObject] whose extractor is uniform the matrices of the objects
    can only differ after an object was added, and adding an object has
    cleared them already. *)
Theorem updateVocabulary_refusal_is_a_no_op (E : External) (s : Settings) (fo : FindObject) :
  Reachable fo ->
  inconsistent (QMap.values (objects_ fo)) ->
  updateVocabulary E s fo = Some fo
  /\ for_each verifyDescriptors (QMap.values (objects_ fo)) (0%Z, (-1)%Z, (-1)%Z) = None
  /\ Library.cleared fo.
Proof.
  intros Hr Hi.
  assert (Hc : Library.cleared fo).
  { destruct (reachable_agreed fo Hr) as [_ [ Hc | Hc ]]; [ exact Hc | ].
    destruct (consistent_not_inconsistent _ Hc Hi). }
  destruct (updateVocabulary_refuses_inconsistent E s fo Hi) as [Hu _].
  rewrite (clearVocabulary_of_cleared fo Hc) in Hu.
  split; [ exact Hu | ]. split; [ exact (verify_inconsistent _ Hi) | exact Hc ].
Qed.

(** An object whose descriptors have two columns. *)
Definition wide : ObjSignature :=
  mkObjSignature 3 Example.img [] (mkMat [[3; 4]]%Q 2 5) [] "3.png".

(** The example library is built, with its store and its range map; then
    an object of another descriptor width is added. *)
Lemma wide_reachable : Reachable (fst (addObject Example.built wide)).
Proof.
  apply reach_addObject.
  apply (@reach_updateVocabulary Example.E Example.settings Example.library Example.built).
  - unfold Example.library. apply reach_addObject. apply reach_addObject.
    exact (reach_constructed 1).
  - vm_compute. reflexivity.
Qed.

Lemma wide_inconsistent :
  inconsistent (QMap.values (objects_ (fst (addObject Example.built wide)))).
Proof.
  exists Example.object1, wide.
  split; [ left; reflexivity | ]. split; [ right; right; left; reflexivity | ].
  split; [ reflexivity | ]. split; [ reflexivity | ].
  left. simpl. discriminate.
Qed.

Lemma updateVocabulary_refusal_is_a_no_op_witness :
  let fo := fst (addObject Example.built wide) in
  objectsDescriptors_ Example.built <> []
  /\ updateVocabulary Example.E Example.settings fo = Some fo
  /\ for_each verifyDescriptors (QMap.values (objects_ fo)) (0%Z, (-1)%Z, (-1)%Z) = None
  /\ Library.cleared fo.
Proof.
  split; [ discriminate | ].
  exact (updateVocabulary_refusal_is_a_no_op Example.E Example.settings
           (fst (addObject Example.built wide)) wide_reachable wide_inconsistent).
Defined.

End ReachableStates.

(** ** The homography worker *)

Module HomographyWorker.

(** The matches name keypoints that exist. *)
Definition validMatches (matches : Words) (kptsA kptsB : list KeyPoint) : Prop :=
  forall m, In m matches ->
    (0 <= fst m < Z.of_nat (length kptsA))%Z /\ (0 <= snd m < Z.of_nat (length kptsB))%Z.

Lemma vector_at_valid (A : Type) (v : list A) (i : Z) (d : A) :
  (0 <= i < Z.of_nat (length v))%Z -> vector_at v i = Some (nth (Z.to_nat i) v d).
Proof.
  intros H. unfold vector_at. destruct (Z.ltb_spec i 0); [ lia | ].
  apply nth_error_nth'. lia.
Qed.

Lemma matchedPoints_loop (kptsA kptsB : list KeyPoint) (matches : Words) :
  validMatches matches kptsA kptsB ->
  forall a b,
    exists a' b',
      for_each (matchedPoints kptsA kptsB) matches (a, b) = Some (a', b')
      /\ length a' = length a + length matches.
Proof.
  induction matches as [ | m matches IH ]; intros Hv a b.
  - exists a, b. split; [ reflexivity | simpl; lia ].
  - rewrite VocabularyInvariant.for_each_cons. unfold matchedPoints at 1.
    destruct (Hv m (or_introl eq_refl)) as [HA HB].
    rewrite (vector_at_valid _ kptsA (fst m) KeyPoint0 HA).
    rewrite (vector_at_valid _ kptsB (snd m) KeyPoint0 HB). cbn [bind fst snd].
    destruct (IH (fun m' Hm' => Hv m' (or_intror Hm')) (a ++ [pt (nth (Z.to_nat (fst m)) kptsA KeyPoint0)])
                (b ++ [pt (nth (Z.to_nat (snd m)) kptsB KeyPoint0)])) as [a' [b' [H1 H2]]].
    exists a', b'. split; [ exact H1 | ]. rewrite H2, length_app. simpl. lia.
Qed.

(** The matches the mask keeps, and those it does not. *)
Definition keptMatches (mask : list bool) (matches : Words) : Words :=
  map snd (filter fst (combine mask matches)).

Definition droppedMatches (mask : list bool) (matches : Words) : Words :=
  map snd (filter (fun p => negb (fst p)) (combine mask matches)).

Lemma splitMatch_loop (rest : Words) :
  forall (pre : Words) (mpre mrest : list bool) (inl outl : Words),
    length mpre = length pre -> length mrest = length rest ->
    exists inl' outl',
      for_each (splitMatch (map fst (pre ++ rest)) (map snd (pre ++ rest)) (mpre ++ mrest))
        (seq (length pre) (length rest)) (inl, outl) = Some (inl', outl')
      /\ Permutation inl' (keptMatches mrest rest ++ inl)
      /\ Permutation outl' (droppedMatches mrest rest ++ outl).
Proof.
  unfold keptMatches, droppedMatches.
  induction rest as [ | m rest IH ]; intros pre mpre mrest inl outl Hpre Hrest.
  - exists inl, outl. destruct mrest; [ | discriminate Hrest ]. simpl. auto.
  - destruct mrest as [ | b mrest ]; [ discriminate Hrest | ].
    cbn [length seq]. rewrite VocabularyInvariant.for_each_cons. unfold splitMatch at 1.
    assert (Hmask : nth_error (mpre ++ b :: mrest) (length pre) = Some b).
    { rewrite nth_error_app2 by lia. rewrite Hpre, Nat.sub_diag. reflexivity. }
    assert (HA : nth (length pre) (map fst (pre ++ m :: rest)) 0%Z = fst m).
    { rewrite map_app, app_nth2 by (rewrite length_map; lia).
      rewrite length_map, Nat.sub_diag. reflexivity. }
    assert (HB : nth (length pre) (map snd (pre ++ m :: rest)) 0%Z = snd m).
    { rewrite map_app, app_nth2 by (rewrite length_map; lia).
      rewrite length_map, Nat.sub_diag. reflexivity. }
    rewrite Hmask, HA, HB. cbn [bind fst snd].
    specialize (IH (pre ++ [m]) (mpre ++ [b]) mrest).
    rewrite <- !app_assoc in IH. cbn [app] in IH. rewrite !length_app in IH.
    cbn [length] in IH. rewrite !Nat.add_1_r in IH.
    assert (Hm : (fst m, snd m) = m) by (destruct m; reflexivity).
    destruct b.
    + destruct (IH (winsert (fst m) (snd m) inl) outl) as [inl' [outl' [H1 [H2 H3]]]].
      * lia.
      * simpl in Hrest. lia.
      * exists inl', outl'. split; [ exact H1 | ]. simpl. split; [ | exact H3 ].
        eapply perm_trans; [ exact H2 | ].
        eapply perm_trans; [ apply Permutation_app_head; apply VocabularyWords.q_insert_perm | ].
        rewrite Hm. apply Permutation_sym. apply Permutation_middle.
    + destruct (IH inl (winsert (fst m) (snd m) outl)) as [inl' [outl' [H1 [H2 H3]]]].
      * lia.
      * simpl in Hrest. lia.
      * exists inl', outl'. split; [ exact H1 | ]. simpl. split; [ exact H2 | ].
        eapply perm_trans; [ exact H3 | ].
        eapply perm_trans; [ apply Permutation_app_head; apply VocabularyWords.q_insert_perm | ].
        rewrite Hm. apply Permutation_sym. apply Permutation_middle.
Qed.

Lemma kept_dropped (mask : list bool) (matches : Words) :
  length mask = length matches -> Permutation (keptMatches mask matches ++ droppedMatches mask matches) matches.
Proof.
  unfold keptMatches, droppedMatches. revert matches.
  induction mask as [ | b mask IH ]; intros [ | m matches ] H; try discriminate H.
  - constructor.
  - injection H as H. specialize (IH matches H). destruct b; simpl.
    + constructor. exact IH.
    + apply Permutation_sym. apply Permutation_cons_app. apply Permutation_sym. exact IH.
Qed.

(** X21: a homography worker whose matches name keypoints that exist
    always returns (the mask of [cv::findHomography] has one entry per
    match).  With fewer matches than [Homography_minimumInliers] it fits
    nothing: its code is LowMatches, its homography is empty and it has
    neither inliers nor outliers.  Otherwise its inliers are the matches
    the mask keeps and its outliers the matches it does not, so that every
    match is in exactly one of the two; and its code is AllInliers, with
    the homography emptied, only when there is no outlier. *)
Theorem HomographyThread_run_splits_the_matches
    (findHomography : list (Q * Q) -> list (Q * Q) -> Mat * list bool)
    (s : Settings) (hs : HomographySettings) (matches : Words) (kptsA kptsB : list KeyPoint) :
  validMatches matches kptsA kptsB ->
  (forall a b, length (snd (findHomography a b)) = length a) ->
  exists t,
    HomographyThread_run findHomography s hs matches kptsA kptsB = Some t
    /\ indexesA_ t = map fst matches /\ indexesB_ t = map snd matches
    /\ (code_ t = kRejectedLowMatches <->
        (Z.of_nat (length matches) < Homography_minimumInliers s)%Z)
    /\ (code_ t = kRejectedLowMatches -> h_ t = Mat0 /\ inliers_ t = [] /\ outliers_ t = [])
    /\ (code_ t <> kRejectedLowMatches ->
        length (outlierMask_ t) = length matches
        /\ Permutation (inliers_ t) (keptMatches (outlierMask_ t) matches)
        /\ Permutation (outliers_ t) (droppedMatches (outlierMask_ t) matches)
        /\ Permutation (inliers_ t ++ outliers_ t) matches)
    /\ (code_ t = kRejectedAllInliers -> h_ t = Mat0 /\ outliers_ t = [])
    /\ (code_ t = kRejectedUndef \/ code_ t = kRejectedLowMatches
        \/ code_ t = kRejectedAllInliers).
Proof.
  intros Hvalid Hmask. unfold HomographyThread_run.
  destruct (matchedPoints_loop kptsA kptsB matches Hvalid [] []) as [a [b [Hpts Hlen]]].
  rewrite Hpts. cbn [bind]. simpl in Hlen. rewrite Hlen.
  destruct (Z.leb_spec (Homography_minimumInliers s) (Z.of_nat (length matches))) as [ Hle | Hlt ].
  - specialize (Hmask a b). destruct (findHomography a b) as [h mask]. cbn [snd] in Hmask.
    rewrite Hlen in Hmask.
    destruct (splitMatch_loop matches [] [] mask [] [] eq_refl Hmask)
      as [inl [outl [Hsplit [Hin Hout]]]].
    cbn [app length] in Hsplit.
    destruct (for_each (splitMatch _ _ mask) _ _) as [ [inl0 outl0] | ] eqn:Hloop;
      [ | discriminate Hsplit ].
    injection Hsplit as -> ->. cbn [bind]. rewrite !app_nil_r in Hin, Hout.
    assert (Hall : Permutation (inl ++ outl) matches).
    { eapply perm_trans; [ apply Permutation_app; eassumption | ].
      apply kept_dropped. exact Hmask. }
    destruct ((length inl =? length mask)%nat && negb (empty h)) eqn:Hfull.
    + assert (Hno : outl = []).
      { apply andb_true_iff in Hfull. destruct Hfull as [Hfull _].
        apply Nat.eqb_eq in Hfull. apply Permutation_length in Hall.
        rewrite length_app in Hall. apply length_zero_iff_nil. lia. }
      destruct (Homography_ignoreWhenAllInliers hs || (countNonZero h <? 1)%nat).
      * eexists. split; [ reflexivity | ]. simpl. conjs; auto; try discriminate; try lia.
        split; [ discriminate | lia ].
      * eexists. split; [ reflexivity | ]. simpl. conjs; auto; try discriminate; try lia.
        split; [ discriminate | lia ].
    + eexists. split; [ reflexivity | ]. simpl. conjs; auto; try discriminate; try lia.
      split; [ discriminate | lia ].
  - eexists. split; [ reflexivity | ]. simpl. conjs; auto; try congruence.
    split; [ intros _; exact Hlt | reflexivity ].
Qed.

Lemma HomographyThread_run_splits_the_matches_witness :
  let findHomography :=
    fun a b : list (Q * Q) =>
      (mkMat [[1; 0; 100]; [0; 1; 50]; [0; 0; 1]]%Q 3 6, map (fun p => Qeq_bool (fst p) 0) a) in
  let s := Example.multi in
  let hs := mkHomographySettings false in
  let matches := [(0, 0); (1, 1); (1, 0)]%Z in
  let kptsA := [Example.kpA; Example.kpB] in
  let kptsB := [Example.kpA; Example.kpB] in
  exists t,
    HomographyThread_run findHomography s hs matches kptsA kptsB = Some t
    /\ indexesA_ t = map fst matches /\ indexesB_ t = map snd matches
    /\ (code_ t = kRejectedLowMatches <->
        (Z.of_nat (length matches) < Homography_minimumInliers s)%Z)
    /\ (code_ t = kRejectedLowMatches -> h_ t = Mat0 /\ inliers_ t = [] /\ outliers_ t = [])
    /\ (code_ t <> kRejectedLowMatches ->
        length (outlierMask_ t) = length matches
        /\ Permutation (inliers_ t) (keptMatches (outlierMask_ t) matches)
        /\ Permutation (outliers_ t) (droppedMatches (outlierMask_ t) matches)
        /\ Permutation (inliers_ t ++ outliers_ t) matches)
    /\ (code_ t = kRejectedAllInliers -> h_ t = Mat0 /\ outliers_ t = [])
    /\ (code_ t = kRejectedUndef \/ code_ t = kRejectedLowMatches
        \/ code_ t = kRejectedAllInliers).
Proof.
  apply (HomographyThread_run_splits_the_matches
           (fun a b : list (Q * Q) =>
              (mkMat [[1; 0; 100]; [0; 1; 50]; [0; 0; 1]]%Q 3 6,
               map (fun p => Qeq_bool (fst p) 0) a))
           Example.multi (mkHomographySettings false) [(0, 0); (1, 1); (1, 0)]%Z
           [Example.kpA; Example.kpB] [Example.kpA; Example.kpB]).
  - intros m [ <- | [ <- | [ <- | [] ] ] ]; simpl; lia.
  - intros a b. simpl. apply length_map.
Defined.

End HomographyWorker.

(** ** The checks of a candidate *)

Module CandidateChecks.

Lemma existsb_none (A : Type) (f : A -> bool) (l : list A) :
  existsb f l = false <-> forall x, In x l -> f x = false.
Proof.
  induction l as [ | a l IH ]; simpl.
  - split; [ intros _ x [] | reflexivity ].
  - rewrite orb_false_iff, IH. split.
    + intros [H1 H2] x [ <- | Hx ]; auto.
    + intros H. split; [ apply H; left; reflexivity | intros x Hx; apply H; right; exact Hx ].
Qed.

(** The angles at the corners are not below the minimum angle and not
    above its supplement. *)
Definition anglesInRange (s : Settings) (c : Candidate) : Prop :=
  forall a, In a (cornerAngles c) ->
    (inject_Z (Homography_minAngle s) <= a)%Q
    /\ (a <= 180 - inject_Z (Homography_minAngle s))%Q.

Lemma checkGeometry_undef (s : Settings) (imgCols imgRows : Z) (c : Candidate) :
  checkGeometry s imgCols imgRows c = kRejectedUndef <->
  (homographyEmpty c = true -> rejectedCode c = kRejectedUndef)
  /\ (Homography_minimumInliers s <= Z.of_nat (length (getInliers c)))%Z
  /\ (forall p, In p (rectH c) -> outsideBounds imgCols imgRows p = false)
  /\ ((0 < Homography_minAngle s)%Z -> anglesInRange s c).
Proof.
  rewrite <- Z.ltb_ge, <- existsb_none, <- Z.ltb_lt.
  assert (Hangles : anglesInRange s c <->
            existsb (fun angle => Qltb angle (inject_Z (Homography_minAngle s))
                                  || Qltb (180 - inject_Z (Homography_minAngle s))%Q angle)
              (cornerAngles c) = false).
  { rewrite existsb_none. unfold anglesInRange. split; intros H a Ha.
    - destruct (H a Ha) as [H1 H2]. apply orb_false_iff. split; apply Qltb_ge; assumption.
    - specialize (H a Ha). apply orb_false_iff in H. destruct H as [H1 H2].
      split; apply Qltb_ge; assumption. }
  rewrite Hangles. unfold checkGeometry.
  destruct (homographyEmpty c), (rejectedCode c),
    (Z.of_nat (length (getInliers c)) <? Homography_minimumInliers s)%Z,
    (existsb (outsideBounds imgCols imgRows) (rectH c)),
    (0 <? Homography_minAngle s)%Z,
    (existsb _ (cornerAngles c)); simpl; intuition congruence.
Qed.


(** A worker that ends with a code has emptied its homography. *)
Lemma worker_code_empties
    (findHomography : list (Q * Q) -> list (Q * Q) -> Mat * list bool)
    (s : Settings) (hs : HomographySettings) (matches : Words) (kptsA kptsB : list KeyPoint)
    (t : HomographyThread) :
  HomographyThread_run findHomography s hs matches kptsA kptsB = Some t ->
  code_ t <> kRejectedUndef -> h_ t = Mat0.
Proof.
  unfold HomographyThread_run.
  destruct (for_each (matchedPoints kptsA kptsB) matches _) as [ [a b] | ]; [ | discriminate ].
  cbn [bind]. destruct (Homography_minimumInliers s <=? Z.of_nat (length a))%Z.
  - destruct (findHomography a b) as [h mask].
    destruct (for_each (splitMatch _ _ mask) _ _) as [ [inl outl] | ]; [ | discriminate ].
    cbn [bind]. destruct ((length inl =? length mask)%nat && negb (empty h)).
    + destruct (Homography_ignoreWhenAllInliers hs || (countNonZero h <? 1)%nat);
        intros [= <-]; simpl; [ reflexivity | congruence ].
    + intros [= <-]. simpl. congruence.
  - intros [= <-]. reflexivity.
Qed.

(** X23: the code a homography worker ends with (too few matches, or
    all matches inliers) is the code [detect] records for it, whatever the
    geometry of its candidate: the candidate is rejected under that code,
    it is not accepted and nothing is put back on the candidate list. *)
Theorem rejected_worker_is_recorded
    (findHomography : list (Q * Q) -> list (Q * Q) -> Mat * list bool)
    (translationDistance : QTransform -> QTransform -> Z)
    (s : Settings) (hs : HomographySettings) (imgCols imgRows : Z)
    (matches : Words) (kptsA kptsB : list KeyPoint) (t : HomographyThread)
    (objectId : Z) (rectH : list (Q * Q)) (cornerAngles : list Q) (st : Homographies) :
  HomographyThread_run findHomography s hs matches kptsA kptsB = Some t ->
  code_ t <> kRejectedUndef ->
  let c := candidateOf objectId t rectH cornerAngles in
  classify s imgCols imgRows translationDistance c st = (st, code_ t)
  /\ rejectedCodes_ (verifyCandidate s imgCols imgRows translationDistance c st)
     = MultiMap.q_insert Z.ltb objectId (code_ t) (rejectedCodes_ st)
  /\ objDetected_ (verifyCandidate s imgCols imgRows translationDistance c st) = objDetected_ st
  /\ matchesList (verifyCandidate s imgCols imgRows translationDistance c st) = matchesList st.
Proof.
  intros Hrun Hcode c.
  pose proof (worker_code_empties _ _ _ _ _ _ _ Hrun Hcode) as Hh.
  assert (Hclass : classify s imgCols imgRows translationDistance c st = (st, code_ t)).
  { unfold classify, checkGeometry, c, candidateOf. cbn [homographyEmpty rejectedCode].
    rewrite Hh. change (empty Mat0) with true. cbv iota.
    destruct (code_ t); try contradiction; reflexivity. }
  split; [ exact Hclass | ]. unfold verifyCandidate. rewrite Hclass.
  destruct (code_ t); try contradiction; repeat split; reflexivity.
Qed.

Lemma rejected_worker_is_recorded_witness :
  let findHomography :=
    fun a b : list (Q * Q) =>
      (mkMat [[1; 0; 100]; [0; 1; 50]; [0; 0; 1]]%Q 3 6, map (fun p => Qeq_bool (fst p) 0) a) in
  let t := mkHomographyThread [0; 1; 1]%Z [0; 1; 0]%Z [] [] [] Mat0 kRejectedLowMatches in
  let c := candidateOf 1%Z t [] [] in
  classify Example.settings 640 480 Example.exactDistance c Example.detectedBefore
  = (Example.detectedBefore, code_ t)
  /\ rejectedCodes_ (verifyCandidate Example.settings 640 480 Example.exactDistance c Example.detectedBefore)
     = MultiMap.q_insert Z.ltb 1%Z (code_ t) (rejectedCodes_ Example.detectedBefore)
  /\ objDetected_ (verifyCandidate Example.settings 640 480 Example.exactDistance c Example.detectedBefore)
     = objDetected_ Example.detectedBefore
  /\ matchesList (verifyCandidate Example.settings 640 480 Example.exactDistance c Example.detectedBefore)
     = matchesList Example.detectedBefore.
Proof.
  apply (rejected_worker_is_recorded
           (fun a b : list (Q * Q) =>
              (mkMat [[1; 0; 100]; [0; 1; 50]; [0; 0; 1]]%Q 3 6,
               map (fun p => Qeq_bool (fst p) 0) a))
           Example.exactDistance Example.settings (mkHomographySettings false) 640 480
           [(0, 0); (1, 1); (1, 0)]%Z [Example.kpA; Example.kpB] [Example.kpA; Example.kpB]
           (mkHomographyThread [0; 1; 1]%Z [0; 1; 0]%Z [] [] [] Mat0 kRejectedLowMatches)
           1%Z [] [] Example.detectedBefore).
  - reflexivity.
  - discriminate.
Defined.

End CandidateChecks.

(** ** The homography stage: the loop over the candidates *)

Module HomographyLoop.
Import VocabularyInvariant VocabularyWords HomographyWorker CandidateChecks.

(** The objects that have a verdict, accepted or rejected, one entry per
    verdict. *)
Definition verdicts (st : Homographies) : list Z :=
  map fst (objDetected_ st) ++ map fst (rejectedCodes_ st).

(** Each candidate names an object of the library and keypoints that
    exist, of the object and of the scene. *)
Definition validCandidate (fo : FindObject) (info : DetectionInfo) (i : Z) (m : Words) : Prop :=
  exists o, QMap.find i (objects_ fo) = Some o
            /\ validMatches m (keypoints o) (sceneKeypoints_ info).

(** The matches of the candidates, plus one for each candidate. *)
Definition weight (ms : list Words) : nat := list_sum (map (fun m => S (length m)) ms).

Lemma weight_app (a b : list Words) : weight (a ++ b) = weight a + weight b.
Proof. unfold weight. rewrite map_app, list_sum_app. reflexivity. Qed.

Lemma firstn_plus (A : Type) (n m : nat) (l : list A) :
  firstn (n + m) l = firstn n l ++ firstn m (skipn n l).
Proof.
  revert l. induction n as [ | n IH ]; intros l.
  - reflexivity.
  - destruct l as [ | a l ].
    + simpl. rewrite firstn_nil. reflexivity.
    + simpl. rewrite IH. reflexivity.
Qed.

Lemma skipn_nth_error (A : Type) (n : nat) (l : list A) (x : A) :
  nth_error l n = Some x -> skipn n l = x :: skipn (S n) l.
Proof.
  revert l. induction n as [ | n IH ]; intros [ | a l ] H; try discriminate H.
  - injection H as ->. reflexivity.
  - apply IH in H. exact H.
Qed.

Lemma Forall2_nth_error (A B : Type) (R : A -> B -> Prop) (l : list A) (l' : list B) (k : nat) :
  Forall2 R l l' -> k < length l' ->
  exists a b, nth_error l k = Some a /\ nth_error l' k = Some b /\ R a b.
Proof.
  intros H. revert k. induction H as [ | a b l l' Hab H IH ]; intros k Hk.
  - simpl in Hk. lia.
  - destruct k as [ | k ].
    + exists a, b. auto.
    + simpl in Hk. apply IH. lia.
Qed.

Lemma Forall2_entries (A B : Type) (R : A -> B -> Prop) (m : list (A * B)) :
  (forall a b, In (a, b) m -> R a b) -> Forall2 R (map fst m) (map snd m).
Proof.
  induction m as [ | [a b] m IH ]; intros H; simpl; constructor.
  - apply H. left. reflexivity.
  - apply IH. intros a' b' H'. apply H. right. exact H'.
Qed.

(** What a worker leaves: inliers and outliers among its matches. *)
Lemma worker_partition
    (findHomography : list (Q * Q) -> list (Q * Q) -> Mat * list bool)
    (s : Settings) (hs : HomographySettings) (matches : Words) (kptsA kptsB : list KeyPoint) :
  validMatches matches kptsA kptsB ->
  (forall a b, length (snd (findHomography a b)) = length a) ->
  exists t,
    HomographyThread_run findHomography s hs matches kptsA kptsB = Some t
    /\ length (inliers_ t) + length (outliers_ t) <= length matches
    /\ (forall m, In m (outliers_ t) -> In m matches).
Proof.
  intros Hvalid Hmask. unfold HomographyThread_run.
  destruct (matchedPoints_loop kptsA kptsB matches Hvalid [] []) as [a [b [Hpts Hlen]]].
  rewrite Hpts. cbn [bind]. simpl in Hlen. rewrite Hlen.
  destruct (Homography_minimumInliers s <=? Z.of_nat (length matches))%Z.
  - specialize (Hmask a b). destruct (findHomography a b) as [h mask]. cbn [snd] in Hmask.
    rewrite Hlen in Hmask.
    destruct (splitMatch_loop matches [] [] mask [] [] eq_refl Hmask)
      as [inl [outl [Hsplit [Hin Hout]]]].
    cbn [app length] in Hsplit.
    destruct (for_each (splitMatch _ _ mask) _ _) as [ [inl0 outl0] | ] eqn:Hloop;
      [ | discriminate Hsplit ].
    injection Hsplit as -> ->. cbn [bind]. rewrite !app_nil_r in Hin, Hout.
    assert (Hall : Permutation (inl ++ outl) matches).
    { eapply perm_trans; [ apply Permutation_app; eassumption | ].
      apply kept_dropped. exact Hmask. }
    assert (Hfacts : length inl + length outl <= length matches
                     /\ forall m, In m outl -> In m matches).
    { split.
      - rewrite <- length_app, (Permutation_length Hall). lia.
      - intros m Hm. eapply Permutation_in; [ exact Hall | ].
        apply in_or_app. right. exact Hm. }
    destruct ((length inl =? length mask)%nat && negb (empty h));
      [ destruct (Homography_ignoreWhenAllInliers hs || (countNonZero h <? 1)%nat) | ];
      eexists; (split; [ reflexivity | exact Hfacts ]).
  - eexists. split; [ reflexivity | ]. simpl. split; [ lia | intros m [] ].
Qed.

(** What the checks of a candidate do to the state: the records are for
    [verifyCandidate], the candidate list grows by the outliers or not at
    all, and it grows only under multi-detection, for a candidate that has
    enough inliers. *)
Lemma classify_effect (translationDistance : QTransform -> QTransform -> Z) (s : Settings)
    (imgCols imgRows : Z) (c : Candidate) (st : Homographies) :
  let st' := fst (classify s imgCols imgRows translationDistance c st) in
  objDetected_ st' = objDetected_ st
  /\ rejectedCodes_ st' = rejectedCodes_ st
  /\ ((matchesId st' = matchesId st /\ matchesList st' = matchesList st)
      \/ (General_multiDetection s = true
          /\ (Homography_minimumInliers s <= Z.of_nat (length (getInliers c)))%Z
          /\ matchesId st' = matchesId st ++ [getObjectId c]
          /\ matchesList st' = matchesList st ++ [getOutliers c])).
Proof.
  unfold classify.
  destruct (checkGeometry s imgCols imgRows c) eqn:Hc;
    destruct (General_multiDetection s) eqn:Hm; simpl; auto.
  split; [ reflexivity | split; [ reflexivity | right ] ].
  apply checkGeometry_undef in Hc. tauto.
Qed.

Lemma verifyCandidate_effect (translationDistance : QTransform -> QTransform -> Z)
    (s : Settings) (imgCols imgRows : Z) (c : Candidate) (st : Homographies) :
  let st' := verifyCandidate s imgCols imgRows translationDistance c st in
  Permutation (verdicts st') (getObjectId c :: verdicts st)
  /\ ((matchesId st' = matchesId st /\ matchesList st' = matchesList st)
      \/ (General_multiDetection s = true
          /\ (Homography_minimumInliers s <= Z.of_nat (length (getInliers c)))%Z
          /\ matchesId st' = matchesId st ++ [getObjectId c]
          /\ matchesList st' = matchesList st ++ [getOutliers c])).
Proof.
  destruct (classify_effect translationDistance s imgCols imgRows c st) as [Hd [Hr Hl]].
  unfold verifyCandidate. destruct (classify s imgCols imgRows translationDistance c st) as [st1 code].
  cbn [fst] in Hd, Hr, Hl.
  destruct (isUndef code); unfold verdicts;
    cbn [objDetected_ rejectedCodes_ matchesId matchesList]; rewrite ?Hd, ?Hr;
    (split; [ | exact Hl ]).
  - apply (Permutation_app_tail (map fst (rejectedCodes_ st))
             (Permutation_map fst (q_insert_perm _ _ Z.ltb (getObjectId c) (hTransform c)
                                     (objDetected_ st)))).
  - eapply perm_trans.
    + apply Permutation_app_head. apply Permutation_map. apply q_insert_perm.
    + simpl. apply Permutation_sym. apply Permutation_middle.
Qed.

Section Loop.
Variable findHomography : list (Q * Q) -> list (Q * Q) -> Mat * list bool.
Variable mapToScene : QTransform -> ObjSignature -> list (Q * Q).
Variable QLineF_angle : (Q * Q) * (Q * Q) -> (Q * Q) * (Q * Q) -> Q.
Variable translationDistance : QTransform -> QTransform -> Z.
Variable s : Settings.
Variable hs : HomographySettings.
Variables imgCols imgRows : Z.
Variable fo : FindObject.
Variable info : DetectionInfo.
Hypothesis Hmask : forall a b, length (snd (findHomography a b)) = length a.

Lemma startHomography_returns (st : Homographies) (k : nat) :
  Forall2 (validCandidate fo info) (matchesId st) (matchesList st) ->
  k < length (matchesList st) ->
  exists i m o t,
    nth_error (matchesId st) k = Some i /\ nth_error (matchesList st) k = Some m
    /\ QMap.find i (objects_ fo) = Some o
    /\ validMatches m (keypoints o) (sceneKeypoints_ info)
    /\ startHomography findHomography s hs fo info st k = Some (i, o, t)
    /\ length (inliers_ t) + length (outliers_ t) <= length m
    /\ (forall x, In x (outliers_ t) -> In x m).
Proof.
  intros Hvalid Hk.
  destruct (Forall2_nth_error _ _ _ _ _ k Hvalid Hk) as [i [m [Hi [Hm [o [Ho Hv]]]]]].
  destruct (worker_partition findHomography s hs m (keypoints o) (sceneKeypoints_ info)
              Hv Hmask) as [t [Ht [Hlen Hsub]]].
  exists i, m, o, t. unfold startHomography. rewrite Hi, Hm. cbn [bind]. rewrite Ho.
  cbn [bind]. rewrite Ht. cbn [bind]. auto 10.
Qed.

Lemma joinHomography_effect (st : Homographies) (i : Z) (o : ObjSignature)
    (t : HomographyThread) :
  let st' := joinHomography mapToScene QLineF_angle translationDistance s imgCols imgRows st (i, o, t) in
  Permutation (verdicts st') (i :: verdicts st)
  /\ ((matchesId st' = matchesId st /\ matchesList st' = matchesList st)
      \/ (General_multiDetection s = true
          /\ (Homography_minimumInliers s <= Z.of_nat (length (inliers_ t)))%Z
          /\ matchesId st' = matchesId st ++ [i]
          /\ matchesList st' = matchesList st ++ [outliers_ t])).
Proof.
  unfold joinHomography.
  exact (verifyCandidate_effect translationDistance s imgCols imgRows
           (candidateOf i t (mapToScene (transformOf (h_ t)) o)
              (cornerAnglesOf QLineF_angle (mapToScene (transformOf (h_ t)) o))) st).
Qed.

(** A pass of the loop that starts one worker. *)
Lemma batch_single (st : Homographies) (i : nat) :
  Forall2 (validCandidate fo info) (matchesId st) (matchesList st) ->
  i < length (matchesList st) ->
  exists id m o t,
    nth_error (matchesId st) i = Some id /\ nth_error (matchesList st) i = Some m
    /\ QMap.find id (objects_ fo) = Some o
    /\ validMatches m (keypoints o) (sceneKeypoints_ info)
    /\ HomographyThread_run findHomography s hs m (keypoints o) (sceneKeypoints_ info) = Some t
    /\ length (inliers_ t) + length (outliers_ t) <= length m
    /\ (forall x, In x (outliers_ t) -> In x m)
    /\ forall threadCounts,
         Z.to_nat (Z.min threadCounts (Z.of_nat (length (matchesList st)) - Z.of_nat i)) = 1 ->
         batch findHomography mapToScene QLineF_angle translationDistance s hs imgCols imgRows fo info
           threadCounts (Z.of_nat i) st
         = Some (joinHomography mapToScene QLineF_angle translationDistance s imgCols imgRows st (id, o, t)).
Proof.
  intros Hvalid Hi.
  destruct (startHomography_returns st i Hvalid Hi)
    as [id [m [o [t [Hid [Hm [Ho [Hv [Hstart [Hlen Hsub]]]]]]]]]].
  exists id, m, o, t. repeat (split; [ assumption | ]).
  split.
  { unfold startHomography in Hstart. rewrite Hid, Hm in Hstart. cbn [bind] in Hstart.
    rewrite Ho in Hstart. cbn [bind] in Hstart.
    destruct (HomographyThread_run _ _ _ _ _ _) as [t' | ]; [ | discriminate Hstart ].
    cbn [bind] in Hstart. injection Hstart as ->. reflexivity. }
  repeat (split; [ assumption | ]).
  intros threadCounts Hn. unfold batch. rewrite Hn, Nat2Z.id. cbn [seq].
  rewrite for_each_cons, Hstart. reflexivity.
Qed.

Lemma firstn_next (A : Type) (i : nat) (l : list A) (x : A) :
  nth_error l i = Some x -> firstn (S i) l = firstn i l ++ [x].
Proof.
  intros H. rewrite <- Nat.add_1_r, firstn_plus, (skipn_nth_error _ _ _ _ H). reflexivity.
Qed.

(** With one worker at a time, every candidate is examined in its turn,
    also the ones put on the list on the way; the list stops growing
    because a candidate that is put back has lost an inlier. *)
Lemma loop_single :
  (1 <= Homography_minimumInliers s)%Z ->
  forall (fuel i : nat) (st : Homographies),
    Forall2 (validCandidate fo info) (matchesId st) (matchesList st) ->
    i <= length (matchesList st) ->
    Permutation (verdicts st) (firstn i (matchesId st)) ->
    weight (skipn i (matchesList st)) < fuel ->
    exists st' moreId more,
      homographyLoop findHomography mapToScene QLineF_angle translationDistance s hs imgCols imgRows
        fuel fo info 1 (Z.of_nat i) st = Some (Some st')
      /\ matchesId st' = matchesId st ++ moreId
      /\ matchesList st' = matchesList st ++ more
      /\ Permutation (verdicts st') (matchesId st')
      /\ length (matchesList st') <= i + weight (skipn i (matchesList st)).
Proof.
  intros Hmin. induction fuel as [ | fuel IH ]; intros i st Hvalid Hi Hperm Hfuel; [ lia | ].
  pose proof (Forall2_length Hvalid) as Hlen.
  cbn [homographyLoop].
  destruct (Z.ltb_spec (Z.of_nat i) (Z.of_nat (length (matchesList st)))) as [ Hlt | Hge ].
  - apply Nat2Z.inj_lt in Hlt.
    destruct (batch_single st i Hvalid Hlt)
      as [id [m [o [t [Hid [Hm [Ho [Hv [_ [Hsize [Hsub Hbatch]]]]]]]]]]].
    rewrite (Hbatch 1%Z) by lia.
    replace (Z.of_nat i + 1)%Z with (Z.of_nat (S i)) by lia.
    destruct (joinHomography_effect st id o t) as [Hverdict Hlists].
    set (st1 := joinHomography mapToScene QLineF_angle translationDistance s imgCols imgRows st (id, o, t)) in *.
    rewrite (skipn_nth_error _ _ _ _ Hm) in Hfuel |- *.
    change (weight (m :: skipn (S i) (matchesList st)))
      with (S (length m) + weight (skipn (S i) (matchesList st))) in Hfuel |- *.
    assert (Hnext : Permutation (id :: verdicts st) (firstn (S i) (matchesId st))).
    { rewrite (firstn_next _ _ _ _ Hid). eapply perm_trans.
      - apply perm_skip. exact Hperm.
      - apply Permutation_cons_append. }
    destruct Hlists as [ [Hids Hms] | [_ [Hinl [Hids Hms]]] ].
    + destruct (IH (S i) st1) as [st' [moreId [more [Hloop [H1 [H2 [H3 H4]]]]]]].
      * rewrite Hids, Hms. exact Hvalid.
      * rewrite Hms. lia.
      * rewrite Hids. eapply perm_trans; [ exact Hverdict | exact Hnext ].
      * rewrite Hms. lia.
      * exists st', moreId, more. split; [ exact Hloop | ].
        split; [ rewrite H1, Hids; reflexivity | ].
        split; [ rewrite H2, Hms; reflexivity | ].
        split; [ exact H3 | ]. rewrite Hms in H4. lia.
    + assert (Hless : length (outliers_ t) < length m) by lia.
      destruct (IH (S i) st1) as [st' [moreId [more [Hloop [H1 [H2 [H3 H4]]]]]]].
      * rewrite Hids, Hms. apply Forall2_app; [ exact Hvalid | ].
        constructor; [ | constructor ]. exists o. split; [ exact Ho | ].
        intros x Hx. apply Hv. apply Hsub. exact Hx.
      * rewrite Hms, length_app. simpl. lia.
      * rewrite Hids, firstn_app. replace (S i - length (matchesId st)) with 0 by lia.
        change (firstn 0 [id]) with (@nil Z). rewrite app_nil_r.
        eapply perm_trans; [ exact Hverdict | exact Hnext ].
      * rewrite Hms, skipn_app. replace (S i - length (matchesList st)) with 0 by lia.
        change (skipn 0 [outliers_ t]) with [outliers_ t]. rewrite weight_app.
        change (weight [outliers_ t]) with (S (length (outliers_ t)) + 0). lia.
      * exists st', (id :: moreId), (outliers_ t :: more). split; [ exact Hloop | ].
        split; [ rewrite H1, Hids, <- app_assoc; reflexivity | ].
        split; [ rewrite H2, Hms, <- app_assoc; reflexivity | ].
        split; [ exact H3 | ]. rewrite Hms, skipn_app in H4.
        replace (S i - length (matchesList st)) with 0 in H4 by lia.
        change (skipn 0 [outliers_ t]) with [outliers_ t] in H4. rewrite weight_app in H4.
        change (weight [outliers_ t]) with (S (length (outliers_ t)) + 0) in H4. lia.
  - apply Nat2Z.inj_le in Hge. exists st, [], []. rewrite !app_nil_r.
    repeat split; auto; [ | lia ].
    rewrite firstn_all2 in Hperm by lia. exact Hperm.
Qed.




End Loop.


Lemma stage_candidates_valid :
  forall i m, In (i, m) (matches_ ExampleStage.scene) ->
    validCandidate ExampleStage.library ExampleStage.scene i m.
Proof.
  intros i m [ H | [] ]. injection H as <- <-.
  eexists. split; [ reflexivity | ].
  intros x [ <- | [ <- | [ <- | [] ] ] ]; simpl; lia.
Qed.


(** X25: with one thread and at least one inlier asked for, the stage
    always returns, with or without multi-detection: a candidate that is
    put back on the list has lost an inlier, so the passes are at most the
    matches plus the entries of the match map.  Every candidate of the
    final list, the entries of the match map first and then the ones put
    back, has exactly one verdict. *)
Theorem stage_with_one_thread_examines_every_candidate
    (findHomography : list (Q * Q) -> list (Q * Q) -> Mat * list bool)
    (mapToScene : QTransform -> ObjSignature -> list (Q * Q))
    (QLineF_angle : (Q * Q) * (Q * Q) -> (Q * Q) * (Q * Q) -> Q)
    (translationDistance : QTransform -> QTransform -> Z)
    (s : Settings) (hs : HomographySettings) (imgCols imgRows : Z)
    (fo : FindObject) (info : DetectionInfo) :
  General_threads s = 1%Z -> (1 <= Homography_minimumInliers s)%Z ->
  (forall a b, length (snd (findHomography a b)) = length a) ->
  (forall i m, In (i, m) (matches_ info) -> validCandidate fo info i m) ->
  exists st' moreId more,
    detect_homographies findHomography mapToScene QLineF_angle translationDistance s hs imgCols imgRows
      (S (weight (QMap.values (matches_ info)))) fo info = Some (Some st')
    /\ matchesId st' = QMap.keys (matches_ info) ++ moreId
    /\ matchesList st' = QMap.values (matches_ info) ++ more
    /\ Permutation (verdicts st') (matchesId st')
    /\ length (matchesList st') <= weight (QMap.values (matches_ info)).
Proof.
  intros Hthreads Hmin Hmask Hvalid. unfold detect_homographies. rewrite Hthreads.
  cbn [Z.eqb].
  exact (loop_single findHomography mapToScene QLineF_angle translationDistance s hs imgCols imgRows fo info
           Hmask Hmin (S (weight (QMap.values (matches_ info)))) 0
           (mkHomographies (QMap.keys (matches_ info)) (QMap.values (matches_ info))
              [] [] [] [] [] [])
           (Forall2_entries _ _ _ _ Hvalid) (Nat.le_0_l _) (Permutation_refl _)
           (Nat.lt_succ_diag_r _)).
Qed.

Lemma stage_with_one_thread_examines_every_candidate_witness :
  exists st' moreId more,
    detect_homographies ExampleStage.findHomography ExampleStage.mapToScene
      ExampleStage.QLineF_angle Example.exactDistance Example.multi (mkHomographySettings false) 640 480
      (S (weight (QMap.values (matches_ ExampleStage.scene))))
      ExampleStage.library ExampleStage.scene = Some (Some st')
    /\ matchesId st' = QMap.keys (matches_ ExampleStage.scene) ++ moreId
    /\ matchesList st' = QMap.values (matches_ ExampleStage.scene) ++ more
    /\ Permutation (verdicts st') (matchesId st')
    /\ length (matchesList st') <= weight (QMap.values (matches_ ExampleStage.scene)).
Proof.
  apply (stage_with_one_thread_examines_every_candidate ExampleStage.findHomography
           ExampleStage.mapToScene ExampleStage.QLineF_angle Example.exactDistance Example.multi
           (mkHomographySettings false) 640 480 ExampleStage.library ExampleStage.scene).
  - reflexivity.
  - simpl. lia.
  - intros a b. apply length_map.
  - exact stage_candidates_valid.
Defined.



End HomographyLoop.

(** ** From the matches of [detect] to the candidates of the stage *)

Module DetectToStage.
Import VocabularyInvariant UpdateVocabulary LibraryMap LibraryInvariant VocabularyWords.
Import Detecting BuildingVocabulary SearchModes HomographyWorker HomographyLoop.

(** The state [updateVocabulary] leaves for one thread in object-to-scene
    mode, when the objects have not changed since: the single matrix of
    all the descriptor rows and its range map. *)
Definition builtForOneThread (fo : FindObject) : Prop :=
  dataRange_ fo = ranges 0 (QMap.values (objects_ fo))
  /\ exists dim ty,
       objectsDescriptors_ fo
       = [(0%Z, mkMat (allRows (QMap.values (objects_ fo))) dim ty)].

(** An entry of the match map pairs rows of the descriptors of its object
    with rows of the descriptors of the scene. *)
Definition pairsRows (fo : FindObject) (sceneRows : nat) (e : Z * Words) : Prop :=
  exists o, QMap.find (fst e) (objects_ fo) = Some o
            /\ forall p, In p (snd e) ->
                 (0 <= fst p < Z.of_nat (rows (descriptors o)))%Z
                 /\ (0 <= snd p < Z.of_nat sceneRows)%Z.

(** A row of the single matrix is a row of one object. *)
Lemma row_owner (l : list ObjSignature) (i : nat) :
  i < totalRows l ->
  exists l1 o l2 j, l = l1 ++ o :: l2 /\ j < rows (descriptors o) /\ i = totalRows l1 + j.
Proof.
  revert i. unfold totalRows. induction l as [ | o l IH ]; intros i Hi; simpl in Hi; [ lia | ].
  destruct (Nat.lt_ge_cases i (rows (descriptors o))) as [ Hlt | Hge ].
  - exists [], o, l, i. simpl. auto.
  - destruct (IH (i - rows (descriptors o)) ltac:(lia)) as [l1 [o' [l2 [j [Hl [Hj Hi']]]]]].
    exists (o :: l1), o', l2, j. rewrite Hl. simpl. repeat split; auto. lia.
Qed.

Lemma insertDirect_owner (fo : FindObject) (sceneWords : Words) (l1 l2 : list ObjSignature)
    (o : ObjSignature) (j : nat) (wordId : Z) (m : QMap.t Words) :
  dataRange_ fo = ranges 0 (l1 ++ o :: l2) -> j < rows (descriptors o) ->
  insertDirect fo sceneWords (totalRows l1 + j) wordId m
  = if (MultiMap.count Z.ltb wordId sceneWords =? 1)%nat
    then insertMatch (id o) (Z.of_nat j) (MultiMap.value Z.ltb 0%Z wordId sceneWords) m
    else m.
Proof.
  intros Hr Hj. unfold insertDirect. rewrite Hr.
  destruct (ranges_lookup l1 l2 o j Hj) as [[k [rest Hlb]] Hnext]. cbv zeta in Hlb, Hnext.
  unfold nextRow in Hnext. rewrite Hlb, Hnext.
  replace (Z.of_nat (totalRows l1 + j) - Z.of_nat (totalRows l1))%Z with (Z.of_nat j) by lia.
  reflexivity.
Qed.

Lemma identity_values_above (n : nat) :
  forall a j, (Z.of_nat (a + n) <= j)%Z ->
    MultiMap.values Z.ltb j (map (fun i => (Z.of_nat i, Z.of_nat i)) (seq a n)) = [].
Proof.
  unfold MultiMap.values, MultiMap.eqk.
  induction n as [ | n IH ]; intros a j H; simpl; [ reflexivity | ].
  destruct (Z.ltb_spec j (Z.of_nat a)); [ lia | ].
  destruct (Z.ltb_spec (Z.of_nat a) j); [ | lia ]. simpl. apply IH. lia.
Qed.

(** A word that the scene holds once is the number of a scene row. *)
Lemma sceneWords_unique (d : Mat) (w : Z) :
  MultiMap.count Z.ltb w (sceneWords d) = 1 ->
  (0 <= w < Z.of_nat (rows d))%Z /\ MultiMap.value Z.ltb 0%Z w (sceneWords d) = w.
Proof.
  unfold MultiMap.count, MultiMap.value, sceneWords. intros H.
  destruct (Z.ltb_spec w 0).
  - rewrite (identity_values_none (rows d) 0 w) in H by lia. discriminate H.
  - destruct (Z.ltb_spec w (Z.of_nat (rows d))).
    + rewrite (identity_values (rows d) 0 w) by lia. simpl. split; [ lia | reflexivity ].
    + rewrite (identity_values_above (rows d) 0 w) in H by lia. discriminate H.
Qed.

Lemma insertMatch_pairs (fo : FindObject) (n : nat) (objectId a b : Z) (o : ObjSignature)
    (m : QMap.t Words) :
  sorted m -> (forall e, In e m -> pairsRows fo n e) ->
  QMap.find objectId (objects_ fo) = Some o ->
  (0 <= a < Z.of_nat (rows (descriptors o)))%Z -> (0 <= b < Z.of_nat n)%Z ->
  forall e, In e (insertMatch objectId a b m) -> pairsRows fo n e.
Proof.
  intros Hs Hm Ho Ha Hb e He. unfold insertMatch in He.
  destruct (QMap.find objectId m) as [ w | ] eqn:Hf; [ | auto ].
  apply (insert_In _ _ _ _ _ Hs) in He. destruct He as [ -> | [He _] ]; [ | auto ].
  exists o. split; [ exact Ho | ]. cbn [snd]. intros p Hp. unfold winsert in Hp.
  apply q_insert_In in Hp. destruct Hp as [ -> | Hp ]; [ simpl; auto | ].
  destruct (Hm _ (find_In _ _ _ _ Hf)) as [o' [Ho' Hw]]. cbn [fst snd] in Ho', Hw.
  assert (o' = o) by congruence. subst o'. apply Hw. exact Hp.
Qed.

(** The match map as [detect] starts it: an empty entry per object. *)
Lemma initial_pairs (fo : FindObject) (n : nat) (l : QMap.t ObjSignature) :
  (forall e, In e l -> QMap.find (fst e) (objects_ fo) = Some (snd e)) ->
  forall m : QMap.t Words,
    sorted m -> (forall e, In e m -> pairsRows fo n e) ->
    sorted (fold_left (fun m e => QMap.insert (fst e) [] m) l m)
    /\ forall e, In e (fold_left (fun m e => QMap.insert (fst e) [] m) l m) -> pairsRows fo n e.
Proof.
  induction l as [ | x l IH ]; intros Hl m Hs Hm; [ simpl; auto | ].
  cbn [fold_left]. apply IH.
  - intros e He. apply Hl. right. exact He.
  - apply insert_sorted. exact Hs.
  - intros e He. apply (insert_In _ _ _ _ _ Hs) in He. destruct He as [ -> | [He _] ]; [ | auto ].
    exists (snd x). split; [ apply Hl; left; reflexivity | intros p [] ].
Qed.

Lemma processRow_pairs (E : External) (s : Settings) (fo : FindObject) (d : Mat) :
  General_invertedSearch s = false -> wellKeyed fo ->
  dataRange_ fo = ranges 0 (QMap.values (objects_ fo)) ->
  forall (irs : list (nat * KnnRow)) (st : QMap.t Words * Q * Q),
    (forall ir, In ir irs -> fst ir < totalRows (QMap.values (objects_ fo))) ->
    sorted (fst (fst st)) -> (forall e, In e (fst (fst st)) -> pairsRows fo (rows d) e) ->
    forall e, In e (fst (fst (fold_left (processRow E s fo (sceneWords d)) irs st))) ->
      pairsRows fo (rows d) e.
Proof.
  intros Hinv [Hsorted Hid] Hrange.
  induction irs as [ | [i r] irs IH ]; intros [[m mn] mx] Hrows Hs Hm; [ exact Hm | ].
  cbn [fold_left]. cbn [fst] in Hs, Hm.
  assert (Hstep : sorted (fst (fst (processRow E s fo (sceneWords d) (m, mn, mx) (i, r))))
                  /\ forall e, In e (fst (fst (processRow E s fo (sceneWords d) (m, mn, mx) (i, r))))
                               -> pairsRows fo (rows d) e).
  { unfold processRow. rewrite Hinv. cbn [fst].
    destruct (matched E s r); [ | auto ].
    destruct (row_owner _ i (Hrows (i, r) (or_introl eq_refl))) as [l1 [o [l2 [j [Hl [Hj ->]]]]]].
    rewrite Hl in Hrange. rewrite (insertDirect_owner fo _ l1 l2 o j _ m Hrange Hj).
    destruct (Nat.eqb_spec (MultiMap.count Z.ltb (index_at r 0) (sceneWords d)) 1)
      as [ Hone | _ ]; [ | auto ].
    destruct (sceneWords_unique d _ Hone) as [Hw ->].
    split; [ apply (insertMatch_keys _ _ _ m Hs) | ].
    assert (Ho : In o (QMap.values (objects_ fo))).
    { rewrite Hl. apply in_or_app. right. left. reflexivity. }
    unfold QMap.values in Ho. apply in_map_iff in Ho. destruct Ho as [[k o'] [Heq Hin]].
    cbn [snd] in Heq. subst o'. pose proof (Hid _ _ Hin) as Hk.
    apply (insertMatch_pairs fo (rows d) (id o) (Z.of_nat j) (index_at r 0) o m Hs Hm);
      [ | lia | exact Hw ].
    rewrite Hk. apply sorted_find; assumption. }
  destruct Hstep as [Hs' Hm']. apply IH; auto.
  intros ir Hir. apply Hrows. right. exact Hir.
Qed.

(** The matching stage of [detect] in object-to-scene mode with one thread
    and a vocabulary that is not incremental. *)
Lemma detect_pairs (E : External) (s : Settings) (fo : FindObject) (img : Mat) :
  General_invertedSearch s = false -> General_threads s = 1%Z ->
  General_vocabularyIncremental s = false ->
  wellKeyed fo -> builtForOneThread fo ->
  (forall index queries k, length (flann_knnSearch E index queries k) = rows queries) ->
  empty img = false -> canCompare s fo (sceneInfo E s img) = true ->
  empty (snd (extractFeatures E s img)) = false ->
  exists d,
    detect E s fo img = Some d /\ success d = true
    /\ objects_ (after d) = objects_ fo
    /\ sceneKeypoints_ (info d) = fst (extractFeatures E s img)
    /\ (forall k, In k (QMap.keys (objects_ fo)) -> In k (QMap.keys (matches_ (info d))))
    /\ forall e, In e (matches_ (info d)) ->
         pairsRows fo (rows (snd (extractFeatures E s img))) e.
Proof.
  intros Hinv Hthreads Hinc Hkeyed [Hrange [dim [ty Hstore]]] Hflann Himg Hcmp Hd.
  unfold detect, sceneInfo in *. rewrite Himg.
  destruct (extractFeatures E s img) as [kpts descs]. cbn [fst snd] in *.
  rewrite Hcmp, Hinv. cbn [negb bind orb].
  rewrite (indexScene_exact E s fo descs Hinc Hd). cbn [bind].
  rewrite Hthreads. cbn [Z.eqb Pos.eqb].
  change (objectsDescriptors_ (setVocabulary fo (sceneIndex descs)))
    with (objectsDescriptors_ fo).
  change (vocabulary_ (setVocabulary fo (sceneIndex descs))) with (sceneIndex descs).
  change (objects_ (setVocabulary fo (sceneIndex descs))) with (objects_ fo).
  rewrite Hstore.
  set (M := mkMat (allRows (QMap.values (objects_ fo))) dim ty).
  set (fo' := setVocabulary fo (sceneIndex descs)).
  set (m0 := fold_left (fun m e => QMap.insert (fst e) [] m) (objects_ fo) []).
  pose proof (processRow_pairs E s fo' descs Hinv Hkeyed Hrange
                (numbered (search E (sceneIndex descs) M (knn s))) (m0, Qm1, Qm1)) as Hfold.
  destruct (initial_keys (objects_ fo) [] ltac:(constructor)) as [Hsorted0 Hkeys0].
  destruct (fold_left (processRow E s fo' (sceneWords descs)) _ _) as [[m mn] mx] eqn:Hresult.
  destruct (processRow_keys _ _ _ _ _ _ _ _ _ Hresult Hsorted0) as [_ Hkeys].
  cbn [fst] in Hkeys.
  eexists. split; [ reflexivity | ]. cbn [success after info sceneKeypoints_ matches_].
  repeat (split; [ reflexivity | ]).
  split; [ intros k Hk; apply Hkeys, Hkeys0; right; exact Hk | ].
  destruct Hkeyed as [Hsorted Hid].
  destruct (initial_pairs fo (rows descs) (objects_ fo)
              (fun e He => sorted_find _ (fst e) (snd e) _ Hsorted
                             ltac:(destruct e; exact He))
              [] ltac:(constructor) ltac:(intros e [])) as [Hs0 Hm0].
  intros e He. apply (Hfold); [ | exact Hs0 | exact Hm0 | exact He ].
  intros [i r] Hir. cbn [fst]. unfold numbered in Hir. apply in_combine_l in Hir.
  apply in_seq in Hir. unfold search in Hir. cbn [sceneIndex indexedDescriptors_ flannIndex_] in Hir.
  rewrite Hd in Hir. cbn [negb] in Hir. rewrite Hflann in Hir.
  unfold M, rows in Hir. cbn [data] in Hir. rewrite allRows_length in Hir.
  change (objects_ fo') with (objects_ fo). lia.
Qed.

(** Matches between rows are matches between keypoints when every row
    has its keypoint. *)
Lemma pairs_valid (fo fo' : FindObject) (info : DetectionInfo) (n : nat) (i : Z) (m : Words) :
  objects_ fo' = objects_ fo ->
  (forall o, In o (QMap.values (objects_ fo)) -> length (keypoints o) = rows (descriptors o)) ->
  length (sceneKeypoints_ info) = n ->
  pairsRows fo n (i, m) -> validCandidate fo' info i m.
Proof.
  intros Hobj Hk Hs [o [Ho Hp]]. cbn [fst snd] in Ho, Hp. exists o. rewrite Hobj.
  split; [ exact Ho | ]. intros p Hin. destruct (Hp p Hin) as [Ha Hb].
  rewrite (Hk o), Hs; [ auto | ].
  apply find_In in Ho. unfold QMap.values. apply in_map_iff. exists (i, o). auto.
Qed.

(** X27: in object-to-scene mode with one thread and a vocabulary that
    is not incremental, on a library as [updateVocabulary] built it, the
    matches that [detect] records name keypoints that exist: every entry
    of the match map is of an object of the library and pairs keypoints of
    this object with keypoints of the scene, so that no worker of the
    homography stage reads outside of its keypoints.  (FLANN answers one
    row per query row; the objects and the scene have one keypoint per
    descriptor row.) *)
Theorem detect_matches_name_keypoints (E : External) (s : Settings) (fo : FindObject)
    (img : Mat) :
  General_invertedSearch s = false -> General_threads s = 1%Z ->
  General_vocabularyIncremental s = false ->
  wellKeyed fo -> builtForOneThread fo ->
  (forall index queries k, length (flann_knnSearch E index queries k) = rows queries) ->
  (forall o, In o (QMap.values (objects_ fo)) -> length (keypoints o) = rows (descriptors o)) ->
  length (fst (extractFeatures E s img)) = rows (snd (extractFeatures E s img)) ->
  empty img = false -> canCompare s fo (sceneInfo E s img) = true ->
  empty (snd (extractFeatures E s img)) = false ->
  exists d,
    detect E s fo img = Some d /\ success d = true
    /\ forall i m, In (i, m) (matches_ (info d)) -> validCandidate (after d) (info d) i m.
Proof.
  intros Hinv Hthreads Hinc Hkeyed Hbuilt Hflann Hobjects Hscene Himg Hcmp Hd.
  destruct (detect_pairs E s fo img Hinv Hthreads Hinc Hkeyed Hbuilt Hflann Himg Hcmp Hd)
    as [d [Hdetect [Hsuccess [Hobj [Hkpts [_ Hpairs]]]]]].
  exists d. split; [ exact Hdetect | ]. split; [ exact Hsuccess | ].
  intros i m Him.
  apply (pairs_valid fo (after d) (info d) (rows (snd (extractFeatures E s img))) i m
           Hobj Hobjects).
  - rewrite Hkpts. exact Hscene.
  - apply Hpairs. exact Him.
Qed.

(** A library of one object with the features of its image, built for
    one thread. *)
Definition featuredLibrary : FindObject :=
  let fo := updateObjects Example.E Example.multi
              (fst (addObject Example.FindObject0 (Example.object 1 "1.png"))) in
  match updateVocabulary Example.E Example.multi fo with Some fo' => fo' | None => fo end.

Lemma featuredLibrary_wellKeyed : wellKeyed featuredLibrary.
Proof.
  split.
  - repeat constructor.
  - intros k o [ H | [] ]. injection H as <- <-. reflexivity.
Qed.

Lemma featuredLibrary_built : builtForOneThread featuredLibrary.
Proof. split; [ reflexivity | exists 1, 5; reflexivity ]. Qed.

Lemma featuredLibrary_keypoints :
  forall o, In o (QMap.values (objects_ featuredLibrary)) ->
    length (keypoints o) = rows (descriptors o).
Proof. intros o [ <- | [] ]. reflexivity. Qed.

Lemma example_row_per_query :
  forall index queries k, length (flann_knnSearch Example.E index queries k) = rows queries.
Proof. intros index queries k. simpl. apply length_map. Qed.

Lemma detect_matches_name_keypoints_witness :
  exists d,
    detect Example.E Example.multi featuredLibrary Example.img = Some d /\ success d = true
    /\ forall i m, In (i, m) (matches_ (info d)) -> validCandidate (after d) (info d) i m.
Proof.
  apply (detect_matches_name_keypoints Example.E Example.multi featuredLibrary Example.img);
    try reflexivity.
  - exact featuredLibrary_wellKeyed.
  - exact featuredLibrary_built.
  - exact example_row_per_query.
  - exact featuredLibrary_keypoints.
Defined.

(** X28: in this mode [detect] runs to its end, the matching and then
    the homography stage, when at least one inlier is asked for: no search
    and no worker raises, the stage stops after at most one pass per match
    and per entry of the match map, every candidate has one verdict and
    every object of the library has at least one. *)
Theorem detect_with_one_thread_gives_every_object_a_verdict
    (E : External) (s : Settings) (hs : HomographySettings)
    (findHomography : list (Q * Q) -> list (Q * Q) -> Mat * list bool)
    (mapToScene : QTransform -> ObjSignature -> list (Q * Q))
    (QLineF_angle : (Q * Q) * (Q * Q) -> (Q * Q) * (Q * Q) -> Q)
    (translationDistance : QTransform -> QTransform -> Z)
    (fo : FindObject) (img : Mat) :
  General_invertedSearch s = false -> General_threads s = 1%Z ->
  General_vocabularyIncremental s = false ->
  (1 <= Homography_minimumInliers s)%Z ->
  wellKeyed fo -> builtForOneThread fo ->
  (forall index queries k, length (flann_knnSearch E index queries k) = rows queries) ->
  (forall a b, length (snd (findHomography a b)) = length a) ->
  (forall o, In o (QMap.values (objects_ fo)) -> length (keypoints o) = rows (descriptors o)) ->
  length (fst (extractFeatures E s img)) = rows (snd (extractFeatures E s img)) ->
  empty img = false -> canCompare s fo (sceneInfo E s img) = true ->
  empty (snd (extractFeatures E s img)) = false ->
  exists d st',
    detect E s fo img = Some d /\ success d = true
    /\ detect_homographies findHomography mapToScene QLineF_angle translationDistance s hs
         (Z.of_nat (cols img)) (Z.of_nat (rows img))
         (S (weight (QMap.values (matches_ (info d))))) (after d) (info d) = Some (Some st')
    /\ Permutation (verdicts st') (matchesId st')
    /\ (forall i, In i (QMap.keys (objects_ fo)) -> In i (verdicts st')).
Proof.
  intros Hinv Hthreads Hinc Hmin Hkeyed Hbuilt Hflann Hmask Hobjects Hscene Himg Hcmp Hd.
  destruct (detect_pairs E s fo img Hinv Hthreads Hinc Hkeyed Hbuilt Hflann Himg Hcmp Hd)
    as [d [Hdetect [Hsuccess [Hobj [Hkpts [Hkeys Hpairs]]]]]].
  assert (Hvalid : Forall2 (validCandidate (after d) (info d))
                     (QMap.keys (matches_ (info d))) (QMap.values (matches_ (info d)))).
  { apply Forall2_entries. intros i m Him.
    apply (pairs_valid fo (after d) (info d) (rows (snd (extractFeatures E s img))) i m
             Hobj Hobjects).
    - rewrite Hkpts. exact Hscene.
    - apply Hpairs. exact Him. }
  destruct (loop_single findHomography mapToScene QLineF_angle translationDistance s hs
              (Z.of_nat (cols img)) (Z.of_nat (rows img)) (after d) (info d)
              Hmask Hmin (S (weight (QMap.values (matches_ (info d))))) 0
              (mkHomographies (QMap.keys (matches_ (info d))) (QMap.values (matches_ (info d)))
                 [] [] [] [] [] [])
              Hvalid (Nat.le_0_l _) (Permutation_refl _) (Nat.lt_succ_diag_r _))
    as [st' [moreId [more [Hloop [Hids [_ [Hverdict _]]]]]]].
  exists d, st'. split; [ exact Hdetect | ]. split; [ exact Hsuccess | ].
  split; [ unfold detect_homographies; rewrite Hthreads; exact Hloop | ].
  split; [ exact Hverdict | ].
  intros i Hi. apply Permutation_sym in Hverdict. apply (Permutation_in _ Hverdict).
  rewrite Hids. cbn [matchesId]. apply in_or_app. left. apply Hkeys. exact Hi.
Qed.

Lemma detect_with_one_thread_gives_every_object_a_verdict_witness :
  exists d st',
    detect Example.E Example.multi featuredLibrary Example.img = Some d /\ success d = true
    /\ detect_homographies ExampleStage.findHomography ExampleStage.mapToScene
         ExampleStage.QLineF_angle Example.exactDistance Example.multi (mkHomographySettings false)
         (Z.of_nat (cols Example.img)) (Z.of_nat (rows Example.img))
         (S (weight (QMap.values (matches_ (info d))))) (after d) (info d) = Some (Some st')
    /\ Permutation (verdicts st') (matchesId st')
    /\ (forall i, In i (QMap.keys (objects_ featuredLibrary)) -> In i (verdicts st')).
Proof.
  apply (detect_with_one_thread_gives_every_object_a_verdict Example.E Example.multi
           (mkHomographySettings false) ExampleStage.findHomography ExampleStage.mapToScene
           ExampleStage.QLineF_angle Example.exactDistance featuredLibrary Example.img);
    try reflexivity.
  - exact featuredLibrary_wellKeyed.
  - exact featuredLibrary_built.
  - exact example_row_per_query.
  - intros a b. apply length_map.
  - exact featuredLibrary_keypoints.
Defined.

End DetectToStage.
